(** * event-bus: the reconnection schedulers, the protocol state machine,
      the offset stores and the connection loop

    A shallow embedding of the Go package [eventbus] (states.go, the
    reconnection policies, eventbus.go and the offset stores), with the
    properties its specification states about it.

    Conventions.
    - Go's sized integers are [Z] with the wrap-around written out
      ([int32], [int64]); Go's [int] is taken at its 64-bit width.
    - [time.Duration] is an [int64] count of nanoseconds.
    - A Go [error] is [option error]; [None] is [nil].
    - A call that can fail with a run-time panic returns a [result]. *)

From Stdlib Require Import ZArith NArith List String Ascii Bool Lia DecimalString.
From Stdlib Require Import DecimalPos DecimalZ.
From stdpp Require Import base option list strings gmap sorting.

Local Open Scope Z_scope.

(** ** Machine integers *)

Definition wrap (w z : Z) : Z := (z + 2 ^ (w - 1)) mod 2 ^ w - 2 ^ (w - 1).

Definition int32 (z : Z) : Z := wrap 32 z.
Definition int64 (z : Z) : Z := wrap 64 z.
(** Go's [int], 64 bits wide on the usual targets. *)
Definition int (z : Z) : Z := wrap 64 z.

Definition MaxInt32 : Z := 2 ^ 31 - 1.
Definition MinInt32 : Z := - 2 ^ 31.
Definition MaxInt64 : Z := 2 ^ 63 - 1.
Definition MinInt64 : Z := - 2 ^ 63.

Definition in_int32 (z : Z) : Prop := MinInt32 <= z <= MaxInt32.
Definition in_int64 (z : Z) : Prop := MinInt64 <= z <= MaxInt64.

(** ** Durations *)

Definition Duration : Type := Z.
Definition Nanosecond : Duration := 1.
Definition Second : Duration := 1000000000.

(** ** Errors and panics *)

Inductive error : Type :=
| ErrReconnectsExhausted            (* errors.New("reconnects exhausted") *)
| ErrFailedToStoreOffset            (* errors.New("failed to store offset") *)
| SyntaxError                       (* encoding/json: the text is not JSON *)
| UnmarshalTypeError (value : string) (field : string)
                                    (* encoding/json: JSON value of the wrong kind *)
| External (msg : string)           (* an error of a collaborator *)
| Wrap (cause : error) (msg : string) (* errors.Wrap(cause, msg) *).

Inductive panic : Type :=
| IndexOutOfRange (index len : Z)   (* runtime error: index out of range *)
| PanicValue (msg : string).        (* any other value given to panic *)

(** The outcome of a call that may panic. *)
Inductive result (A : Type) : Type :=
| Ok (a : A)
| Panicked (p : panic).
Arguments Ok {A} a.
Arguments Panicked {A} p.

(** [l[i]] on a slice: a run-time panic when [i] is out of range. *)
Definition index {A} (l : list A) (i : Z) : result A :=
  if (0 <=? i) && (i <? Z.of_nat (length l)) then
    match l !! Z.to_nat i with
    | Some a => Ok a
    | None => Panicked (IndexOutOfRange i (Z.of_nat (length l)))
    end
  else Panicked (IndexOutOfRange i (Z.of_nat (length l))).

(** ** float64, as far as the schedulers use it

    [math.Pow(2, e)] for an integer [e] is the exact power of two, and the
    only other floats are conversions of [int64] values, so every float that
    occurs is an integer or a negative power of two.  A float is kept as the
    integer it denotes (a power of two below one converts to the integer 0). *)

(** [float64(z)] for an integer [z] of at most 64 bits: round to nearest,
    ties to even, on 53 bits of mantissa. *)
Definition float64_of_int (z : Z) : Z :=
  let a := Z.abs z in
  if a <? 2 ^ 53 then z
  else
    let e := Z.log2 a - 52 in
    let q := a / 2 ^ e in
    let r := a mod 2 ^ e in
    let h := 2 ^ (e - 1) in
    let q' := if r <? h then q
              else if h <? r then q + 1
              else if Z.even q then q else q + 1 in
    Z.sgn z * (q' * 2 ^ e).

(** The interface [ReconnectionScheduler]: a call advances the scheduler and
    returns a duration with an error ([Some] error: do not reconnect). *)
Class ReconnectionScheduler (S : Type) : Type :=
  NextReconnectBackoff : S -> S * result (Duration * option error).

(** The scheduler after [k] calls, and what the [k]-th call returns
    ([k] counted from 1). *)
Definition after_calls {S} `{ReconnectionScheduler S} (k : N) (s : S) : S :=
  N.iter k (fun s => fst (NextReconnectBackoff s)) s.

Definition nth_call {S} `{ReconnectionScheduler S} (k : N) (s : S)
  : result (Duration * option error) :=
  snd (NextReconnectBackoff (after_calls (k - 1) s)).

(** *** Constant *)

Record constantReconnectionScheduler : Type :=
  { c_duration : Duration }.

#[export] Instance constant_scheduler
  : ReconnectionScheduler constantReconnectionScheduler :=
  fun s => (s, Ok (c_duration s, None)).

(** *** Exponential *)

Record exponentialReconnectionScheduler : Type :=
  { e_attempts : Z;          (* int32 *)
    e_baseDelay : Duration;
    e_maxDelay : Duration }.

(** [ExponentialReconnectionPolicy.NewScheduler]. *)
Definition NewExponentialScheduler (base max : Duration)
  : exponentialReconnectionScheduler :=
  {| e_attempts := 0; e_baseDelay := base; e_maxDelay := max |}.

Section Exponential.

(** The conversion of a float64 outside the int64 range to an integer is
    implementation-specific in Go (amd64 gives the least int64, arm64
    saturates); the value it gives for a float of 2^63 or more is left open. *)
Variable float_overflow : Z.

(** [int64(f)] for a float64 [f] that denotes the integer [f]. *)
Definition int64_of_float (f : Z) : Z :=
  if (MinInt64 <=? f) && (f <=? MaxInt64) then f else float_overflow.

(** [time.Duration(math.Pow(float64(2), float64(e)))]. *)
Definition pow2_duration (e : Z) : Duration :=
  if e <? 0 then 0
  else if e <=? 62 then 2 ^ e
  else float_overflow.

Definition calculateDelay (base : Duration) (attempts : Z) : Duration :=
  int64 (pow2_duration (int32 (attempts - 1)) * base).

Definition exponential_scheduler
  : ReconnectionScheduler exponentialReconnectionScheduler :=
  fun s =>
    let attempts := int32 (e_attempts s + 1) in
    let s' := {| e_attempts := attempts;
                 e_baseDelay := e_baseDelay s;
                 e_maxDelay := e_maxDelay s |} in
    (s', Ok (int64_of_float
               (Z.min (float64_of_int (calculateDelay (e_baseDelay s) attempts))
                      (float64_of_int (e_maxDelay s))),
             None)).

End Exponential.

(** *** Limited *)

Record limitedReconnectionScheduler : Type :=
  { l_attempts : Z;          (* int32 *)
    l_delay : Duration }.

#[export] Instance limited_scheduler
  : ReconnectionScheduler limitedReconnectionScheduler :=
  fun s =>
    let attempts := int32 (l_attempts s - 1) in
    let s' := {| l_attempts := attempts; l_delay := l_delay s |} in
    if 0 <=? attempts then (s', Ok (l_delay s, None))
    else (s', Ok (l_delay s, Some ErrReconnectsExhausted)).

(** [LimitedReconnectionPolicy.NewScheduler]. *)
Definition NewLimitedScheduler (attempts : Z) (t : Duration)
  : limitedReconnectionScheduler :=
  {| l_attempts := attempts; l_delay := t |}.

(** *** Limited exponential *)

Record limitedExponentialReconnectionScheduler : Type :=
  { le_attempts : Z;         (* int *)
    le_backoffs : list Duration }.

(** The loop of [LimitedExponentialReconnectionPolicy.NewScheduler]:
    [for b <= max { backoffs = append(backoffs, b); b *= 2 }].
    [None]: the loop is still running when the fuel is spent. *)
Fixpoint backoffs_loop (fuel : nat) (b max : Duration) (backoffs : list Duration)
  : option (list Duration) :=
  match fuel with
  | O => None
  | S fuel =>
      if b <=? max then backoffs_loop fuel (int64 (b * 2)) max (backoffs ++ [b])
      else Some backoffs
  end.

Definition NewLimitedExponentialScheduler (fuel : nat) (base max : Duration)
  : option limitedExponentialReconnectionScheduler :=
  match backoffs_loop fuel base max [] with
  | Some backoffs => Some {| le_attempts := 0; le_backoffs := backoffs |}
  | None => None
  end.

#[export] Instance limited_exponential_scheduler
  : ReconnectionScheduler limitedExponentialReconnectionScheduler :=
  fun s =>
    let attempts := int (le_attempts s + 1) in
    let s' := {| le_attempts := attempts; le_backoffs := le_backoffs s |} in
    let len := Z.of_nat (length (le_backoffs s)) in
    if len <? attempts then
      match index (le_backoffs s) (int (len - 1)) with
      | Ok d => (s', Ok (d, Some ErrReconnectsExhausted))
      | Panicked p => (s', Panicked p)
      end
    else
      match index (le_backoffs s) (int (attempts - 1)) with
      | Ok d => (s', Ok (d, None))
      | Panicked p => (s', Panicked p)
      end.

(** The scheduler that [NewScheduler] builds for base 1s and max 8s. *)
Definition scheduler_1s_8s : limitedExponentialReconnectionScheduler :=
  {| le_attempts := 0;
     le_backoffs := [Second; 2 * Second; 4 * Second; 8 * Second] |}.

(** [DefaultPolicy.NewScheduler()], the scheduler [NewEventbus] takes:
    exponential, base 1s, max 32s. *)
Definition default_scheduler : exponentialReconnectionScheduler :=
  NewExponentialScheduler Second (32 * Second).

(** ** Text: strconv, encoding/json's encoder, encoding/base64

    A Go [string] and a [[]byte] are both a [string] here, a list of bytes. *)

(** [strconv.FormatInt(z, 10)], and [strconv.Itoa]: the decimal numeral, with
    a leading minus sign for a negative number. *)
Definition FormatInt (z : Z) : string := NilZero.string_of_int (Z.to_int z).
Definition Itoa (z : Z) : string := FormatInt z.

Definition dquote : ascii := "034"%char.
Definition backslash : ascii := "092"%char.

Definition hex_digit (n : N) : ascii :=
  if (n <? 10)%N then ascii_of_N (48 + n) else ascii_of_N (87 + n).

(** The six characters [\u00XX] for the byte [c]. *)
Definition unicode_escape (c : ascii) : string :=
  let n := N_of_ascii c in
  String backslash (String "u" (String "0" (String "0"
    (String (hex_digit (n / 16)) (String (hex_digit (n mod 16)) EmptyString))))).

(** What encoding/json writes for one byte below 0x80 of a string, with its
    default HTML escaping: the quote and the backslash get a backslash,
    backspace, form feed, newline, carriage return and tab their short
    escapes, the other control characters and [<], [>], [&] a [\u00XX]
    escape. *)
Definition escape_byte (c : ascii) : string :=
  let n := N_of_ascii c in
  if (n =? 34)%N then String backslash (String dquote EmptyString)
  else if (n =? 92)%N then String backslash (String backslash EmptyString)
  else if (n =? 8)%N then String backslash (String "b" EmptyString)
  else if (n =? 12)%N then String backslash (String "f" EmptyString)
  else if (n =? 10)%N then String backslash (String "n" EmptyString)
  else if (n =? 13)%N then String backslash (String "r" EmptyString)
  else if (n =? 9)%N then String backslash (String "t" EmptyString)
  else if (n <? 32)%N || (n =? 60)%N || (n =? 62)%N || (n =? 38)%N
       then unicode_escape c
  else String c EmptyString.

(** The sequences of two, three and four bytes that [utf8.DecodeRuneInString]
    takes for one rune: no overlong form, no surrogate, nothing above
    U+10FFFF. *)
Definition in_range (c : ascii) (lo hi : N) : bool :=
  (lo <=? N_of_ascii c)%N && (N_of_ascii c <=? hi)%N.

Definition utf8_two (c0 c1 : ascii) : bool :=
  in_range c0 194 223 && in_range c1 128 191.

Definition utf8_three (c0 c1 c2 : ascii) : bool :=
  let n := N_of_ascii c0 in
  in_range c0 224 239
  && in_range c1 (if (n =? 224)%N then 160 else 128) (if (n =? 237)%N then 159 else 191)
  && in_range c2 128 191.

Definition utf8_four (c0 c1 c2 c3 : ascii) : bool :=
  let n := N_of_ascii c0 in
  in_range c0 240 244
  && in_range c1 (if (n =? 240)%N then 144 else 128) (if (n =? 244)%N then 143 else 191)
  && in_range c2 128 191 && in_range c3 128 191.

(** The escape of U+FFFD, written for a byte that begins no rune. *)
Definition replacement_escape : string :=
  String backslash (String "u" (String "f" (String "f" (String "f" (String "d"
    EmptyString))))).

(** A rune of three bytes: U+2028 and U+2029 are written as their six
    character escapes, every other one is copied. *)
Definition escape_three (c0 c1 c2 : ascii) : string :=
  let n2 := N_of_ascii c2 in
  if (N_of_ascii c0 =? 226)%N && (N_of_ascii c1 =? 128)%N
     && ((n2 =? 168)%N || (n2 =? 169)%N)
  then String backslash (String "u" (String "2" (String "0" (String "2"
         (String (hex_digit (n2 mod 16)) EmptyString)))))
  else String c0 (String c1 (String c2 EmptyString)).

(** What encoding/json writes for the bytes of a string: a byte below 0x80
    by [escape_byte], a well-formed rune of several bytes as it is (but for
    U+2028 and U+2029), and the escape of U+FFFD for a byte that begins
    none. *)
Fixpoint escape (s : string) : string :=
  match s with
  | EmptyString => EmptyString
  | String c0 r0 =>
      if (N_of_ascii c0 <? 128)%N then escape_byte c0 +:+ escape r0
      else
        match r0 with
        | String c1 r1 =>
            if utf8_two c0 c1 then String c0 (String c1 (escape r1))
            else
              match r1 with
              | String c2 r2 =>
                  if utf8_three c0 c1 c2 then escape_three c0 c1 c2 +:+ escape r2
                  else
                    match r2 with
                    | String c3 r3 =>
                        if utf8_four c0 c1 c2 c3
                        then String c0 (String c1 (String c2 (String c3 (escape r3))))
                        else replacement_escape +:+ escape r0
                    | EmptyString => replacement_escape +:+ escape r0
                    end
              | EmptyString => replacement_escape +:+ escape r0
              end
        | EmptyString => replacement_escape
        end
  end.

(** A Go string as a JSON string literal. *)
Definition quote (s : string) : string :=
  String dquote (escape s +:+ String dquote EmptyString).

Definition member_text (kv : string * string) : string :=
  quote kv.1 +:+ ":" +:+ kv.2.

Fixpoint join_members (l : list (string * string)) : string :=
  match l with
  | [] => EmptyString
  | [kv] => member_text kv
  | kv :: r => member_text kv +:+ "," +:+ join_members r
  end.

(** A JSON object from members whose values are JSON text already; as
    [json.Marshal] does for a map, the keys come in byte order. *)
Definition object_text (members : list (string * string)) : string :=
  "{" +:+ join_members (merge_sort (fun x y => String.leb x.1 y.1) members) +:+ "}".

(** [json.Marshal] of a [map[string]string]; it cannot fail. *)
Definition Marshal (m : gmap string string) : string :=
  object_text (prod_map id quote <$> map_to_list m).

(** base64.StdEncoding.  A sextet is six bits, the most significant first. *)
Definition sextet : Type := bool * bool * bool * bool * bool * bool.

Definition sextet_value (s : sextet) : N :=
  let '(b5, b4, b3, b2, b1, b0) := s in
  N_of_ascii (Ascii b0 b1 b2 b3 b4 b5 false false).

Definition sextet_of_value (n : N) : sextet :=
  match ascii_of_N n with
  | Ascii b0 b1 b2 b3 b4 b5 _ _ => (b5, b4, b3, b2, b1, b0)
  end.

Definition encode_sextet (s : sextet) : ascii :=
  let n := sextet_value s in
  if (n <? 26)%N then ascii_of_N (65 + n)
  else if (n <? 52)%N then ascii_of_N (97 + (n - 26))
  else if (n <? 62)%N then ascii_of_N (48 + (n - 52))
  else if (n =? 62)%N then "+"%char else "/"%char.

Definition decode_sextet (c : ascii) : option sextet :=
  let n := N_of_ascii c in
  if (65 <=? n)%N && (n <=? 90)%N then Some (sextet_of_value (n - 65))
  else if (97 <=? n)%N && (n <=? 122)%N then Some (sextet_of_value (n - 97 + 26))
  else if (48 <=? n)%N && (n <=? 57)%N then Some (sextet_of_value (n - 48 + 52))
  else if (n =? 43)%N then Some (sextet_of_value 62)
  else if (n =? 47)%N then Some (sextet_of_value 63)
  else None.

(** [base64.StdEncoding.EncodeToString]: three bytes make four characters;
    a last group of one or two bytes is padded with [=]. *)
Fixpoint EncodeToString (src : string) : string :=
  match src with
  | EmptyString => EmptyString
  | String (Ascii a0 a1 a2 a3 a4 a5 a6 a7) EmptyString =>
      String (encode_sextet (a7, a6, a5, a4, a3, a2))
     (String (encode_sextet (a1, a0, false, false, false, false))
     (String "=" (String "=" EmptyString)))
  | String (Ascii a0 a1 a2 a3 a4 a5 a6 a7)
     (String (Ascii b0 b1 b2 b3 b4 b5 b6 b7) EmptyString) =>
      String (encode_sextet (a7, a6, a5, a4, a3, a2))
     (String (encode_sextet (a1, a0, b7, b6, b5, b4))
     (String (encode_sextet (b3, b2, b1, b0, false, false))
     (String "=" EmptyString)))
  | String (Ascii a0 a1 a2 a3 a4 a5 a6 a7)
     (String (Ascii b0 b1 b2 b3 b4 b5 b6 b7)
     (String (Ascii c0 c1 c2 c3 c4 c5 c6 c7) rest)) =>
      String (encode_sextet (a7, a6, a5, a4, a3, a2))
     (String (encode_sextet (a1, a0, b7, b6, b5, b4))
     (String (encode_sextet (b3, b2, b1, b0, c7, c6))
     (String (encode_sextet (c5, c4, c3, c2, c1, c0))
     (EncodeToString rest))))
  end.

(** [base64.StdEncoding.DecodeString] on padded text without line breaks;
    [None] for text that is not base64. *)
Fixpoint DecodeString (s : string) : option string :=
  match s with
  | EmptyString => Some EmptyString
  | String c1 (String c2 (String c3 (String c4 rest))) =>
      match decode_sextet c1, decode_sextet c2 with
      | Some (a7, a6, a5, a4, a3, a2), Some (a1, a0, b7, b6, b5, b4) =>
          let a := Ascii a0 a1 a2 a3 a4 a5 a6 a7 in
          if Ascii.eqb c3 "=" then
            if Ascii.eqb c4 "=" && negb (b7 || b6 || b5 || b4) then
              match rest with
              | EmptyString => Some (String a EmptyString)
              | _ => None
              end
            else None
          else
            match decode_sextet c3 with
            | Some (b3, b2, b1, b0, c7, c6) =>
                let b := Ascii b0 b1 b2 b3 b4 b5 b6 b7 in
                if Ascii.eqb c4 "=" then
                  if negb (c7 || c6) then
                    match rest with
                    | EmptyString => Some (String a (String b EmptyString))
                    | _ => None
                    end
                  else None
                else
                  match decode_sextet c4, DecodeString rest with
                  | Some (c5, c4, c3, c2, c1, c0), Some r =>
                      Some (String a (String b
                             (String (Ascii c0 c1 c2 c3 c4 c5 c6 c7) r)))
                  | _, _ => None
                  end
            | None => None
            end
      | _, _ => None
      end
  | _ => None
  end.

(** ** Inbound frames: encoding/json's decoder

    [json.Unmarshal] first scans the whole body and fails with a syntax error
    when it is not JSON text, then decodes the value into the target.  The
    body of an inbound frame is kept as what the scan finds in it. *)

Inductive json_number : Type :=
| Integral (z : Z)            (* a literal with no fraction and no exponent *)
| Fractional (lit : string).  (* a literal with a fraction or an exponent *)

#[local] Unset Elimination Schemes.
Inductive json : Type :=
| JNull
| JBool (b : bool)
| JNumber (n : json_number)
| JString (s : string)        (* the string denoted, escapes resolved *)
| JArray (elements : list json)
| JObject (members : list (string * json)).  (* in the order of the text *)
#[local] Set Elimination Schemes.

Inductive frame : Type :=
| Malformed                   (* the body is not JSON text *)
| Valid (v : json).

Definition json_kind (v : json) : string :=
  match v with
  | JNull => "null"
  | JBool _ => "bool"
  | JNumber _ => "number"
  | JString _ => "string"
  | JArray _ => "array"
  | JObject _ => "object"
  end.

Definition upper (c : ascii) : ascii :=
  let n := N_of_ascii c in
  if (97 <=? n)%N && (n <=? 122)%N then ascii_of_N (n - 32) else c.

(** The case folding under which a key of the text names a struct field
    when no field has exactly that name: ASCII letters fold to upper case,
    and the two non-ASCII letters whose simple folding is ASCII, U+017F and
    U+212A, fold to [S] and [K]. *)
Fixpoint foldName (s : string) : string :=
  match s with
  | EmptyString => EmptyString
  | String c r =>
      match r with
      | String c1 r1 =>
          if Ascii.eqb c "197" && Ascii.eqb c1 "191" then String "S" (foldName r1)
          else
            match r1 with
            | String c2 r2 =>
                if Ascii.eqb c "226" && Ascii.eqb c1 "132" && Ascii.eqb c2 "170"
                then String "K" (foldName r2)
                else String (upper c) (foldName r)
            | EmptyString => String (upper c) (foldName r)
            end
      | EmptyString => String (upper c) EmptyString
      end
  end.

(** A field of a target struct: its JSON name and how a value is stored in
    it, which fails on a value of the wrong kind. *)
Record field (T : Type) : Type :=
  Field { f_name : string; f_store : json -> T -> error + T }.
Arguments Field {T} f_name f_store.
Arguments f_name {T} f.
Arguments f_store {T} f.

(** A field of type [string]: takes a string, ignores [null]. *)
Definition string_field {T} (name : string) (set : string -> T -> T) : field T :=
  Field name (fun v t =>
    match v with
    | JString s => inr (set s t)
    | JNull => inr t
    | _ => inl (UnmarshalTypeError (json_kind v) name)
    end).

(** A field of a signed integer type of [bits] bits: takes an integral
    literal in range, ignores [null].  The error for a number it does not
    take names the literal. *)
Definition int_field {T} (bits : Z) (name : string) (set : Z -> T -> T) : field T :=
  Field name (fun v t =>
    match v with
    | JNumber (Integral z) =>
        if (- 2 ^ (bits - 1) <=? z) && (z <? 2 ^ (bits - 1)) then inr (set z t)
        else inl (UnmarshalTypeError ("number " +:+ FormatInt z) name)
    | JNumber (Fractional lit) => inl (UnmarshalTypeError ("number " +:+ lit) name)
    | JNull => inr t
    | _ => inl (UnmarshalTypeError (json_kind v) name)
    end).

(** A field of type [json.RawMessage]: takes the text of any value. *)
Definition raw_field {T} (name : string) (set : json -> T -> T) : field T :=
  Field name (fun v t => inr (set v t)).

Definition find_field {T} (fields : list (field T)) (key : string) : option (field T) :=
  match find (fun f => String.eqb (f_name f) key) fields with
  | Some f => Some f
  | None => find (fun f => String.eqb (foldName (f_name f)) (foldName key)) fields
  end.

(** The members of an object, in order: a key that names no field is
    skipped; the first type error is kept and decoding goes on. *)
Fixpoint decode_members {T} (fields : list (field T)) (members : list (string * json))
    (t : T) (saved : option error) : T * option error :=
  match members with
  | [] => (t, saved)
  | (key, v) :: rest =>
      match find_field fields key with
      | None => decode_members fields rest t saved
      | Some f =>
          match f_store f v t with
          | inr t' => decode_members fields rest t' saved
          | inl e =>
              decode_members fields rest t
                (match saved with Some e0 => Some e0 | None => Some e end)
          end
      end
  end.

(** [json.Unmarshal(body, &t)] for a struct [t]. *)
Definition Unmarshal {T} (fields : list (field T)) (body : frame) (t : T)
  : T * option error :=
  match body with
  | Malformed => (t, Some SyntaxError)
  | Valid JNull => (t, None)
  | Valid (JObject members) => decode_members fields members t None
  | Valid v => (t, Some (UnmarshalTypeError (json_kind v) EmptyString))
  end.

Record serverHandshake : Type :=
  { sh_ID : string; sh_Status : string }.

Definition serverHandshake_fields : list (field serverHandshake) :=
  [ string_field "id" (fun s t => {| sh_ID := s; sh_Status := sh_Status t |});
    string_field "status" (fun s t => {| sh_ID := sh_ID t; sh_Status := s |}) ].

Record streamingEvent : Type :=
  { se_ID : string; se_Status : string; se_Stream : string }.

Definition streamingEvent_fields : list (field streamingEvent) :=
  [ string_field "id"
      (fun s t => {| se_ID := s; se_Status := se_Status t; se_Stream := se_Stream t |});
    string_field "status"
      (fun s t => {| se_ID := se_ID t; se_Status := s; se_Stream := se_Stream t |});
    string_field "stream"
      (fun s t => {| se_ID := se_ID t; se_Status := se_Status t; se_Stream := s |}) ].

(** [Body] holds the value whose text the [json.RawMessage] is; [None] is
    the nil slice. *)
Record Message : Type :=
  { Offset : Z;               (* int64 *)
    Partition : Z;            (* int32 *)
    Body : option json }.

Definition Message_fields : list (field Message) :=
  [ int_field 64 "offset"
      (fun z t => {| Offset := z; Partition := Partition t; Body := Body t |});
    int_field 32 "partition"
      (fun z t => {| Offset := Offset t; Partition := z; Body := Body t |});
    raw_field "body"
      (fun v t => {| Offset := Offset t; Partition := Partition t; Body := Some v |}) ].

(** ** Offset stores *)

(** [PartitionOffsets], a [map[int32]int64]. *)
Abbreviation PartitionOffsets := (gmap Z Z).

(** [PartitionOffsets.MarshalJSON]: keys and values as decimal strings, in a
    [map[string]string] that [json.Marshal] writes out. *)
Definition PartitionOffsets_MarshalJSON (po : PartitionOffsets) : string :=
  let data : gmap string string :=
    map_fold (fun k v data => <[Itoa (int k) := Itoa (int v)]> data) ∅ po in
  Marshal data.

(** The interface [offsetStore].  [GetOffsets] returns a pointer, [None]
    for nil, and an error.  An implementation is code of the caller: a call
    leaves the store in some state and returns, or panics. *)
Class offsetStore (S : Type) : Type :=
  { SetOffset : S -> Z -> Z -> S * result (option error);
    GetOffsets : S -> S * result (option PartitionOffsets * option error) }.

Record InMemoryOffsetStore : Type :=
  { offsets : PartitionOffsets }.

Definition NewInMemoryOffsetStore : InMemoryOffsetStore :=
  {| offsets := ∅ |}.

#[export] Instance in_memory_store : offsetStore InMemoryOffsetStore :=
  {| SetOffset os partition offset :=
       ({| offsets := <[partition := offset]> (offsets os) |}, Ok None);
     GetOffsets os :=
       if (size (offsets os) =? 0)%nat then (os, Ok (None, None))
       else (os, Ok (Some (offsets os), None)) |}.

(** The Redis store.  Its backend is a connection taken from the pool; what
    the store sees of a command is the pair that [redis.Int] makes of the
    reply to it. *)
Inductive redis_arg : Type :=
| ArgString (s : string)
| ArgInt32 (z : Z)
| ArgInt64 (z : Z).

Class redisConn (C : Type) : Type :=
  DoInt : C -> string -> list redis_arg -> C * (Z * option error).

Record RedisOffsetStore (C : Type) : Type :=
  { prefix : string; pool : C }.
Arguments prefix {C} r.
Arguments pool {C} r.

Definition NewRedisOffsetStore {C} (prefix : string) (p : C) : RedisOffsetStore C :=
  {| prefix := prefix; pool := p |}.

Definition key {C} (rs : RedisOffsetStore C) : string := prefix rs +:+ ":offsets".

Definition storeOffsetCmd {C} (rs : RedisOffsetStore C) (partition offset : Z)
  : string * list redis_arg :=
  ("HSET"%string, [ArgString (key rs); ArgInt32 partition; ArgInt64 offset]).

(** [RedisOffsetStore.SetOffset]. *)
Definition Redis_SetOffset {C} `{redisConn C} (rs : RedisOffsetStore C)
    (partition offset : Z) : RedisOffsetStore C * option error :=
  let '(cmd, args) := storeOffsetCmd rs partition offset in
  let '(c, (r, err)) := DoInt (pool rs) cmd args in
  let rs' := {| prefix := prefix rs; pool := c |} in
  if negb ((r =? 1) || (r =? 0)) then (rs', Some ErrFailedToStoreOffset)
  else (rs', err).

(** ** The client *)

(** The interface [EventHandler]: a call leaves the handler in some state
    and returns an error or nil, or panics. *)
Class EventHandler (H : Type) : Type :=
  Handle : H -> Message -> H * result (option error).

Record Config : Type :=
  { Endpoint : string;
    AuthToken : string;
    Stream : string;
    Client : string;
    Version : string }.

Inductive eventbusState : Type := connecting | ready | streaming.

(** What the client does to its collaborators, in order. *)
Inductive event : Type :=
| EvSleep (d : Duration)              (* time.Sleep(d) *)
| EvDial (attempt : nat)              (* dialer.Dial, attempts counted from 0 *)
| EvRead                              (* socket.ReadMessage *)
| EvSend (data : string)              (* socket.WriteMessage *)
| EvClose                             (* socket.Close *)
| EvHandle (m : Message)              (* eventHandler.Handle(m) *)
| EvSetOffset (partition offset : Z)  (* store.SetOffset(partition, offset) *)
| EvGetOffsets                        (* store.GetOffsets() *)
| EvLog (e : error).                  (* errorLogger(e) *)

(** The network as the client has used it so far. *)
Record world : Type :=
  { dials : nat; reads : nat; writes : nat; trace : list event }.

Definition world0 : world := {| dials := 0; reads := 0; writes := 0; trace := [] |}.

Definition record (e : event) (w : world) : world :=
  {| dials := dials w; reads := reads w; writes := writes w;
     trace := trace w ++ [e] |}.

(** Why [Run] stops; each is the error it sends on [done]. *)
Inductive termination : Type :=
| SchedulerExit (e : error)           (* the scheduler returned the error e *)
| DialFailed (attempt : nat) (e : error) (* Dial number attempt returned e *)
| Recovered (p : panic).              (* a panic caught by recover() *)

Section Client.

Context {Sched Store Hand : Type}.
Context {scheduler : ReconnectionScheduler Sched}.
Context {offset_store : offsetStore Store}.
Context {event_handler : EventHandler Hand}.

(** The constants [OffsetOldest] and [OffsetNewest]; their declarations
    are outside the files at hand. *)
Variable OffsetOldest OffsetNewest : Z.

(** The network: what the n-th call of [Dial], of [ReadMessage] and of
    [WriteMessage] returns.  These are calls into the websocket library,
    which return as the client uses them: from one goroutine, and never
    again on a socket after a read of it has failed. *)
Variable dial : nat -> option error.
Variable read : nat -> error + frame.
Variable write : nat -> option error.

(** [state] and [socket] are nil ([None]) until [connect] sets them; a
    socket is named by the number of the Dial that opened it.  The error
    logger is a function of the caller: what it writes is its own affair, to
    the client it returns or panics. *)
Record Eventbus : Type :=
  { config : Config;
    state : option eventbusState;
    socket : option nat;
    eventHandler : Hand;
    store : Store;
    Reconnection : Sched;
    startingOffset : Z;
    errorLogger : error -> result unit }.

Definition set_state (s : option eventbusState) (eb : Eventbus) : Eventbus :=
  {| config := config eb; state := s; socket := socket eb;
     eventHandler := eventHandler eb; store := store eb;
     Reconnection := Reconnection eb; startingOffset := startingOffset eb;
     errorLogger := errorLogger eb |}.

Definition set_socket (c : option nat) (eb : Eventbus) : Eventbus :=
  {| config := config eb; state := state eb; socket := c;
     eventHandler := eventHandler eb; store := store eb;
     Reconnection := Reconnection eb; startingOffset := startingOffset eb;
     errorLogger := errorLogger eb |}.

Definition set_eventHandler (h : Hand) (eb : Eventbus) : Eventbus :=
  {| config := config eb; state := state eb; socket := socket eb;
     eventHandler := h; store := store eb;
     Reconnection := Reconnection eb; startingOffset := startingOffset eb;
     errorLogger := errorLogger eb |}.

Definition set_store (st : Store) (eb : Eventbus) : Eventbus :=
  {| config := config eb; state := state eb; socket := socket eb;
     eventHandler := eventHandler eb; store := st;
     Reconnection := Reconnection eb; startingOffset := startingOffset eb;
     errorLogger := errorLogger eb |}.

Definition set_Reconnection (r : Sched) (eb : Eventbus) : Eventbus :=
  {| config := config eb; state := state eb; socket := socket eb;
     eventHandler := eventHandler eb; store := store eb;
     Reconnection := r; startingOffset := startingOffset eb;
     errorLogger := errorLogger eb |}.

Definition set_startingOffset (o : Z) (eb : Eventbus) : Eventbus :=
  {| config := config eb; state := state eb; socket := socket eb;
     eventHandler := eventHandler eb; store := store eb;
     Reconnection := Reconnection eb; startingOffset := o;
     errorLogger := errorLogger eb |}.

Definition set_errorLogger (el : error -> result unit) (eb : Eventbus) : Eventbus :=
  {| config := config eb; state := state eb; socket := socket eb;
     eventHandler := eventHandler eb; store := store eb;
     Reconnection := Reconnection eb; startingOffset := startingOffset eb;
     errorLogger := el |}.

(** [NewEventbus]; [sched] stands for [DefaultPolicy.NewScheduler()], and is
    what a caller may put in the field [Reconnection] afterwards.  The
    logger it installs prints the error with [log.Print], and returns. *)
Definition NewEventbus (config : Config) (handler : Hand) (store : Store)
    (sched : Sched) : Eventbus :=
  {| config := config; state := None; socket := None;
     eventHandler := handler; store := store;
     Reconnection := sched; startingOffset := OffsetOldest;
     errorLogger := fun _ => Ok tt |}.

Definition SetErrorLogger (el : error -> result unit) (eb : Eventbus) : Eventbus :=
  set_errorLogger el eb.

Definition StartAtNewest (eb : Eventbus) : Eventbus :=
  set_startingOffset OffsetNewest eb.

Definition sendBytes (w : world) (data : string) : world * option error :=
  ({| dials := dials w; reads := reads w; writes := S (writes w);
      trace := trace w ++ [EvSend data] |},
   write (writes w)).

Definition setState (s : eventbusState) (eb : Eventbus) : Eventbus :=
  set_state (Some s) eb.

(** [encodeOffsets]: the marshalling of the one-key map cannot fail. *)
Definition encodeOffsets (offsets : PartitionOffsets) : string :=
  EncodeToString (object_text [("p"%string, PartitionOffsets_MarshalJSON offsets)]).

Definition encodeStarting (position : Z) : string :=
  EncodeToString (Marshal {[ "d"%string := FormatInt position ]}).

Definition createHandshake (eb : Eventbus) (w : world) (serverID : string)
  : Eventbus * world * result (gmap string string) :=
  let handshake : gmap string string :=
    <["version"%string := Version (config eb)]>
   (<["client"%string := Client (config eb)]>
   (<["stream"%string := Stream (config eb)]>
   (<["authentication"%string := AuthToken (config eb)]>
   ({[ "id"%string := serverID ]})))) in
  let '(st, r) := GetOffsets (store eb) in
  let eb := set_store st eb in
  let w := record EvGetOffsets w in
  match r with
  | Panicked p => (eb, w, Panicked p)
  | Ok (offsets, None) =>
      match offsets with
      | None =>
          (eb, w, Ok (<["state"%string := encodeStarting (startingOffset eb)]> handshake))
      | Some po => (eb, w, Ok (<["state"%string := encodeOffsets po]> handshake))
      end
  | Ok (offsets, Some _) => (eb, w, Ok handshake)
  end.

(** [connecting.handleEvent]; the marshalling of a map of strings cannot
    fail.  A panic of [GetOffsets] passes through [createHandshake] and
    through here. *)
Definition connecting_handleEvent (eb : Eventbus) (w : world) (body : frame)
  : Eventbus * world * result (option error) :=
  let '(sh, err) := Unmarshal serverHandshake_fields body
                      {| sh_ID := EmptyString; sh_Status := EmptyString |} in
  match err with
  | Some e => (eb, w, Ok (Some (Wrap e "unmarshalling body in connecting.handleEvent")))
  | None =>
      let '(eb, w, r) := createHandshake eb w (sh_ID sh) in
      match r with
      | Panicked p => (eb, w, Panicked p)
      | Ok handshake =>
          let response := Marshal handshake in
          let '(w, err) := sendBytes w response in
          match err with
          | Some e =>
              (eb, w, Ok (Some (Wrap e "sending handshake in connecting.handleEvent")))
          | None => (setState ready eb, w, Ok None)
          end
      end
  end.

Definition ready_handleEvent (eb : Eventbus) (w : world) (body : frame)
  : Eventbus * world * option error :=
  let '(sm, err) := Unmarshal streamingEvent_fields body
                      {| se_ID := EmptyString; se_Status := EmptyString;
                         se_Stream := EmptyString |} in
  match err with
  | Some e => (eb, w, Some (Wrap e "unmarshalling body in ready.handleEvent"))
  | None => (setState streaming eb, w, None)
  end.

(** [streaming.handleEvent]; a panic of the handler or of the store passes
    through. *)
Definition streaming_handleEvent (eb : Eventbus) (w : world) (body : frame)
  : Eventbus * world * result (option error) :=
  let '(m, err) := Unmarshal Message_fields body
                     {| Offset := 0; Partition := 0; Body := None |} in
  match err with
  | Some e => (eb, w, Ok (Some (Wrap e "unmarshalling body in streaming.handleEvent")))
  | None =>
      let '(h, r) := Handle (eventHandler eb) m in
      let eb := set_eventHandler h eb in
      let w := record (EvHandle m) w in
      match r with
      | Panicked p => (eb, w, Panicked p)
      | Ok (Some e) => (eb, w, Ok (Some (Wrap e "handling event in streaming.handleEvent")))
      | Ok None =>
          let '(st, r) := SetOffset (store eb) (Partition m) (Offset m) in
          let eb := set_store st eb in
          let w := record (EvSetOffset (Partition m) (Offset m)) w in
          match r with
          | Panicked p => (eb, w, Panicked p)
          | Ok (Some e) =>
              (eb, w, Ok (Some (Wrap e "storing offset in streaming.handleEvent")))
          | Ok None => (eb, w, Ok None)
          end
      end
  end.

(** [eb.state.handleEvent(eb, msg)], by the state.  The ready state calls
    no collaborator, so its call returns. *)
Definition handleEvent (s : eventbusState) (eb : Eventbus) (w : world) (body : frame)
  : Eventbus * world * result (option error) :=
  match s with
  | connecting => connecting_handleEvent eb w body
  | ready => let '(eb, w, err) := ready_handleEvent eb w body in (eb, w, Ok err)
  | streaming => streaming_handleEvent eb w body
  end.

(** [connect]: the error it returns, tagged with where it comes from.  The
    read deadline and the ping handler it installs on the new socket concern
    time only and are left out. *)
Definition connect (eb : Eventbus) (w : world)
  : Eventbus * world * option termination :=
  let eb := set_state (Some connecting) eb in
  let '(sched, r) := NextReconnectBackoff (Reconnection eb) in
  let eb := set_Reconnection sched eb in
  match r with
  | Panicked p => (eb, w, Some (Recovered p))
  | Ok (reconnectTimeout, Some exit) => (eb, w, Some (SchedulerExit exit))
  | Ok (reconnectTimeout, None) =>
      let w := record (EvSleep reconnectTimeout) w in
      let attempt := dials w in
      let w := {| dials := S attempt; reads := reads w; writes := writes w;
                  trace := trace w ++ [EvDial attempt] |} in
      match dial attempt with
      | Some err => (eb, w, Some (DialFailed attempt err))
      | None => (set_socket (Some attempt) eb, w, None)
      end
  end.

(** When [Run]'s goroutine returns or panics, its deferred function sends
    the recovered panic on [done] and closes the socket if there is one; the
    field [socket] is left as it is. *)
Definition finish (eb : Eventbus) (w : world) : world :=
  match socket eb with
  | Some _ => record EvClose w
  | None => w
  end.

(** What ends a turn of the loop on an error [err]: log it, close and drop
    the socket, go round again.  A logger that panics ends [Run] there, with
    the socket still in its field. *)
Definition drop_socket (err : error) (eb : Eventbus) (w : world)
  : Eventbus * world * option termination :=
  let w := record (EvLog err) w in
  match errorLogger eb err with
  | Panicked p => (eb, finish eb w, Some (Recovered p))
  | Ok _ => (set_socket None eb, record EvClose w, None)
  end.

(** The network after one more call of [ReadMessage]. *)
Definition after_read (w : world) : world :=
  {| dials := dials w; reads := S (reads w); writes := writes w;
     trace := trace w ++ [EvRead] |}.

(** After the connection step of a turn: read a frame and hand it to the
    state.  A panic of the state (of the store or the handler it calls, or of
    a nil state) is recovered by [Run]'s deferred function and ends [Run]. *)
Definition read_and_handle (eb : Eventbus) (w : world)
  : Eventbus * world * option termination :=
  let n := reads w in
  let w := after_read w in
  match read n with
  | inl err => drop_socket err eb w
  | inr msg =>
      match state eb with
      | None => (eb, finish eb w, Some (Recovered (PanicValue "nil state")))
      | Some s =>
          let '(eb, w, r) := handleEvent s eb w msg in
          match r with
          | Panicked p => (eb, finish eb w, Some (Recovered p))
          | Ok (Some err) => drop_socket err eb w
          | Ok None => (eb, w, None)
          end
      end
  end.

(** One turn of the loop of [Run]; [Some] termination: the goroutine has
    sent it on [done] and returned. *)
Definition Run_turn (eb : Eventbus) (w : world)
  : Eventbus * world * option termination :=
  match socket eb with
  | None =>
      match connect eb w with
      | (eb, w, Some t) => (eb, finish eb w, Some t)
      | (eb, w, None) => read_and_handle eb w
      end
  | Some _ => read_and_handle eb w
  end.

(** [Run], for at most [fuel] turns of its loop; [None]: still running. *)
Fixpoint Run (fuel : nat) (eb : Eventbus) (w : world)
  : Eventbus * world * option termination :=
  match fuel with
  | O => (eb, w, None)
  | S fuel =>
      match Run_turn eb w with
      | (eb, w, Some t) => (eb, w, Some t)
      | (eb, w, None) => Run fuel eb w
      end
  end.

(** A client that holds a socket has a state: [connect] sets the state
    before it opens the socket. *)
Definition live (eb : Eventbus) : Prop :=
  is_Some (socket eb) -> is_Some (state eb).

(** The cause of a termination, at the client and network a turn starts
    from: the turn had no socket and [connect] failed, on the scheduler or
    on the dialer. *)
Definition caused_by_connect (eb : Eventbus) (w : world) (t : termination) : Prop :=
  socket eb = None /\
  match t with
  | SchedulerExit e =>
      exists d, (NextReconnectBackoff (Reconnection eb)).2 = Ok (d, Some e)
  | DialFailed attempt e =>
      attempt = dials w /\ dial attempt = Some e /\
      exists d, (NextReconnectBackoff (Reconnection eb)).2 = Ok (d, None)
  | Recovered p => (NextReconnectBackoff (Reconnection eb)).2 = Panicked p
  end.

(** The client and the network at the read of a turn: as the turn finds
    them when it begins with a socket, as [connect] leaves them otherwise. *)
Definition at_read (eb : Eventbus) (w : world) : Eventbus * world :=
  match socket eb with
  | Some _ => (eb, w)
  | None => (connect eb w).1
  end.

(** A panic of a collaborator at the read of a turn, [eb] and [w] being the
    client and the network there.  Either the state panicked on the frame
    read (the store or the handler it called), or the logger panicked on the
    error to log, the one of the read or the one the state returned. *)
Definition panics_at_read (eb : Eventbus) (w : world) (t : termination) : Prop :=
  match t with
  | Recovered p =>
      match read (reads w) with
      | inl err => errorLogger eb err = Panicked p
      | inr msg =>
          exists s, state eb = Some s /\
          match handleEvent s eb (after_read w) msg with
          | (_, _, Panicked q) => q = p
          | (eb2, _, Ok (Some err)) => errorLogger eb2 err = Panicked p
          | (_, _, Ok None) => False
          end
      end
  | _ => False
  end.

(** The other cause of a termination, at the client and network a turn
    starts from: the turn got to its read with a socket, and a collaborator
    panicked there. *)
Definition caused_by_collaborator (eb : Eventbus) (w : world) (t : termination) : Prop :=
  is_Some (socket (at_read eb w).1) /\
  panics_at_read (at_read eb w).1 (at_read eb w).2 t.

End Client.

(** ** What a frame must be for the ready state to take it *)

Definition string_or_null (v : json) : bool :=
  match v with
  | JString _ | JNull => true
  | _ => false
  end.

(** A member fits when its key names no field or its value can be stored in
    a string field. *)
Definition member_fits {T} (fields : list (field T)) (kv : string * json) : bool :=
  match find_field fields kv.1 with
  | None => true
  | Some _ => string_or_null kv.2
  end.

(** The bodies that [json.Unmarshal] decodes into a [streamingEvent] without
    an error: [null], and an object in which [id], [status] and [stream],
    where present, are strings or [null]. *)
Definition fits_streamingEvent (body : frame) : bool :=
  match body with
  | Malformed => false
  | Valid JNull => true
  | Valid (JObject members) => forallb (member_fits streamingEvent_fields) members
  | Valid _ => false
  end.

(** ** Collaborators for the examples *)

(** A handler that accepts every message, and one that refuses every one. *)
Definition accepting_handler : EventHandler unit := fun h _ => (h, Ok None).
Definition refusing_handler : EventHandler unit :=
  fun h _ => (h, Ok (Some (External "handler failed"))).

(** A handler that panics on every message, and a logger that panics on
    every error. *)
Definition panicking_handler : EventHandler unit :=
  fun h _ => (h, Panicked (PanicValue "handler panicked")).
Definition panicking_logger (e : error) : result unit :=
  Panicked (PanicValue "logger panicked").

(** A store whose [GetOffsets] fails. *)
Definition unreadable_store : offsetStore unit :=
  {| SetOffset st _ _ := (st, Ok None);
     GetOffsets st := (st, Ok (None, Some (External "store unavailable"))) |}.

(** A backend that answers every command with the integer [r] and the
    error [err]. *)
Definition fixed_reply (r : Z) (err : option error) : redisConn unit :=
  fun c _ _ => (c, (r, err)).

Definition sample_config : Config :=
  {| Endpoint := "wss://eventbus.example/sub";
     AuthToken := "token";
     Stream := "orders";
     Client := "worker";
     Version := "1" |}.

(** A value for [OffsetOldest] in the examples. *)
Definition sample_OffsetOldest : Z := -2.

(** A fresh client with an in-memory store, a handler that accepts and a
    limited scheduler. *)
Definition sample_eventbus
  : @Eventbus limitedReconnectionScheduler InMemoryOffsetStore unit :=
  NewEventbus sample_OffsetOldest sample_config tt NewInMemoryOffsetStore
    (NewLimitedScheduler 3 Second).

(** The same client over the store that cannot be read. *)
Definition sample_eventbus_unreadable
  : @Eventbus limitedReconnectionScheduler unit unit :=
  NewEventbus sample_OffsetOldest sample_config tt tt (NewLimitedScheduler 3 Second).

(** The same client with a scheduler that never signals exhaustion. *)
Definition sample_eventbus_constant
  : @Eventbus constantReconnectionScheduler InMemoryOffsetStore unit :=
  NewEventbus sample_OffsetOldest sample_config tt NewInMemoryOffsetStore
    {| c_duration := Second |}.

(** The frames of a session: trigger, acknowledgment, one message. *)
Definition sample_trigger : frame :=
  Valid (JObject [("id"%string, JString "abc"); ("status"%string, JString "ok")]).

Definition sample_message_frame : frame :=
  Valid (JObject [("offset"%string, JNumber (Integral 5));
                  ("partition"%string, JNumber (Integral 0));
                  ("body"%string, JString "x")]).

Definition sample_message : Message :=
  {| Offset := 5; Partition := 0; Body := Some (JString "x") |}.

(** A network on which the first Dial succeeds, every later Dial is refused
    and every read fails. *)
Definition dial_once (n : nat) : option error :=
  match n with
  | O => None
  | S _ => Some (External "connection refused")
  end.

Definition read_fails (n : nat) : error + frame := inl (External "unexpected EOF").

(** A session: the trigger, the acknowledgment, one message, then the
    connection breaks. *)
Definition read_session (n : nat) : error + frame :=
  match n with
  | 0%nat => inr sample_trigger
  | 1%nat => inr (Valid (JObject [("id"%string, JString "abc");
                                   ("status"%string, JString "ok");
                                   ("stream"%string, JString "orders")]))
  | 2%nat => inr sample_message_frame
  | _ => inl (External "unexpected EOF")
  end.

Definition write_ok (n : nat) : option error := None.

(** A plain quoted string: the text between two double quotes. *)
Definition quoted (s : string) : string :=
  String dquote (s +:+ String dquote EmptyString).

(** ** strconv.ParseInt, and reading the offsets back from Redis *)

(** The integer a decimal numeral denotes: an optional sign, then at least
    one digit and nothing but digits. *)
Definition decimal_value (s : string) : option Z :=
  let unsigned (digits : string) := Z.of_uint <$> NilZero.uint_of_string digits in
  match s with
  | EmptyString => None
  | String c r =>
      if Ascii.eqb c "+" then unsigned r
      else if Ascii.eqb c "-" then Z.opp <$> unsigned r
      else unsigned s
  end.

(** The [*strconv.NumError] of [ParseInt], for bad syntax and for a value out
    of range alike. *)
Definition NumError : error := External "strconv.ParseInt: parsing failed".

(** [strconv.ParseInt(s, 10, bitSize)]. *)
Definition ParseInt (s : string) (bitSize : Z) : error + Z :=
  match decimal_value s with
  | None => inl NumError
  | Some z =>
      if (- 2 ^ (bitSize - 1) <=? z) && (z <? 2 ^ (bitSize - 1)) then inr z
      else inl NumError
  end.

(** A reply of Redis as redigo hands it over: an integer is an [int64], a
    bulk string a [[]byte], a missing value [nil], a simple string a
    [string], an error a [redis.Error], an array a [[]interface{}]. *)
#[local] Unset Elimination Schemes.
Inductive reply : Type :=
| RInteger (z : Z)
| RBulk (s : string)
| RNil
| RStatus (s : string)
| RError (msg : string)
| RArray (elements : list reply).
#[local] Set Elimination Schemes.

Definition ErrNil : error := External "redigo: nil returned".
Definition ErrUnexpectedType : error := External "redigo: unexpected type".

(** [redis.Values(reply, err)]. *)
Definition redis_Values (r : reply) (err : option error) : error + list reply :=
  match err with
  | Some e => inl e
  | None =>
      match r with
      | RArray elements => inr elements
      | RNil => inl ErrNil
      | RError msg => inl (External msg)
      | _ => inl ErrUnexpectedType
      end
  end.

(** [redis.Int64(reply, nil)]. *)
Definition redis_Int64 (r : reply) : error + Z :=
  match r with
  | RInteger z => inr z
  | RBulk s => ParseInt s 64
  | RNil => inl ErrNil
  | RError msg => inl (External msg)
  | _ => inl ErrUnexpectedType
  end.

(** The two errors that [redisToPartitionOffsets] makes itself. *)
Definition ErrOddValues : error :=
  External "redisToPartitionOffsets expects even number of values result".
Definition ErrUnparsable : error := External "unable to parse partition offsets".

(** The loop of [redisToPartitionOffsets] over a list of even length: field,
    value, field, value, ...; a later pair overwrites an earlier one for the
    same partition. *)
Fixpoint parse_pairs (values : list reply) (m : PartitionOffsets)
  : error + PartitionOffsets :=
  match values with
  | k :: v :: rest =>
      match k with
      | RBulk field =>
          match redis_Int64 v with
          | inl e => inl e
          | inr value =>
              match ParseInt field 32 with
              | inl e => inl e
              | inr partition => parse_pairs rest (<[int32 partition := value]> m)
              end
          end
      | _ => inl ErrUnparsable
      end
  | _ => inr m
  end.

Definition redisToPartitionOffsets (result : reply) (err : option error)
  : option PartitionOffsets * option error :=
  match redis_Values result err with
  | inl e => (None, Some e)
  | inr values =>
      if (length values =? 0)%nat then (None, None)
      else if negb (length values mod 2 =? 0)%nat then (None, Some ErrOddValues)
      else
        match parse_pairs values ∅ with
        | inl e => (None, Some e)
        | inr m => (Some m, None)
        end
  end.

(** A connection as [GetOffsets] uses it: the reply and the error of
    [c.Do(cmd, args...)]. *)
Class redisDo (C : Type) : Type :=
  Do : C -> string -> list redis_arg -> C * (reply * option error).

Definition getOffsetsCmd {C} (rs : RedisOffsetStore C) : string * list redis_arg :=
  ("HGETALL"%string, [ArgString (key rs)]).

(** [RedisOffsetStore.GetOffsets]. *)
Definition Redis_GetOffsets {C} `{redisDo C} (rs : RedisOffsetStore C)
  : RedisOffsetStore C * (option PartitionOffsets * option error) :=
  let '(cmd, args) := getOffsetsCmd rs in
  let '(c, (r, err)) := Do (pool rs) cmd args in
  ({| prefix := prefix rs; pool := c |}, redisToPartitionOffsets r err).

(** What HGETALL replies for a hash with the given fields: each partition
    and its offset as the decimal strings that HSET got. *)
Definition hash_reply (entries : list (Z * Z)) : reply :=
  RArray (flat_map (fun e => [RBulk (FormatInt e.1); RBulk (FormatInt e.2)]) entries).

(** ** Notions for the properties of stores and of the loop *)

(** A snapshot as its Go type has it: partitions in int32, offsets in int64. *)
Definition well_typed (po : PartitionOffsets) : Prop :=
  map_Forall (fun k v => in_int32 k /\ in_int64 v) po.

(** The [map[string]string] that [MarshalJSON] fills and marshals. *)
Definition offsets_as_strings (po : PartitionOffsets) : gmap string string :=
  map_fold (fun k v data => <[Itoa (int k) := Itoa (int v)]> data) ∅ po.

(** A run of writes to the in-memory store. *)
Definition set_offsets (writes : list (Z * Z)) (os : InMemoryOffsetStore)
  : InMemoryOffsetStore :=
  foldl (fun os e => (SetOffset os e.1 e.2).1) os writes.

(** The sockets open at the end of a trace: a successful Dial opens one, a
    Close closes one. *)
Fixpoint open_sockets (dial : nat -> option error) (tr : list event) : Z :=
  match tr with
  | [] => 0
  | EvDial n :: r =>
      (match dial n with None => 1 | Some _ => 0 end) + open_sockets dial r
  | EvClose :: r => open_sockets dial r - 1
  | _ :: r => open_sockets dial r
  end.

(** Whether a frame has been sent since the last Dial of a trace that began
    in the condition [b]. *)
Definition sent_since_dial (b : bool) (tr : list event) : bool :=
  foldl (fun b e => match e with
                    | EvDial _ => false
                    | EvSend _ => true
                    | _ => b
                    end) b tr.

(** Whether every call of the handler in a trace comes after a frame sent
    on the connection of that moment. *)
Fixpoint handled_after_send (b : bool) (tr : list event) : bool :=
  match tr with
  | [] => true
  | EvHandle _ :: r => b && handled_after_send b r
  | EvDial _ :: r => handled_after_send false r
  | EvSend _ :: r => handled_after_send true r
  | _ :: r => handled_after_send b r
  end.

(** A backend that answers every command with the reply [r] and no error. *)
Definition fixed_values (r : reply) : redisDo unit := fun c _ _ => (c, (r, None)).

(** The sequence base, 2*base, 4*base, ... of [n] backoffs. *)
Definition doublings (base : Duration) (n : nat) : list Duration :=
  (fun i : nat => base * 2 ^ Z.of_nat i) <$> seq 0 n.

Section Settle.

Context {Sched Store Hand : Type}.

(** How a turn of the loop ends once the state has handled the frame: on an
    error the socket is dropped, and the loop goes on in both cases; on a
    panic [Run] stops. *)
Definition settle (r : @Eventbus Sched Store Hand * world * result (option error))
  : @Eventbus Sched Store Hand * world * option termination :=
  match r with
  | (eb, w, Panicked p) => (eb, finish eb w, Some (Recovered p))
  | (eb, w, Ok (Some err)) => drop_socket err eb w
  | (eb, w, Ok None) => (eb, w, None)
  end.

Variable dial : nat -> option error.

(** What the trace says of a client: as many sockets are open as the client
    holds (one or none), the handler has been called after a frame sent on
    the connection of the moment only, and a client that holds a socket is
    in the connecting state or has sent the handshake on it. *)
Definition sound (eb : @Eventbus Sched Store Hand) (w : world) : Prop :=
  live eb /\
  open_sockets dial (trace w) = match socket eb with Some _ => 1 | None => 0 end /\
  handled_after_send false (trace w) = true /\
  (is_Some (socket eb) ->
   state eb = Some connecting \/ sent_since_dial false (trace w) = true).

(** What the trace says at the end of a turn.  While the loop goes on the
    client is sound.  When [Run] has stopped every socket opened has been
    closed, and the client still names a socket only after a recovered
    panic: the deferred function closes the socket and leaves the field. *)
Definition sound_outcome (r : @Eventbus Sched Store Hand * world * option termination)
  : Prop :=
  match r with
  | (eb, w, None) => sound eb w
  | (eb, w, Some t) =>
      open_sockets dial (trace w) = 0 /\
      handled_after_send false (trace w) = true /\
      (is_Some (socket eb) -> exists p, t = Recovered p)
  end.

End Settle.

(** A limited exponential scheduler with nothing in its sequence, as
    [NewScheduler] builds it for baseDelay > maxDelay. *)
Definition sample_eventbus_empty_sequence
  : @Eventbus limitedExponentialReconnectionScheduler InMemoryOffsetStore unit :=
  NewEventbus sample_OffsetOldest sample_config tt NewInMemoryOffsetStore
    {| le_attempts := 0; le_backoffs := [] |}.

(** A store whose [GetOffsets] returns a map that holds nothing. *)
Definition empty_map_store : offsetStore unit :=
  {| SetOffset st _ _ := (st, Ok None);
     GetOffsets st := (st, Ok (Some ∅, None)) |}.

(** A network on which every Dial succeeds, the first read fails and every
    later read brings the trigger. *)
Definition dial_ok (n : nat) : option error := None.

Definition read_after_drop (n : nat) : error + frame :=
  match n with
  | O => inl (External "unexpected EOF")
  | S _ => inr sample_trigger
  end.

(** The sample client in the middle of a stream, on the socket of Dial 0. *)
Definition sample_eventbus_streaming
  : @Eventbus constantReconnectionScheduler InMemoryOffsetStore unit :=
  set_socket (Some 0%nat) (setState streaming sample_eventbus_constant).

(** A reply to HGETALL of three values, and a field that is no int32. *)
Definition odd_reply : reply := RArray [RBulk "0"; RBulk "100"; RBulk "1"].
Definition wide_field_reply : reply := RArray [RBulk "2147483648"; RBulk "7"].

(** * Properties *)

(** ** Machine integers *)

Lemma wrap_id (w z : Z) :
  0 < w -> - 2 ^ (w - 1) <= z < 2 ^ (w - 1) -> wrap w z = z.
Proof.
  intros Hw Hz. unfold wrap.
  assert (Hp : 2 ^ w = 2 * 2 ^ (w - 1)).
  { rewrite <- Z.pow_succ_r by lia. f_equal. lia. }
  rewrite Z.mod_small by lia. lia.
Qed.

Lemma wrap_add_l (w a b : Z) :
  0 < w -> wrap w (wrap w a + b) = wrap w (a + b).
Proof.
  intros Hw. unfold wrap. f_equal.
  replace ((a + 2 ^ (w - 1)) mod 2 ^ w - 2 ^ (w - 1) + b + 2 ^ (w - 1))
    with ((a + 2 ^ (w - 1)) mod 2 ^ w + b) by lia.
  rewrite Zplus_mod_idemp_l. f_equal. lia.
Qed.

Lemma int32_id z : in_int32 z -> int32 z = z.
Proof. unfold in_int32, MinInt32, MaxInt32. intros. apply wrap_id; simpl; lia. Qed.

Lemma int64_id z : in_int64 z -> int64 z = z.
Proof. unfold in_int64, MinInt64, MaxInt64. intros. apply wrap_id; simpl; lia. Qed.

Lemma int_id z : in_int64 z -> int z = z.
Proof. apply int64_id. Qed.

Lemma index_in_range {A} (l : list A) (i : Z) :
  0 <= i < Z.of_nat (length l) -> exists a, index l i = Ok a /\ l !! Z.to_nat i = Some a.
Proof.
  intros Hi. unfold index.
  destruct (Z.leb_spec 0 i); [|lia]. destruct (Z.ltb_spec i (Z.of_nat (length l))); [|lia].
  simpl. destruct (l !! Z.to_nat i) as [a|] eqn:E; [eauto|].
  apply lookup_ge_None in E. lia.
Qed.

Lemma index_out_of_range {A} (l : list A) (i : Z) :
  i < 0 \/ Z.of_nat (length l) <= i ->
  index l i = Panicked (IndexOutOfRange i (Z.of_nat (length l))).
Proof.
  intros Hi. unfold index.
  destruct (Z.leb_spec 0 i); destruct (Z.ltb_spec i (Z.of_nat (length l)));
    simpl; try reflexivity; lia.
Qed.

(** ** The limited scheduler *)

Lemma limited_after_calls (k : N) (s : limitedReconnectionScheduler) :
  after_calls k s =
  {| l_attempts := (if (k =? 0)%N then l_attempts s else int32 (l_attempts s - Z.of_N k));
     l_delay := l_delay s |}.
Proof.
  unfold after_calls. induction k as [|k IH] using N.peano_ind.
  - simpl. destruct s; reflexivity.
  - rewrite N.iter_succ, IH.
    destruct (N.eqb_spec (N.succ k) 0) as [E|_]; [lia|].
    unfold NextReconnectBackoff, limited_scheduler. cbn [l_attempts l_delay].
    assert (E : int32 ((if (k =? 0)%N then l_attempts s
                        else int32 (l_attempts s - Z.of_N k)) - 1)
                = int32 (l_attempts s - Z.of_N (N.succ k))).
    { destruct (N.eqb_spec k 0) as [->|_].
      - f_equal.
      - unfold int32. replace (wrap 32 (l_attempts s - Z.of_N k) - 1)
          with (wrap 32 (l_attempts s - Z.of_N k) + -1) by lia.
        rewrite wrap_add_l by lia. f_equal. lia. }
    rewrite E. destruct (0 <=? _); reflexivity.
Qed.

Lemma limited_nth_call (k : N) (n : Z) (d : Duration) :
  (1 <= k)%N ->
  nth_call k (NewLimitedScheduler n d) =
  Ok (d, if 0 <=? int32 (n - Z.of_N k) then None else Some ErrReconnectsExhausted).
Proof.
  intros Hk. unfold nth_call. rewrite limited_after_calls.
  unfold NextReconnectBackoff, limited_scheduler, NewLimitedScheduler.
  cbn [l_attempts l_delay].
  assert (E : int32 ((if (k - 1 =? 0)%N then n else int32 (n - Z.of_N (k - 1))) - 1)
              = int32 (n - Z.of_N k)).
  { destruct (N.eqb_spec (k - 1) 0) as [E0|_].
    - f_equal. lia.
    - unfold int32. replace (wrap 32 (n - Z.of_N (k - 1)) - 1)
        with (wrap 32 (n - Z.of_N (k - 1)) + -1) by lia.
      rewrite wrap_add_l by lia. f_equal. lia. }
  rewrite E. destruct (0 <=? _); reflexivity.
Qed.

(** C5, as amended.  A limited scheduler built with [n] attempts and delay
    [d] returns [(d, nil)] at each of its first [n] calls and
    [(d, ErrReconnectsExhausted)] at the calls [n+1] to [n+2^31], the range
    over which its int32 counter decreases without wrapping. *)
Theorem limited_scheduler_calls (n : Z) (d : Duration) (k : N) :
  in_int32 n -> (1 <= k)%N ->
  (Z.of_N k <= n -> nth_call k (NewLimitedScheduler n d) = Ok (d, None)) /\
  (n < Z.of_N k <= n + 2 ^ 31 ->
   nth_call k (NewLimitedScheduler n d) = Ok (d, Some ErrReconnectsExhausted)).
Proof.
  intros Hn Hk. unfold in_int32, MinInt32, MaxInt32 in Hn.
  rewrite limited_nth_call by assumption. split; intros H.
  - rewrite int32_id by (unfold in_int32, MinInt32, MaxInt32; lia).
    destruct (Z.leb_spec 0 (n - Z.of_N k)); [reflexivity|lia].
  - rewrite int32_id by (unfold in_int32, MinInt32, MaxInt32; lia).
    destruct (Z.leb_spec 0 (n - Z.of_N k)); [lia|reflexivity].
Qed.

Lemma limited_scheduler_calls_witness :
  in_int32 3 /\ (1 <= 4)%N /\
  nth_call 4 (NewLimitedScheduler 3 (2 * Second))
  = Ok (2 * Second, Some ErrReconnectsExhausted).
Proof.
  split; [unfold in_int32, MinInt32, MaxInt32; lia|]. split; [lia|].
  apply (limited_scheduler_calls 3 (2 * Second) 4);
    [unfold in_int32, MinInt32, MaxInt32; lia | lia | lia].
Defined.

(** C5, as stated, fails: with 3 attempts and a delay of 2s, call number
    2^31 + 4 comes after the third and returns [(2s, nil)], not exhaustion:
    the counter has wrapped from the least int32 to the greatest. *)
Lemma limited_scheduler_wraps :
  (3 < 2147483652)%N /\
  nth_call 2147483652 (NewLimitedScheduler 3 (2 * Second)) = Ok (2 * Second, None).
Proof.
  split; [lia|]. rewrite limited_nth_call by lia. vm_compute. reflexivity.
Qed.

(** ** The limited exponential scheduler *)

Lemma limited_exponential_fst (s : limitedExponentialReconnectionScheduler) :
  fst (NextReconnectBackoff s) =
  {| le_attempts := int (le_attempts s + 1); le_backoffs := le_backoffs s |}.
Proof.
  unfold NextReconnectBackoff, limited_exponential_scheduler.
  destruct (_ <? _); destruct (index _ _); reflexivity.
Qed.

Lemma limited_exponential_after_calls (k : N) (s : limitedExponentialReconnectionScheduler) :
  after_calls k s =
  {| le_attempts := (if (k =? 0)%N then le_attempts s else int (le_attempts s + Z.of_N k));
     le_backoffs := le_backoffs s |}.
Proof.
  unfold after_calls. induction k as [|k IH] using N.peano_ind.
  - simpl. destruct s; reflexivity.
  - rewrite N.iter_succ, IH, limited_exponential_fst. cbn [le_attempts le_backoffs].
    destruct (N.eqb_spec (N.succ k) 0) as [E|_]; [lia|]. f_equal.
    destruct (N.eqb_spec k 0) as [->|_].
    + f_equal.
    + unfold int. rewrite wrap_add_l by lia. f_equal. lia.
Qed.

Lemma limited_exponential_nth_call (k : N) (l : list Duration) :
  (1 <= k)%N ->
  nth_call k {| le_attempts := 0; le_backoffs := l |} =
  let attempts := int (Z.of_N k) in
  let len := Z.of_nat (length l) in
  if len <? attempts then
    match index l (int (len - 1)) with
    | Ok d => Ok (d, Some ErrReconnectsExhausted)
    | Panicked p => Panicked p
    end
  else
    match index l (int (attempts - 1)) with
    | Ok d => Ok (d, None)
    | Panicked p => Panicked p
    end.
Proof.
  intros Hk. unfold nth_call. rewrite limited_exponential_after_calls.
  unfold NextReconnectBackoff, limited_exponential_scheduler.
  cbn [le_attempts le_backoffs].
  assert (E : int ((if (k - 1 =? 0)%N then 0 else int (0 + Z.of_N (k - 1))) + 1)
              = int (Z.of_N k)).
  { destruct (N.eqb_spec (k - 1) 0) as [E0|_].
    - f_equal. lia.
    - unfold int. rewrite wrap_add_l by lia. f_equal. lia. }
  rewrite E. cbv zeta.
  destruct (_ <? _); destruct (index _ _); reflexivity.
Qed.

(** C4.  With base 1s and max 8s [NewScheduler] returns (five turns of its
    loop) the sequence [1s, 2s, 4s, 8s]; calls 1 to 4 return these values
    with a nil error, and every call from the 5th on returns 8s with
    [ErrReconnectsExhausted].  The calls are those the int counter of the
    scheduler can count, which only [NextReconnectBackoff] moves: all calls
    below 2^63. *)
Theorem limited_exponential_1s_8s :
  (forall fuel, (5 <= fuel)%nat ->
     NewLimitedExponentialScheduler fuel Second (8 * Second) = Some scheduler_1s_8s) /\
  nth_call 1 scheduler_1s_8s = Ok (Second, None) /\
  nth_call 2 scheduler_1s_8s = Ok (2 * Second, None) /\
  nth_call 3 scheduler_1s_8s = Ok (4 * Second, None) /\
  nth_call 4 scheduler_1s_8s = Ok (8 * Second, None) /\
  (forall k : N, (5 <= k < 2 ^ 63)%N ->
     nth_call k scheduler_1s_8s = Ok (8 * Second, Some ErrReconnectsExhausted)).
Proof.
  split.
  { intros fuel Hf. do 5 (destruct fuel as [|fuel]; [lia|]).
    vm_compute. reflexivity. }
  do 4 (split; [vm_compute; reflexivity|]).
  intros k Hk. unfold scheduler_1s_8s.
  rewrite limited_exponential_nth_call by lia. cbv zeta.
  assert (Hp : (2 ^ 63)%N = 9223372036854775808%N) by reflexivity.
  rewrite int_id by (unfold in_int64, MinInt64, MaxInt64; lia).
  cbn [length]. destruct (Z.ltb_spec (Z.of_nat 4) (Z.of_N k)); [|lia].
  vm_compute. reflexivity.
Qed.

Lemma limited_exponential_1s_8s_witness :
  NewLimitedExponentialScheduler 7 Second (8 * Second) = Some scheduler_1s_8s /\
  nth_call 6 scheduler_1s_8s = Ok (8 * Second, Some ErrReconnectsExhausted).
Proof.
  destruct limited_exponential_1s_8s as (Hnew & _ & _ & _ & _ & Hlate).
  split; [apply Hnew; lia | apply Hlate; lia].
Defined.

Lemma backoffs_loop_prefix (max : Duration) (fuel : nat) :
  forall (b : Duration) (acc l : list Duration),
    backoffs_loop fuel b max acc = Some l ->
    exists l', l = acc ++ l' /\ (b <= max -> l' <> []).
Proof.
  induction fuel as [|fuel IH]; intros b acc l H; simpl in H; [discriminate|].
  destruct (Z.leb_spec b max) as [Hb|Hb].
  - apply IH in H as (l' & -> & _). exists (b :: l').
    rewrite <- app_assoc. split; [reflexivity|]. intros _; discriminate.
  - injection H as <-. exists []. rewrite app_nil_r. split; [reflexivity|lia].
Qed.

Lemma backoffs_loop_returns (max : Duration) (n : nat) :
  forall (fuel : nat) (b : Duration) (acc : list Duration),
    (n < fuel)%nat -> 0 < b -> max < 2 ^ 62 -> max < b * 2 ^ Z.of_nat n ->
    exists l, backoffs_loop fuel b max acc = Some (acc ++ l) /\
              (length l <= n)%nat /\ (b <= max -> l <> []).
Proof.
  induction n as [|n IH]; intros fuel b acc Hf Hb Hmax Hn;
    (destruct fuel as [|fuel]; [lia|]); simpl backoffs_loop.
  - destruct (Z.leb_spec b max) as [Hle|Hgt]; [simpl in Hn; lia|].
    exists []. rewrite app_nil_r. repeat split; [simpl; lia|lia].
  - destruct (Z.leb_spec b max) as [Hle|Hgt].
    + rewrite int64_id by (unfold in_int64, MinInt64, MaxInt64; lia).
      destruct (IH fuel (b * 2) (acc ++ [b])) as (l & Hl & Hlen & _); [lia|lia|lia| |].
      { rewrite Nat2Z.inj_succ, Z.pow_succ_r in Hn by lia. lia. }
      exists (b :: l). rewrite Hl, <- app_assoc. repeat split; [simpl; lia|].
      intros _; discriminate.
    + exists []. rewrite app_nil_r. repeat split; [simpl; lia|lia].
Qed.

Lemma backoffs_loop_zero (fuel : nat) :
  forall acc, backoffs_loop fuel 0 0 acc = None.
Proof.
  induction fuel as [|fuel IH]; intros acc; [reflexivity|].
  simpl backoffs_loop. change (int64 (0 * 2)) with 0. apply IH.
Qed.

(** C10, as amended.  For a policy with 0 < baseDelay <= maxDelay < 2^62
    (doubling then passes maxDelay without leaving int64) [NewScheduler]
    returns, within 63 turns of its loop, a scheduler whose sequence is not
    empty, and every call up to call 2^63 - 1 indexes inside the sequence.
    baseDelay <= maxDelay is needed: with baseDelay > maxDelay the sequence
    is empty and the first call indexes position -1, a run-time panic. *)
Theorem limited_exponential_in_bounds :
  (forall (base max : Duration) (fuel : nat),
     0 < base -> base <= max -> max < 2 ^ 62 -> (63 <= fuel)%nat ->
     exists s, NewLimitedExponentialScheduler fuel base max = Some s /\
               le_attempts s = 0 /\ le_backoffs s <> [] /\
               forall k : N, (1 <= k < 2 ^ 63)%N ->
                 exists d e, nth_call k s = Ok (d, e)) /\
  (forall (base max : Duration) (fuel : nat),
     max < base -> (1 <= fuel)%nat ->
     NewLimitedExponentialScheduler fuel base max
       = Some {| le_attempts := 0; le_backoffs := [] |} /\
     nth_call 1 {| le_attempts := 0; le_backoffs := [] |}
       = Panicked (IndexOutOfRange (-1) 0)).
Proof.
  split.
  - intros base max fuel Hb Hle Hmax Hf.
    destruct (backoffs_loop_returns max 62 fuel base []) as (l & Hl & Hlen & Hne);
      [lia|lia|lia| |].
    { change (2 ^ Z.of_nat 62) with (2 ^ 62). nia. }
    unfold NewLimitedExponentialScheduler. rewrite Hl. simpl app.
    eexists; split; [reflexivity|]. cbn [le_attempts le_backoffs].
    split; [reflexivity|]. split; [auto|].
    intros k Hk. rewrite limited_exponential_nth_call by lia. cbv zeta.
    assert (Hp : (2 ^ 63)%N = 9223372036854775808%N) by reflexivity.
    assert (Hlen1 : (1 <= length l)%nat).
    { destruct l; [exfalso; apply Hne; [lia|reflexivity]|simpl; lia]. }
    rewrite int_id by (unfold in_int64, MinInt64, MaxInt64; lia).
    destruct (Z.ltb_spec (Z.of_nat (length l)) (Z.of_N k)) as [Hlt|Hge].
    + rewrite int_id by (unfold in_int64, MinInt64, MaxInt64; lia).
      destruct (index_in_range l (Z.of_nat (length l) - 1)) as (d & -> & _); [lia|].
      eauto.
    + rewrite int_id by (unfold in_int64, MinInt64, MaxInt64; lia).
      destruct (index_in_range l (Z.of_N k - 1)) as (d & -> & _); [lia|].
      eauto.
  - intros base max fuel Hlt Hf. split.
    + destruct fuel as [|fuel]; [lia|]. unfold NewLimitedExponentialScheduler.
      simpl backoffs_loop. destruct (Z.leb_spec base max); [lia|reflexivity].
    + vm_compute. reflexivity.
Qed.

Lemma limited_exponential_in_bounds_witness :
  (exists s, NewLimitedExponentialScheduler 63 Second (8 * Second) = Some s /\
             le_attempts s = 0 /\ le_backoffs s <> [] /\
             forall k : N, (1 <= k < 2 ^ 63)%N -> exists d e, nth_call k s = Ok (d, e)) /\
  NewLimitedExponentialScheduler 1 (8 * Second) Second
    = Some {| le_attempts := 0; le_backoffs := [] |}.
Proof.
  destruct limited_exponential_in_bounds as [Hsuff Hnec]. split.
  - apply (Hsuff Second (8 * Second) 63%nat); unfold Second; lia.
  - apply (Hnec (8 * Second) Second 1%nat); unfold Second; lia.
Defined.

(** C10, as stated, fails twice.  baseDelay = maxDelay = 0 meets baseDelay
    <= maxDelay, yet [NewScheduler] builds no scheduler at all: its loop
    doubles 0 for ever.  And on the scheduler built for baseDelay = maxDelay
    = 1s, call number 2^63 finds the int counter wrapped and indexes out of
    the sequence. *)
Lemma limited_exponential_zero_base_loops :
  (0 : Duration) <= 0 /\
  (forall fuel, NewLimitedExponentialScheduler fuel 0 0 = None) /\
  NewLimitedExponentialScheduler 2 Second Second
    = Some {| le_attempts := 0; le_backoffs := [Second] |} /\
  nth_call 9223372036854775808 {| le_attempts := 0; le_backoffs := [Second] |}
    = Panicked (IndexOutOfRange 9223372036854775807 1).
Proof.
  split; [lia|]. split; [|split].
  - intros fuel. unfold NewLimitedExponentialScheduler.
    rewrite backoffs_loop_zero. reflexivity.
  - vm_compute. reflexivity.
  - rewrite limited_exponential_nth_call by lia. vm_compute. reflexivity.
Qed.

(** ** The exponential scheduler *)

Section ExponentialProperties.

Variable float_overflow : Z.

#[local] Existing Instance exponential_scheduler.

Lemma exponential_first_34_calls (n : nat) :
  (1 <= n <= 34)%nat ->
  nth_call (H := exponential_scheduler float_overflow) (N.of_nat n) default_scheduler
  = Ok (Z.min (Second * 2 ^ (Z.of_nat n - 1)) (32 * Second), None).
Proof.
  intros Hn. destruct n as [|n]; [lia|].
  do 34 (destruct n as [|n]; [vm_compute; reflexivity|]). lia.
Qed.

Lemma wrap_range (w z : Z) :
  0 < w -> - 2 ^ (w - 1) <= wrap w z < 2 ^ (w - 1).
Proof.
  intros Hw. unfold wrap.
  assert (Hp : 2 ^ w = 2 * 2 ^ (w - 1)).
  { rewrite <- Z.pow_succ_r by lia. f_equal. lia. }
  pose proof (Z.mod_pos_bound (z + 2 ^ (w - 1)) (2 ^ w)) as Hm. lia.
Qed.

(** The float64 of an int64 is not below the least int64. *)
Lemma float64_of_int_lower (z : Z) :
  MinInt64 <= z -> MinInt64 <= float64_of_int z.
Proof.
  unfold MinInt64, float64_of_int. intros Hz. cbv zeta.
  destruct (Z.ltb_spec (Z.abs z) (2 ^ 53)) as [Hs|Hb]; [lia|].
  set (a := Z.abs z) in *. set (L := Z.log2 a).
  assert (Ha : 0 < a) by lia.
  destruct (Z.log2_spec a Ha) as [Hlo Hhi]. fold L in Hlo, Hhi.
  assert (HL53 : 53 <= L).
  { unfold L. rewrite <- (Z.log2_pow2 53) by lia. apply Z.log2_le_mono. lia. }
  set (e := L - 52). set (q := a / 2 ^ e). set (r := a mod 2 ^ e).
  assert (He : 0 < 2 ^ e) by (apply Z.pow_pos_nonneg; lia).
  assert (Hdiv : a = 2 ^ e * q + r) by (apply Z.div_mod; lia).
  assert (Hr : 0 <= r < 2 ^ e) by (apply Z.mod_pos_bound; lia).
  assert (Hq0 : 0 <= q) by (apply Z.div_pos; lia).
  assert (Hpow : 2 ^ Z.succ L = 2 ^ 53 * 2 ^ e).
  { rewrite <- Z.pow_add_r by lia. f_equal. lia. }
  assert (Hq : q < 2 ^ 53) by nia.
  set (q' := if r <? 2 ^ (e - 1) then q
             else if 2 ^ (e - 1) <? r then q + 1
             else if Z.even q then q else q + 1).
  assert (Hq' : q <= q' <= q + 1).
  { unfold q'. destruct (r <? _); [lia|]. destruct (_ <? r); [lia|].
    destruct (Z.even q); lia. }
  destruct (Z.sgn_spec z) as [[Hpos ->]|[[Hzero _]|[Hneg ->]]]; [nia|lia|].
  assert (HaZ : a = - z) by lia.
  destruct (Z.le_gt_cases L 62) as [HL|HL].
  - assert (Hle : 2 ^ Z.succ L <= 2 ^ 63) by (apply Z.pow_le_mono_r; lia).
    nia.
  - assert (HL63 : L = 63).
    { assert (L <= 63); [|lia]. unfold L. rewrite <- (Z.log2_pow2 63) by lia.
      apply Z.log2_le_mono. lia. }
    assert (Ha63 : a = 2 ^ 63) by (rewrite HL63 in Hlo; lia).
    assert (He11 : e = 11) by lia.
    assert (Hq'q : q' = q).
    { unfold q', r, q. rewrite He11, Ha63. reflexivity. }
    rewrite Hq'q. nia.
Qed.

Lemma exponential_after_calls (k : N) (s : exponentialReconnectionScheduler) :
  e_baseDelay (after_calls (H := exponential_scheduler float_overflow) k s) = e_baseDelay s /\
  e_maxDelay (after_calls (H := exponential_scheduler float_overflow) k s) = e_maxDelay s.
Proof.
  unfold after_calls. induction k as [|k IH] using N.peano_ind; [split; reflexivity|].
  rewrite N.iter_succ. exact IH.
Qed.

(** Whatever the attempt counter holds, a call of the exponential scheduler
    returns a nil error and a duration of at most maxDelay, for a maxDelay
    that a float64 holds exactly. *)
Lemma exponential_bounded (s : exponentialReconnectionScheduler) :
  - 2 ^ 53 < e_maxDelay s < 2 ^ 53 ->
  exists d, (NextReconnectBackoff (ReconnectionScheduler := exponential_scheduler float_overflow) s).2
            = Ok (d, None) /\
            d <= e_maxDelay s.
Proof.
  intros Hmax. unfold NextReconnectBackoff, exponential_scheduler. cbn [snd].
  eexists; split; [reflexivity|].
  pose proof (wrap_range 64 (pow2_duration float_overflow (int32 (int32 (e_attempts s + 1) - 1))
                             * e_baseDelay s) ltac:(lia)) as Hw.
  change (2 ^ (64 - 1)) with (2 ^ 63) in Hw.
  pose proof (float64_of_int_lower (calculateDelay float_overflow (e_baseDelay s)
                                      (int32 (e_attempts s + 1)))) as Hlow.
  unfold calculateDelay, int64 in Hlow |- *. unfold MinInt64 in Hlow.
  specialize (Hlow ltac:(lia)).
  assert (Hfm : float64_of_int (e_maxDelay s) = e_maxDelay s).
  { unfold float64_of_int. destruct (Z.ltb_spec (Z.abs (e_maxDelay s)) (2 ^ 53)); lia. }
  rewrite Hfm. unfold int64_of_float, MinInt64, MaxInt64.
  destruct (Z.leb_spec (- 2 ^ 63) (Z.min (float64_of_int
      (wrap 64 (pow2_duration float_overflow (int32 (int32 (e_attempts s + 1) - 1))
                * e_baseDelay s))) (e_maxDelay s))); [|lia].
  destruct (Z.leb_spec (Z.min (float64_of_int
      (wrap 64 (pow2_duration float_overflow (int32 (int32 (e_attempts s + 1) - 1))
                * e_baseDelay s))) (e_maxDelay s)) (2 ^ 63 - 1)); cbn [andb]; lia.
Qed.

(** Every call of the default scheduler returns a nil error and a duration
    of at most 32s. *)
Lemma exponential_default_bounded (k : N) :
  exists d, nth_call (H := exponential_scheduler float_overflow) k default_scheduler
            = Ok (d, None) /\
            d <= 32 * Second.
Proof.
  unfold nth_call.
  destruct (exponential_after_calls (k - 1) default_scheduler) as [_ Hmax].
  destruct (exponential_bounded
              (after_calls (H := exponential_scheduler float_overflow) (k - 1)
                 default_scheduler)) as (d & Hd & Hle).
  { rewrite Hmax. vm_compute. split; reflexivity. }
  exists d. split; [exact Hd|]. rewrite Hmax in Hle. exact Hle.
Qed.

(** C6 at its failing input.  With base 1s and max 32s the calls 1 to 34
    return min(1s * 2^(k-1), 32s) with a nil error: 1s, 2s, 4s, 8s, 16s, 32s,
    then 32s.  At call 35 the product 2^34 * 1s no longer fits an int64: it
    wraps to a negative duration, which is what the call returns, where the
    claim has 32s.  What stands at every call is that the error is nil and
    the duration at most 32s. *)
Theorem exponential_call_35_overflows :
  (forall k : N, (1 <= k <= 34)%N ->
     nth_call (H := exponential_scheduler float_overflow) k default_scheduler
     = Ok (Z.min (Second * 2 ^ (Z.of_N k - 1)) (32 * Second), None)) /\
  nth_call (H := exponential_scheduler float_overflow) 35 default_scheduler
  = Ok (-1266874889709551616, None) /\
  -1266874889709551616 <> Z.min (Second * 2 ^ (35 - 1)) (32 * Second) /\
  (forall k : N,
     exists d, nth_call (H := exponential_scheduler float_overflow) k default_scheduler
               = Ok (d, None) /\
               d <= 32 * Second).
Proof.
  split; [|split; [|split]].
  - intros k Hk. rewrite <- (N2Nat.id k), nat_N_Z.
    apply exponential_first_34_calls. lia.
  - vm_compute. reflexivity.
  - vm_compute. discriminate.
  - apply exponential_default_bounded.
Qed.

End ExponentialProperties.

(** ** The streaming state *)

Section StreamingProperties.

Context {Sched Store Hand : Type}.
Context {scheduler : ReconnectionScheduler Sched}.
Context {offset_store : offsetStore Store}.
Context {event_handler : EventHandler Hand}.
Variable write : nat -> option error.

#[local] Abbreviation Eventbus := (@Eventbus Sched Store Hand).

(** C1.  In the streaming state, for a frame that parses to the message [m],
    the handler is called on [m], and [store.SetOffset(m.Partition,
    m.Offset)] is called if and only if the handler returned nil: then it is
    the one call made to the store.  When the handler returns an error no
    call to [SetOffset] is made and [handleEvent] returns an error; when the
    handler panics no call to [SetOffset] is made either, and the panic
    leaves [handleEvent]. *)
Theorem streaming_checkpoint_iff_handled (eb : Eventbus) (w : world)
    (body : frame) (m : Message) :
  Unmarshal Message_fields body {| Offset := 0; Partition := 0; Body := None |}
    = (m, None) ->
  exists new,
    trace (streaming_handleEvent eb w body).1.2 = trace w ++ EvHandle m :: new /\
    ((Handle (eventHandler eb) m).2 = Ok None <->
     EvSetOffset (Partition m) (Offset m) ∈ new) /\
    ((Handle (eventHandler eb) m).2 = Ok None ->
     new = [EvSetOffset (Partition m) (Offset m)] /\
     store (streaming_handleEvent eb w body).1.1
       = (SetOffset (store eb) (Partition m) (Offset m)).1) /\
    (forall e, (Handle (eventHandler eb) m).2 = Ok (Some e) ->
       new = [] /\
       store (streaming_handleEvent eb w body).1.1 = store eb /\
       (streaming_handleEvent eb w body).2
         = Ok (Some (Wrap e "handling event in streaming.handleEvent"))) /\
    (forall p, (Handle (eventHandler eb) m).2 = Panicked p ->
       new = [] /\
       store (streaming_handleEvent eb w body).1.1 = store eb /\
       (streaming_handleEvent eb w body).2 = Panicked p).
Proof.
  intros Hm. unfold streaming_handleEvent. rewrite Hm.
  destruct (Handle (eventHandler eb) m) as [h [[e|]|p]] eqn:Hh; cbn [fst snd].
  - exists []. cbn [record trace fst snd store set_eventHandler].
    split; [reflexivity|]. split; [|split; [|split]].
    + split; [discriminate|]. intros Hin. inversion Hin.
    + discriminate.
    + intros e' [= <-]. auto.
    + discriminate.
  - cbn [store set_eventHandler].
    destruct (SetOffset (store eb) (Partition m) (Offset m)) as [st r] eqn:Hs.
    exists [EvSetOffset (Partition m) (Offset m)].
    destruct r as [[e|]|p]; cbn [record trace fst snd store set_store];
      rewrite <- ?app_assoc; (split; [reflexivity|]); (split; [|split; [|split]]);
      try discriminate; try (intros _; split; reflexivity).
    all: split; [intros _; apply list_elem_of_singleton; reflexivity|reflexivity].
  - exists []. cbn [record trace fst snd store set_eventHandler].
    split; [reflexivity|]. split; [|split; [|split]].
    + split; [discriminate|]. intros Hin. inversion Hin.
    + discriminate.
    + discriminate.
    + intros p' [= <-]. auto.
Qed.

End StreamingProperties.

(** After a write to the in-memory store, [GetOffsets] reports the offset
    written for the partition. *)
Lemma in_memory_reports_offset (os : InMemoryOffsetStore) (partition offset : Z) :
  (SetOffset os partition offset).2 = Ok None /\
  exists po, (GetOffsets (SetOffset os partition offset).1).2 = Ok (Some po, None) /\
             po !! partition = Some offset.
Proof.
  split; [reflexivity|]. cbn.
  destruct (Nat.eqb_spec (size (<[partition := offset]> (offsets os))) 0) as [E|_].
  - apply map_size_empty_iff in E.
    apply (f_equal (fun m : PartitionOffsets => m !! partition)) in E.
    rewrite lookup_insert_eq, lookup_empty in E. discriminate.
  - eexists; split; [reflexivity|]. apply lookup_insert_eq.
Qed.

(** ** The Redis store *)

(** C8.  [RedisOffsetStore.SetOffset] sends [HSET <prefix>:offsets partition
    offset] and returns nil if and only if the reply reads as the integer 0
    or 1 and comes with no error; every other reply, and every error of the
    backend, gives an error. *)
Theorem redis_SetOffset_success {C} `{redisConn C} (rs : RedisOffsetStore C)
    (partition offset : Z) :
  let reply := (DoInt (pool rs) "HSET"
                  [ArgString (prefix rs +:+ ":offsets");
                   ArgInt32 partition; ArgInt64 offset]).2 in
  ((Redis_SetOffset rs partition offset).2 = None <->
   (reply.1 = 0 \/ reply.1 = 1) /\ reply.2 = None) /\
  (reply.1 <> 0 /\ reply.1 <> 1 ->
   (Redis_SetOffset rs partition offset).2 = Some ErrFailedToStoreOffset) /\
  (forall e, reply.2 = Some e -> (Redis_SetOffset rs partition offset).2 <> None).
Proof.
  unfold Redis_SetOffset, storeOffsetCmd, key. cbv zeta.
  destruct (DoInt (pool rs) _ _) as [c [r err]]. cbn [fst snd].
  destruct (Z.eqb_spec r 1) as [->|H1]; [|destruct (Z.eqb_spec r 0) as [->|H0]];
    cbn [orb negb snd].
  - split; [|split]; [split; [auto|tauto] |lia|]. intros e ->. discriminate.
  - split; [|split]; [split; [auto|tauto] |lia|]. intros e ->. discriminate.
  - split; [|split]; [split; [discriminate|]|reflexivity|discriminate].
    intros [[?|?] _]; contradiction.
Qed.

Lemma redis_SetOffset_success_witness :
  (1 : Z) <> 0 /\ (2 : Z) <> 1 /\
  (Redis_SetOffset (H := fixed_reply 2 None) (NewRedisOffsetStore "app" tt) 0 5).2
  = Some ErrFailedToStoreOffset.
Proof.
  split; [lia|]. split; [lia|].
  apply (redis_SetOffset_success (H := fixed_reply 2 None)
           (NewRedisOffsetStore "app" tt) 0 5).
  cbn. lia.
Defined.

(** ** The ready state *)

Lemma decode_members_error {T} (fields : list (field T)) :
  (forall f v t, f ∈ fields ->
     (exists t', f_store f v t = inr t') <-> string_or_null v = true) ->
  forall members t saved,
    (decode_members fields members t saved).2 = None <->
    saved = None /\ forallb (member_fits fields) members = true.
Proof.
  intros Hf. induction members as [|[k v] ms IH]; intros t saved; simpl.
  - tauto.
  - unfold member_fits at 1. cbn [fst snd].
    destruct (find_field fields k) as [f|] eqn:Ef.
    + assert (Hin : f ∈ fields).
      { unfold find_field in Ef.
        destruct (find _ fields) as [f'|] eqn:E1.
        - injection Ef as <-. apply find_some in E1 as [E1 _].
          apply list_elem_of_In, E1.
        - apply find_some in Ef as [Ef _]. apply list_elem_of_In, Ef. }
      specialize (Hf f v t Hin).
      destruct (f_store f v t) as [e|t'] eqn:Es.
      * rewrite IH. destruct (string_or_null v).
        { destruct Hf as [_ Hf]. destruct (Hf eq_refl) as [? ?]. discriminate. }
        destruct saved; simpl; split; intros [? ?]; discriminate.
      * rewrite IH. destruct (string_or_null v); [simpl; tauto|].
        destruct Hf as [Hf _]. discriminate Hf. eauto.
    + rewrite IH. simpl. tauto.
Qed.

Lemma streamingEvent_fields_strings (f : field streamingEvent) v t :
  f ∈ streamingEvent_fields ->
  (exists t', f_store f v t = inr t') <-> string_or_null v = true.
Proof.
  unfold streamingEvent_fields. intros Hin.
  apply list_elem_of_In in Hin. simpl in Hin.
  destruct Hin as [<-|[<-|[<-|[]]]];
    destruct v as [|b|n|s|l|ms]; cbn; split;
    solve [ discriminate | reflexivity | intros _; eauto
          | intros [? ?]; discriminate ].
Qed.

Lemma Unmarshal_streamingEvent_error (body : frame) (t : streamingEvent) :
  (Unmarshal streamingEvent_fields body t).2 = None <-> fits_streamingEvent body = true.
Proof.
  destruct body as [|v]; [simpl; split; discriminate|].
  destruct v as [|b|n|s|l|ms]; simpl; try (split; discriminate); [tauto|].
  rewrite (decode_members_error _ (fun f v t => streamingEvent_fields_strings f v t)).
  tauto.
Qed.

Section ReadyProperties.

Context {Sched Store Hand : Type}.

#[local] Abbreviation Eventbus := (@Eventbus Sched Store Hand).

(** C9, as amended.  In the ready state [handleEvent] returns an error if
    and only if [json.Unmarshal] fails on the body: the body is not JSON, or
    it is JSON but not an object and not [null], or one of [id], [status],
    [stream] in it is neither a string nor [null].  For every other body,
    [{}] among them, it sends nothing, sets the state to streaming and
    returns nil, whatever the values in the frame. *)
Theorem ready_handleEvent_error (eb : Eventbus) (w : world) (body : frame) :
  ((ready_handleEvent eb w body).2 = None <-> fits_streamingEvent body = true) /\
  (fits_streamingEvent body = true ->
   ready_handleEvent eb w body = (setState streaming eb, w, None)) /\
  (fits_streamingEvent body = false ->
   exists e, ready_handleEvent eb w body
             = (eb, w, Some (Wrap e "unmarshalling body in ready.handleEvent"))) /\
  fits_streamingEvent (Valid (JObject [])) = true.
Proof.
  pose proof (Unmarshal_streamingEvent_error body
    {| se_ID := EmptyString; se_Status := EmptyString; se_Stream := EmptyString |}) as HU.
  unfold ready_handleEvent.
  destruct (Unmarshal streamingEvent_fields body _) as [sm [e|]]; cbn [snd] in HU |- *.
  - assert (Hfit : fits_streamingEvent body = false).
    { destruct (fits_streamingEvent body); [|reflexivity].
      destruct HU as [_ HU]. discriminate (HU eq_refl). }
    rewrite Hfit. repeat split; try discriminate; eauto.
  - destruct HU as [HU _]. rewrite (HU eq_refl).
    repeat split; try discriminate; auto.
Qed.

End ReadyProperties.

Lemma ready_handleEvent_error_witness :
  fits_streamingEvent (Valid (JObject [("id"%string, JString "abc")])) = true /\
  ready_handleEvent sample_eventbus world0
    (Valid (JObject [("id"%string, JString "abc")]))
  = (setState streaming sample_eventbus, world0, None).
Proof.
  split; [reflexivity|].
  apply (ready_handleEvent_error sample_eventbus world0
           (Valid (JObject [("id"%string, JString "abc")]))).
  reflexivity.
Defined.

(** C9, as stated, fails: the bodies [[]] and [{"id":1}] are JSON, yet in
    the ready state [handleEvent] returns an error on each and leaves the
    state as it was. *)
Lemma ready_rejects_valid_json :
  ready_handleEvent sample_eventbus world0 (Valid (JArray []))
  = (sample_eventbus, world0,
     Some (Wrap (UnmarshalTypeError "array" EmptyString)
                "unmarshalling body in ready.handleEvent")) /\
  ready_handleEvent sample_eventbus world0
    (Valid (JObject [("id"%string, JNumber (Integral 1))]))
  = (sample_eventbus, world0,
     Some (Wrap (UnmarshalTypeError "number" "id")
                "unmarshalling body in ready.handleEvent")).
Proof. split; reflexivity. Qed.

(** ** Text *)

Lemma decode_encode_sextet (s : sextet) : decode_sextet (encode_sextet s) = Some s.
Proof. destruct s as [[[[[[] []] []] []] []] []]; reflexivity. Qed.

Lemma encode_sextet_not_pad (s : sextet) : Ascii.eqb (encode_sextet s) "=" = false.
Proof. destruct s as [[[[[[] []] []] []] []] []]; reflexivity. Qed.

Lemma DecodeString_EncodeToString_bounded (n : nat) :
  forall s : string, (String.length s <= n)%nat -> DecodeString (EncodeToString s) = Some s.
Proof.
  induction n as [|n IH]; intros s Hn.
  - destruct s; [reflexivity|simpl in Hn; lia].
  - destruct s as [|[a0 a1 a2 a3 a4 a5 a6 a7] s]; [reflexivity|].
    destruct s as [|[b0 b1 b2 b3 b4 b5 b6 b7] s].
    { cbn [EncodeToString DecodeString].
      rewrite !decode_encode_sextet. reflexivity. }
    destruct s as [|[c0 c1 c2 c3 c4 c5 c6 c7] s].
    { cbn [EncodeToString DecodeString].
      rewrite !decode_encode_sextet, encode_sextet_not_pad. reflexivity. }
    cbn [EncodeToString DecodeString].
    rewrite !decode_encode_sextet, !encode_sextet_not_pad.
    rewrite IH by (simpl in Hn; lia). reflexivity.
Qed.

(** Decoding undoes the base64 encoding. *)
Lemma DecodeString_EncodeToString (s : string) :
  DecodeString (EncodeToString s) = Some s.
Proof. apply (DecodeString_EncodeToString_bounded (String.length s)). lia. Qed.

Lemma escape_uint (d : Decimal.uint) :
  escape (NilEmpty.string_of_uint d) = NilEmpty.string_of_uint d.
Proof. induction d; simpl; [reflexivity|..]; rewrite IHd; reflexivity. Qed.

(** A decimal numeral holds nothing that the JSON encoder escapes. *)
Lemma quote_FormatInt (z : Z) : quote (FormatInt z) = quoted (FormatInt z).
Proof.
  unfold quote, quoted. do 2 f_equal. unfold FormatInt, NilZero.string_of_int.
  assert (Hu : forall d, escape (NilZero.string_of_uint d) = NilZero.string_of_uint d).
  { intros d. unfold NilZero.string_of_uint.
    destruct d; try reflexivity; apply escape_uint. }
  destruct (Z.to_int z) as [d|d]; [apply Hu|].
  change (escape (String "-" (NilZero.string_of_uint d)))
    with (String "-" (escape (NilZero.string_of_uint d))).
  rewrite Hu. reflexivity.
Qed.

Lemma append_assoc (a b c : string) : (a +:+ b) +:+ c = a +:+ b +:+ c.
Proof.
  induction a as [|x a IH]; [reflexivity|].
  change (String x ((a +:+ b) +:+ c) = String x (a +:+ b +:+ c)).
  f_equal. exact IH.
Qed.

Lemma Marshal_singleton (k v : string) :
  Marshal {[ k := v ]} = "{" +:+ quote k +:+ ":" +:+ quote v +:+ "}".
Proof.
  unfold Marshal. rewrite map_to_list_singleton.
  transitivity ("{" +:+ (quote k +:+ ":" +:+ quote v) +:+ "}"); [reflexivity|].
  rewrite !append_assoc. reflexivity.
Qed.

Lemma encodeStarting_text (position : Z) :
  encodeStarting position
  = EncodeToString ("{" +:+ quoted "d" +:+ ":" +:+ quoted (FormatInt position) +:+ "}").
Proof.
  unfold encodeStarting. rewrite Marshal_singleton, quote_FormatInt. reflexivity.
Qed.

Lemma encodeOffsets_text (po : PartitionOffsets) :
  encodeOffsets po
  = EncodeToString ("{" +:+ quoted "p" +:+ ":" +:+ PartitionOffsets_MarshalJSON po +:+ "}").
Proof.
  unfold encodeOffsets. f_equal.
Qed.

(** ** The handshake *)

Section HandshakeProperties.

Context {Sched Store Hand : Type}.
Context {offset_store : offsetStore Store}.
Variable write : nat -> option error.

#[local] Abbreviation Eventbus := (@Eventbus Sched Store Hand).

(** What [createHandshake] returns when [GetOffsets] returns. *)
Lemma createHandshake_returns (eb : Eventbus) (w : world) (serverID : string)
    (offs : option PartitionOffsets) (err : option error) :
  (GetOffsets (store eb)).2 = Ok (offs, err) ->
  exists handshake,
    createHandshake eb w serverID
      = (set_store (GetOffsets (store eb)).1 eb, record EvGetOffsets w, Ok handshake) /\
    handshake !! "id"%string = Some serverID /\
    handshake !! "authentication"%string = Some (AuthToken (config eb)) /\
    handshake !! "stream"%string = Some (Stream (config eb)) /\
    handshake !! "client"%string = Some (Client (config eb)) /\
    handshake !! "version"%string = Some (Version (config eb)) /\
    handshake !! "state"%string =
      match err, offs with
      | Some _, _ => None
      | None, None => Some (encodeStarting (startingOffset eb))
      | None, Some po => Some (encodeOffsets po)
      end.
Proof.
  intros Hget. unfold createHandshake.
  destruct (GetOffsets (store eb)) as [st r]. cbn [fst snd] in Hget |- *. subst r.
  destruct err as [e|]; [|destruct offs as [po|]];
    eexists; (split; [reflexivity|]); repeat split; simplify_map_eq; reflexivity.
Qed.

(** A panic of [GetOffsets] leaves [createHandshake]. *)
Lemma createHandshake_panics (eb : Eventbus) (w : world) (serverID : string) (p : panic) :
  (GetOffsets (store eb)).2 = Panicked p ->
  createHandshake eb w serverID
    = (set_store (GetOffsets (store eb)).1 eb, record EvGetOffsets w, Panicked p).
Proof.
  intros Hget. unfold createHandshake.
  destruct (GetOffsets (store eb)) as [st r]. cbn [fst snd] in Hget |- *. subst r.
  reflexivity.
Qed.

(** C2, as amended.  For a handshake trigger received in the connecting
    state, when [GetOffsets] returns, the response the client sends is the
    JSON object of a map that holds the five keys id, authentication,
    stream, client and version.  When [GetOffsets] returns no error the map
    holds state as well, and state decodes from base64 to the text of a [p]
    object (the offsets read) or of a [d] object (the starting offset, when
    there are none).  When [GetOffsets] returns an error the map holds no
    state.  When [GetOffsets] panics no response is sent. *)
Theorem handshake_response_keys (eb : Eventbus) (w : world) (body : frame)
    (sh : serverHandshake) :
  Unmarshal serverHandshake_fields body {| sh_ID := EmptyString; sh_Status := EmptyString |}
    = (sh, None) ->
  (forall offs err, (GetOffsets (store eb)).2 = Ok (offs, err) ->
     exists handshake,
       (createHandshake eb w (sh_ID sh)).2 = Ok handshake /\
       trace (connecting_handleEvent write eb w body).1.2
         = trace w ++ [EvGetOffsets; EvSend (Marshal handshake)] /\
       handshake !! "id"%string = Some (sh_ID sh) /\
       handshake !! "authentication"%string = Some (AuthToken (config eb)) /\
       handshake !! "stream"%string = Some (Stream (config eb)) /\
       handshake !! "client"%string = Some (Client (config eb)) /\
       handshake !! "version"%string = Some (Version (config eb)) /\
       (err = None ->
        exists st text,
          handshake !! "state"%string = Some st /\ DecodeString st = Some text /\
          (offs = None /\
           text = "{" +:+ quoted "d" +:+ ":" +:+ quoted (FormatInt (startingOffset eb)) +:+ "}"
           \/
           exists po, offs = Some po /\
           text = "{" +:+ quoted "p" +:+ ":" +:+ PartitionOffsets_MarshalJSON po +:+ "}")) /\
       (err <> None -> handshake !! "state"%string = None)) /\
  (forall p, (GetOffsets (store eb)).2 = Panicked p ->
     (connecting_handleEvent write eb w body).2 = Panicked p /\
     trace (connecting_handleEvent write eb w body).1.2 = trace w ++ [EvGetOffsets]).
Proof.
  intros Hsh. split.
  - intros offs err Hget.
    destruct (createHandshake_returns eb w (sh_ID sh) offs err Hget)
      as (handshake & Hcreate & Hid & Hau & Hst & Hcl & Hve & Hstate).
    exists handshake. split; [rewrite Hcreate; reflexivity|]. split.
    { unfold connecting_handleEvent. rewrite Hsh, Hcreate.
      unfold sendBytes; cbn [record trace writes].
      destruct (write (writes w)); cbn [fst snd trace];
        rewrite <- ?app_assoc; reflexivity. }
    do 5 (split; [assumption|]). split.
    + intros ->. destruct offs as [po|].
      * exists (encodeOffsets po), ("{" +:+ quoted "p" +:+ ":" +:+
                                     PartitionOffsets_MarshalJSON po +:+ "}").
        split; [assumption|].
        split; [rewrite encodeOffsets_text; apply DecodeString_EncodeToString|].
        right. eauto.
      * exists (encodeStarting (startingOffset eb)),
          ("{" +:+ quoted "d" +:+ ":" +:+ quoted (FormatInt (startingOffset eb)) +:+ "}").
        split; [assumption|].
        split; [rewrite encodeStarting_text; apply DecodeString_EncodeToString|].
        left. auto.
    + intros Herr. destruct err as [e|]; [assumption|contradiction].
  - intros p Hget. unfold connecting_handleEvent.
    rewrite Hsh, (createHandshake_panics eb w (sh_ID sh) p Hget).
    split; reflexivity.
Qed.

End HandshakeProperties.

Lemma handshake_response_keys_witness :
  Unmarshal serverHandshake_fields sample_trigger
    {| sh_ID := EmptyString; sh_Status := EmptyString |}
    = ({| sh_ID := "abc"; sh_Status := "ok" |}, None) /\
  (GetOffsets (store sample_eventbus)).2 = Ok (None, None) /\
  exists handshake,
    (createHandshake sample_eventbus world0 "abc").2 = Ok handshake /\
    handshake !! "id"%string = Some "abc"%string.
Proof.
  assert (Hget : (GetOffsets (store sample_eventbus)).2 = Ok (None, None))
    by reflexivity.
  split; [reflexivity|]. split; [exact Hget|].
  destruct (proj1 (handshake_response_keys write_ok sample_eventbus world0 sample_trigger
                     {| sh_ID := "abc"; sh_Status := "ok" |} eq_refl)
              None None Hget) as (handshake & Hcreate & _ & Hid & _).
  exists handshake. split; assumption.
Defined.

(** C2, as stated, fails: over a store whose [GetOffsets] returns an error,
    the handshake built for the trigger with id abc has no state key; the
    response goes out with five keys and the client moves on to the ready
    state. *)
Lemma handshake_without_state :
  (GetOffsets (offsetStore := unreadable_store) (store sample_eventbus_unreadable)).2
    = Ok (None, Some (External "store unavailable")) /\
  (exists handshake,
     (createHandshake (offset_store := unreadable_store)
        sample_eventbus_unreadable world0 "abc").2 = Ok handshake /\
     handshake !! "state"%string = None) /\
  connecting_handleEvent (offset_store := unreadable_store) write_ok
    sample_eventbus_unreadable world0 sample_trigger
  = (setState ready sample_eventbus_unreadable,
     {| dials := 0; reads := 0; writes := 1;
        trace := [EvGetOffsets;
                  EvSend ("{" +:+ quoted "authentication" +:+ ":" +:+ quoted "token" +:+ ","
                          +:+ quoted "client" +:+ ":" +:+ quoted "worker" +:+ ","
                          +:+ quoted "id" +:+ ":" +:+ quoted "abc" +:+ ","
                          +:+ quoted "stream" +:+ ":" +:+ quoted "orders" +:+ ","
                          +:+ quoted "version" +:+ ":" +:+ quoted "1" +:+ "}")] |},
     Ok None).
Proof.
  split; [reflexivity|]. split.
  - eexists. split; [reflexivity|]. vm_compute. reflexivity.
  - vm_compute. reflexivity.
Qed.

Section StartingPosition.

Context {Sched Store Hand : Type}.
Context {offset_store : offsetStore Store}.
Variable OffsetOldest : Z.

#[local] Abbreviation Eventbus := (@Eventbus Sched Store Hand).

(** C7.  A client made by [NewEventbus] starts at [OffsetOldest].  When
    [GetOffsets] returns nil (what the in-memory store does while it is
    empty) and the client starts at oldest, the state of the handshake is
    the base64 text of the object with the one key d and [OffsetOldest] as
    a decimal string.  When [GetOffsets] returns the map 0 -> 100, 1 -> 200
    (what the in-memory store holds after these two offsets are set), the
    state is the base64 text of the object with the key p over the object
    of the decimal strings 0: 100 and 1: 200. *)
Theorem handshake_state_encoding :
  (forall cfg h st sched,
     startingOffset (@NewEventbus Sched Store Hand OffsetOldest cfg h st sched)
     = OffsetOldest) /\
  (forall (eb : Eventbus) (w : world) (serverID : string),
     (GetOffsets (store eb)).2 = Ok (None, None) ->
     startingOffset eb = OffsetOldest ->
     exists handshake,
       (createHandshake eb w serverID).2 = Ok handshake /\
       handshake !! "state"%string
       = Some (EncodeToString
                 ("{" +:+ quoted "d" +:+ ":" +:+ quoted (FormatInt OffsetOldest) +:+ "}"))) /\
  (forall (eb : Eventbus) (w : world) (serverID : string),
     (GetOffsets (store eb)).2 = Ok (Some (<[0 := 100]> {[ 1 := 200 ]}), None) ->
     exists handshake,
       (createHandshake eb w serverID).2 = Ok handshake /\
       handshake !! "state"%string
       = Some (EncodeToString
                 ("{" +:+ quoted "p" +:+ ":{" +:+ quoted "0" +:+ ":" +:+ quoted "100" +:+ ","
                  +:+ quoted "1" +:+ ":" +:+ quoted "200" +:+ "}}")) /\
       handshake !! "state"%string
       = Some "eyJwIjp7IjAiOiIxMDAiLCIxIjoiMjAwIn19"%string) /\
  (GetOffsets NewInMemoryOffsetStore).2 = Ok (None, None) /\
  (GetOffsets (SetOffset (SetOffset NewInMemoryOffsetStore 0 100).1 1 200).1).2
  = Ok (Some (<[0 := 100]> {[ 1 := 200 ]}), None).
Proof.
  split; [reflexivity|]. split; [|split; [|split]].
  - intros eb w serverID Hget Hstart.
    destruct (createHandshake_returns eb w serverID _ _ Hget)
      as (handshake & Hcreate & _ & _ & _ & _ & _ & Hstate).
    exists handshake. split; [rewrite Hcreate; reflexivity|].
    rewrite Hstate, Hstart, encodeStarting_text. reflexivity.
  - intros eb w serverID Hget.
    destruct (createHandshake_returns eb w serverID _ _ Hget)
      as (handshake & Hcreate & _ & _ & _ & _ & _ & Hstate).
    exists handshake. split; [rewrite Hcreate; reflexivity|].
    rewrite Hstate. split; f_equal; vm_compute; reflexivity.
  - reflexivity.
  - vm_compute. reflexivity.
Qed.

End StartingPosition.

Lemma handshake_state_encoding_witness :
  (GetOffsets (store sample_eventbus)).2 = Ok (None, None) /\
  startingOffset sample_eventbus = sample_OffsetOldest /\
  exists handshake,
    (createHandshake sample_eventbus world0 "abc").2 = Ok handshake /\
    handshake !! "state"%string
    = Some (EncodeToString
              ("{" +:+ quoted "d" +:+ ":" +:+ quoted (FormatInt sample_OffsetOldest) +:+ "}")).
Proof.
  split; [reflexivity|]. split; [reflexivity|].
  apply (handshake_state_encoding sample_OffsetOldest); reflexivity.
Defined.

Lemma streaming_checkpoint_iff_handled_witness :
  Unmarshal Message_fields sample_message_frame
    {| Offset := 0; Partition := 0; Body := None |} = (sample_message, None) /\
  exists new,
    trace (streaming_handleEvent (event_handler := accepting_handler)
             sample_eventbus world0 sample_message_frame).1.2
      = trace world0 ++ EvHandle sample_message :: new /\
    ((Handle (EventHandler := accepting_handler)
        (eventHandler sample_eventbus) sample_message).2 = Ok None <->
     EvSetOffset (Partition sample_message) (Offset sample_message) ∈ new).
Proof.
  split; [reflexivity|].
  destruct (streaming_checkpoint_iff_handled (event_handler := accepting_handler)
              sample_eventbus world0 sample_message_frame sample_message eq_refl)
    as (new & Htrace & Hiff & _).
  exists new. split; assumption.
Defined.

(** ** The connection loop *)

Section RunProperties.

Context {Sched Store Hand : Type}.
Context {scheduler : ReconnectionScheduler Sched}.
Context {offset_store : offsetStore Store}.
Context {event_handler : EventHandler Hand}.
Variable dial : nat -> option error.
Variable read : nat -> error + frame.
Variable write : nat -> option error.

#[local] Abbreviation Eventbus := (@Eventbus Sched Store Hand).

Lemma handleEvent_state (s : eventbusState) (eb : Eventbus) (w : world) (body : frame) :
  is_Some (state eb) -> is_Some (state (handleEvent write s eb w body).1.1).
Proof.
  intros Hs. destruct s; cbn [handleEvent].
  - unfold connecting_handleEvent.
    destruct (Unmarshal serverHandshake_fields body _) as [sh [e|]]; [exact Hs|].
    unfold createHandshake.
    destruct (GetOffsets (store eb)) as [st [[[po|] [e|]]|p]];
      try destruct (sendBytes write _ _) as [w1 [e1|]]; cbn; eauto.
  - unfold ready_handleEvent.
    destruct (Unmarshal streamingEvent_fields body _) as [sm [e|]]; cbn; eauto.
  - unfold streaming_handleEvent.
    destruct (Unmarshal Message_fields body _) as [m [e|]]; [exact Hs|].
    destruct (Handle (eventHandler eb) m) as [h [[e|]|p]]; try exact Hs.
    cbn [store set_eventHandler].
    destruct (SetOffset (store eb) (Partition m) (Offset m)) as [st [[e|]|p]]; exact Hs.
Qed.

(** The state panics only when the store or the handler does. *)
Lemma handleEvent_panics (s : eventbusState) (eb : Eventbus) (w : world) (body : frame)
    (p : panic) :
  (handleEvent write s eb w body).2 = Panicked p ->
  (s = connecting /\
   (exists sh, Unmarshal serverHandshake_fields body
                 {| sh_ID := EmptyString; sh_Status := EmptyString |} = (sh, None)) /\
   (GetOffsets (store eb)).2 = Panicked p) \/
  (s = streaming /\
   exists m, Unmarshal Message_fields body {| Offset := 0; Partition := 0; Body := None |}
             = (m, None) /\
     ((Handle (eventHandler eb) m).2 = Panicked p \/
      (Handle (eventHandler eb) m).2 = Ok None /\
      (SetOffset (store eb) (Partition m) (Offset m)).2 = Panicked p)).
Proof.
  destruct s; cbn [handleEvent].
  - unfold connecting_handleEvent.
    destruct (Unmarshal serverHandshake_fields body _) as [sh [e|]]; [discriminate|].
    unfold createHandshake.
    destruct (GetOffsets (store eb)) as [st [[[po|] [e|]]|q]];
      try destruct (sendBytes write _ _) as [w1 [e1|]]; cbn [fst snd];
      try discriminate.
    intros [= <-]. left. eauto.
  - unfold ready_handleEvent.
    destruct (Unmarshal streamingEvent_fields body _) as [sm [e|]]; discriminate.
  - unfold streaming_handleEvent.
    destruct (Unmarshal Message_fields body _) as [m [e|]]; [discriminate|].
    destruct (Handle (eventHandler eb) m) as [h [[e|]|q]] eqn:Hh; cbn [fst snd];
      try discriminate.
    + cbn [store set_eventHandler].
      destruct (SetOffset (store eb) (Partition m) (Offset m)) as [st [[e|]|q]] eqn:Hs;
        cbn [fst snd]; try discriminate.
      intros [= <-]. right. split; [reflexivity|]. exists m.
      rewrite Hh, Hs. auto.
    + intros [= <-]. right. split; [reflexivity|]. exists m. rewrite Hh. auto.
Qed.

(** With a state to dispatch to, reading and handling a frame ends the loop
    only on a panic of a collaborator. *)
Lemma read_and_handle_outcome (eb : Eventbus) (w : world) :
  is_Some (state eb) ->
  ((read_and_handle read write eb w).2 = None ->
   live (read_and_handle read write eb w).1.1) /\
  (forall t, (read_and_handle read write eb w).2 = Some t ->
     panics_at_read read write eb w t).
Proof.
  intros [s Hs]. unfold read_and_handle, panics_at_read. rewrite Hs.
  destruct (read (reads w)) as [err|msg].
  - unfold drop_socket. destruct (errorLogger eb err) as [u|p] eqn:El; cbn [fst snd].
    + split; [intros _ [? ?]; discriminate|discriminate].
    + split; [discriminate|]. intros t [= <-]. reflexivity.
  - pose proof (handleEvent_state s eb (after_read w) msg (ex_intro _ s Hs)) as Hst.
    destruct (handleEvent write s eb (after_read w) msg) as [[eb2 w2] [[e|]|p]] eqn:Eh;
      cbn [fst snd] in Hst |- *.
    + unfold drop_socket. destruct (errorLogger eb2 e) as [u|p] eqn:El; cbn [fst snd].
      * split; [intros _ [? ?]; discriminate|discriminate].
      * split; [discriminate|]. intros t [= <-].
        exists s. split; [reflexivity|]. rewrite Eh. exact El.
    + split; [intros _ _; exact Hst|discriminate].
    + split; [discriminate|]. intros t [= <-].
      exists s. split; [reflexivity|]. rewrite Eh. reflexivity.
Qed.

(** What [connect] does, by what the scheduler and the dialer return. *)
Lemma connect_outcome (eb : Eventbus) (w : world) :
  match (NextReconnectBackoff (Reconnection eb)).2 with
  | Panicked p => (connect dial eb w).2 = Some (Recovered p)
  | Ok (_, Some exit) => (connect dial eb w).2 = Some (SchedulerExit exit)
  | Ok (_, None) =>
      match dial (dials w) with
      | Some err => (connect dial eb w).2 = Some (DialFailed (dials w) err)
      | None => (connect dial eb w).2 = None /\
                is_Some (state (connect dial eb w).1.1) /\
                socket (connect dial eb w).1.1 = Some (dials w)
      end
  end.
Proof.
  unfold connect.
  destruct (NextReconnectBackoff (Reconnection (set_state (Some connecting) eb)))
    as [sched r] eqn:E.
  cbn [Reconnection set_state] in E. rewrite E. cbn [snd].
  destruct r as [[d [exit|]]|p]; try reflexivity.
  cbn [record dials]. destruct (dial (dials w)); cbn; eauto.
Qed.

Lemma connect_failure_no_socket (eb : Eventbus) (w : world) :
  socket eb = None -> is_Some (connect dial eb w).2 ->
  socket (connect dial eb w).1.1 = None.
Proof.
  intros Hsock. unfold connect.
  destruct (NextReconnectBackoff _) as [sched [[d [exit|]]|p]]; cbn; try (intros _; exact Hsock).
  destruct (dial (dials w)); cbn; [intros _; exact Hsock|intros [? ?]; discriminate].
Qed.

Lemma Run_turn_outcome (eb : Eventbus) (w : world) :
  live eb ->
  ((Run_turn dial read write eb w).2 = None -> live (Run_turn dial read write eb w).1.1) /\
  (forall t, (Run_turn dial read write eb w).2 = Some t ->
     caused_by_connect dial eb w t \/ caused_by_collaborator dial read write eb w t).
Proof.
  intros Hlive. unfold Run_turn, caused_by_collaborator, at_read.
  destruct (socket eb) as [c|] eqn:Hsock.
  - destruct (read_and_handle_outcome eb w (Hlive (ex_intro _ c Hsock))) as (Hl & Hp).
    split; [exact Hl|]. intros t Ht. right. cbn [fst snd]. rewrite Hsock. eauto.
  - pose proof (connect_outcome eb w) as Hc.
    destruct (connect dial eb w) as [[eb1 w1] [t|]] eqn:Ec; cbn [fst snd] in Hc |- *.
    + split; [discriminate|].
      intros t' Ht'. assert (t' = t) as -> by congruence. clear Ht'. left.
      split; [exact Hsock|].
      destruct (NextReconnectBackoff (Reconnection eb)) as [sched r]; cbn [snd] in Hc |- *.
      destruct r as [[d [exit|]]|p].
      { assert (t = SchedulerExit exit) as -> by congruence. eauto. }
      { destruct (dial (dials w)) as [err|] eqn:Ed; [|destruct Hc; discriminate].
        assert (t = DialFailed (dials w) err) as -> by congruence. eauto. }
      { assert (t = Recovered p) as -> by congruence. reflexivity. }
    + assert (Hst : is_Some (state eb1) /\ is_Some (socket eb1)).
      { destruct (NextReconnectBackoff (Reconnection eb)) as [sched r]; cbn [snd] in Hc.
        destruct r as [[d [exit|]]|p]; try discriminate.
        destruct (dial (dials w)); [discriminate|].
        destruct Hc as (_ & Hst & ->). eauto. }
      destruct Hst as [Hst Hso].
      destruct (read_and_handle_outcome eb1 w1 Hst) as (Hl & Hp).
      split; [exact Hl|]. intros t Ht. right. eauto.
Qed.

(** C3, as amended.  [Run] stops only when [connect] fails or a panic of a
    collaborator is recovered.  In the first case the turn it stops in began
    without a socket, and the scheduler returned an error (exhaustion) or
    panicked, or the scheduler let the attempt go and [Dial] failed, on the
    first attempt or on any later one.  In the second case the turn got to
    its read with a socket and the logger, the store or the handler
    panicked: the state panics only when [GetOffsets], [Handle] or
    [SetOffset] does.  A failed read and an error returned by the state
    never stop the loop when the logger returns: the error is logged, the
    socket is closed and dropped, and the next turn, which begins without a
    socket, goes through [connect] again.  And whenever a turn begins
    without a socket, the scheduler lets it go and [Dial] fails, the loop
    stops with that error, whatever the number of the attempt. *)
Theorem Run_stops_in_connect_or_on_panic :
  (forall (fuel : nat) (eb : Eventbus) (w : world) (t : termination),
     live eb ->
     (Run dial read write fuel eb w).2 = Some t ->
     exists (turns : nat) (eb1 : Eventbus) (w1 : world),
       (turns < fuel)%nat /\
       Run dial read write turns eb w = (eb1, w1, None) /\
       (caused_by_connect dial eb1 w1 t \/
        caused_by_collaborator dial read write eb1 w1 t)) /\
  (forall (s : eventbusState) (eb : Eventbus) (w : world) (msg : frame) (p : panic),
     (handleEvent write s eb w msg).2 = Panicked p ->
     (s = connecting /\ (GetOffsets (store eb)).2 = Panicked p) \/
     (s = streaming /\
      exists m, Unmarshal Message_fields msg {| Offset := 0; Partition := 0; Body := None |}
                = (m, None) /\
        ((Handle (eventHandler eb) m).2 = Panicked p \/
         (Handle (eventHandler eb) m).2 = Ok None /\
         (SetOffset (store eb) (Partition m) (Offset m)).2 = Panicked p))) /\
  (forall (eb : Eventbus) (w : world) (err : error),
     is_Some (socket eb) ->
     read (reads w) = inl err -> errorLogger eb err = Ok tt ->
     Run_turn dial read write eb w
     = (set_socket None eb, record EvClose (record (EvLog err) (after_read w)), None)) /\
  (forall (eb : Eventbus) (w : world) (msg : frame) (s : eventbusState)
          (eb2 : Eventbus) (w2 : world),
     is_Some (socket eb) ->
     read (reads w) = inr msg -> state eb = Some s ->
     (forall err,
        handleEvent write s eb (after_read w) msg = (eb2, w2, Ok (Some err)) ->
        errorLogger eb2 err = Ok tt ->
        Run_turn dial read write eb w
        = (set_socket None eb2, record EvClose (record (EvLog err) w2), None)) /\
     (handleEvent write s eb (after_read w) msg = (eb2, w2, Ok None) ->
      Run_turn dial read write eb w = (eb2, w2, None))) /\
  (forall (eb : Eventbus) (w : world),
     socket eb = None ->
     (forall t, (connect dial eb w).2 = Some t ->
        (Run_turn dial read write eb w).2 = Some t) /\
     ((connect dial eb w).2 = None ->
      Run_turn dial read write eb w
      = read_and_handle read write (connect dial eb w).1.1 (connect dial eb w).1.2)) /\
  (forall (eb : Eventbus) (w : world) (d : Duration) (err : error),
     socket eb = None ->
     (NextReconnectBackoff (Reconnection eb)).2 = Ok (d, None) ->
     dial (dials w) = Some err ->
     (Run_turn dial read write eb w).2 = Some (DialFailed (dials w) err)).
Proof.
  split; [|split; [|split; [|split; [|split]]]].
  - induction fuel as [|fuel IH]; intros eb w t Hlive Hrun; [discriminate|].
    cbn [Run] in Hrun.
    destruct (Run_turn_outcome eb w Hlive) as (Hl & Hcause).
    destruct (Run_turn dial read write eb w) as [[eb1 w1] [t1|]] eqn:Et;
      cbn [fst snd] in *.
    + injection Hrun as <-. exists 0%nat, eb, w.
      split; [lia|]. split; [reflexivity|]. apply Hcause. reflexivity.
    + destruct (IH eb1 w1 t (Hl eq_refl) Hrun) as (turns & eb2 & w2 & Hlt & Hr & Hc).
      exists (S turns), eb2, w2. split; [lia|]. split; [|exact Hc].
      cbn [Run]. rewrite Et. exact Hr.
  - intros s eb w msg p Hp.
    destruct (handleEvent_panics s eb w msg p Hp) as [(-> & _ & Hg)|(-> & Hm)]; auto.
  - intros eb w err [c Hc] Hread Hlog. unfold Run_turn, read_and_handle, drop_socket.
    rewrite Hc, Hread, Hlog. reflexivity.
  - intros eb w msg s eb2 w2 [c Hc] Hread Hs. split.
    + intros err Hh Hlog. unfold Run_turn, read_and_handle, drop_socket.
      rewrite Hc, Hread, Hs, Hh, Hlog. reflexivity.
    + intros Hh. unfold Run_turn, read_and_handle. rewrite Hc, Hread, Hs, Hh. reflexivity.
  - intros eb w Hsock. unfold Run_turn. rewrite Hsock.
    destruct (connect dial eb w) as [[eb1 w1] [t|]]; cbn [fst snd]; split;
      try discriminate; try reflexivity.
    intros t' [= <-]. reflexivity.
  - intros eb w d err Hsock Hsched Hdial. unfold Run_turn. rewrite Hsock.
    pose proof (connect_outcome eb w) as Hc. rewrite Hsched, Hdial in Hc.
    destruct (connect dial eb w) as [[eb1 w1] t]. cbn [snd] in Hc. subst t.
    reflexivity.
Qed.

End RunProperties.

(** C3, as stated, fails.  The scheduler is the constant one, which never
    signals exhaustion.  The first [Dial] succeeds, the first read fails (a
    disconnect in mid-stream), and the second [Dial] is refused: [Run] stops
    in its second turn with the error of that second, later, attempt. *)
Lemma Run_stops_on_later_dial_failure :
  (NextReconnectBackoff (Reconnection sample_eventbus_constant)).2 = Ok (Second, None) /\
  dial_once 0 = None /\
  Run (event_handler := accepting_handler) dial_once read_fails write_ok 1
    sample_eventbus_constant world0
  = (set_state (Some connecting) sample_eventbus_constant,
     {| dials := 1; reads := 1; writes := 0;
        trace := [EvSleep Second; EvDial 0; EvRead;
                  EvLog (External "unexpected EOF"); EvClose] |},
     None) /\
  (Run (event_handler := accepting_handler) dial_once read_fails write_ok 2
     sample_eventbus_constant world0).2
  = Some (DialFailed 1 (External "connection refused")).
Proof. repeat split. Qed.

Lemma Run_stops_in_connect_or_on_panic_witness :
  live sample_eventbus_constant /\
  (Run (event_handler := accepting_handler) dial_once read_fails write_ok 2
     sample_eventbus_constant world0).2
  = Some (DialFailed 1 (External "connection refused")) /\
  exists turns eb1 w1,
    (turns < 2)%nat /\
    Run (event_handler := accepting_handler) dial_once read_fails write_ok turns
      sample_eventbus_constant world0 = (eb1, w1, None) /\
    (caused_by_connect dial_once eb1 w1 (DialFailed 1 (External "connection refused")) \/
     caused_by_collaborator (event_handler := accepting_handler)
       dial_once read_fails write_ok eb1 w1
       (DialFailed 1 (External "connection refused"))).
Proof.
  assert (Hlive : live sample_eventbus_constant).
  { intros [c Hc]. discriminate Hc. }
  split; [exact Hlive|]. split; [reflexivity|].
  apply (proj1 (Run_stops_in_connect_or_on_panic (event_handler := accepting_handler)
                  dial_once read_fails write_ok)
           2%nat sample_eventbus_constant world0
           (DialFailed 1 (External "connection refused")));
    [exact Hlive|reflexivity].
Defined.

(** The session of the specification: the client connects, answers the
    trigger abc with a handshake whose state is the oldest directive, is
    acknowledged, handles the message at partition 0, offset 5, and the
    store then reports offset 5 for partition 0. *)
Example session_checkpoints_offset_5 :
  let '(eb, w, t) :=
    Run (event_handler := accepting_handler) dial_once read_session write_ok 3
      sample_eventbus world0 in
  t = None /\ state eb = Some streaming /\
  offsets (store eb) !! 0 = Some 5 /\
  trace w = [EvSleep Second; EvDial 0; EvRead; EvGetOffsets;
             EvSend (Marshal (<["state"%string := "eyJkIjoiLTIifQ=="%string]>
                              (<["version"%string := "1"%string]>
                              (<["client"%string := "worker"%string]>
                              (<["stream"%string := "orders"%string]>
                              (<["authentication"%string := "token"%string]>
                              ({[ "id"%string := "abc"%string ]})))))));
             EvRead; EvRead; EvHandle sample_message; EvSetOffset 0 5].
Proof. vm_compute. repeat split. Qed.

(** The same session with a handler that panics on the message: [Run]
    recovers the panic and stops, its deferred function closes the socket,
    and nothing is checkpointed. *)
Example session_handler_panics :
  let '(eb, w, t) :=
    Run (event_handler := panicking_handler) dial_once read_session write_ok 3
      sample_eventbus world0 in
  t = Some (Recovered (PanicValue "handler panicked")) /\
  socket eb = Some 0%nat /\ offsets (store eb) = ∅ /\
  exists sent,
    trace w = [EvSleep Second; EvDial 0; EvRead; EvGetOffsets; EvSend sent;
               EvRead; EvRead; EvHandle sample_message; EvClose].
Proof. vm_compute. repeat split. eexists. reflexivity. Qed.

(** * Further properties *)

(** ** Decimal numerals *)

Lemma decimal_value_uint (d : Decimal.uint) :
  d <> Decimal.Nil ->
  decimal_value (NilZero.string_of_uint d) = Some (Z.of_uint d).
Proof.
  intros Hd. pose proof (NilEmpty.usu d) as Hu.
  destruct d; [contradiction|..]; cbn [NilZero.string_of_uint NilEmpty.string_of_uint] in *;
    unfold decimal_value; cbn [Ascii.eqb Bool.eqb];
    unfold NilZero.uint_of_string; rewrite Hu; reflexivity.
Qed.

Lemma decimal_value_FormatInt (z : Z) : decimal_value (FormatInt z) = Some z.
Proof.
  unfold FormatInt. destruct z as [|p|p]; [reflexivity|..];
    cbn [Z.to_int NilZero.string_of_int].
  - rewrite decimal_value_uint by apply Unsigned.to_uint_nonnil.
    unfold Z.of_uint. rewrite Unsigned.of_to. reflexivity.
  - pose proof (decimal_value_uint (Pos.to_uint p) (Unsigned.to_uint_nonnil p)) as Hu.
    pose proof (Unsigned.to_uint_nonnil p) as Hnil.
    unfold decimal_value in Hu |- *. cbn [Ascii.eqb Bool.eqb].
    destruct (NilZero.string_of_uint (Pos.to_uint p)) as [|c r] eqn:Es.
    { destruct (Pos.to_uint p); try contradiction; discriminate Es. }
    assert (Hc : Ascii.eqb c "+" = false /\ Ascii.eqb c "-" = false).
    { destruct (Pos.to_uint p); try contradiction;
        cbn in Es; injection Es as <- _; split; reflexivity. }
    destruct Hc as [Hplus Hminus]. rewrite Hplus, Hminus in Hu.
    rewrite Hu. unfold Z.of_uint. rewrite Unsigned.of_to. reflexivity.
Qed.

(** Parsing undoes formatting, for a number that fits the size asked for. *)
Lemma ParseInt_FormatInt (z bitSize : Z) :
  - 2 ^ (bitSize - 1) <= z < 2 ^ (bitSize - 1) ->
  ParseInt (FormatInt z) bitSize = inr z.
Proof.
  intros Hz. unfold ParseInt. rewrite decimal_value_FormatInt.
  destruct (Z.leb_spec (- 2 ^ (bitSize - 1)) z); [|lia].
  destruct (Z.ltb_spec z (2 ^ (bitSize - 1))); [reflexivity|lia].
Qed.

Lemma FormatInt_inj (z z' : Z) : FormatInt z = FormatInt z' -> z = z'.
Proof.
  intros H. apply (f_equal decimal_value) in H.
  rewrite !decimal_value_FormatInt in H. congruence.
Qed.

(** What [ParseInt] returns without an error is within the size asked for. *)
Lemma ParseInt_range (s : string) (bitSize z : Z) :
  ParseInt s bitSize = inr z -> - 2 ^ (bitSize - 1) <= z < 2 ^ (bitSize - 1).
Proof.
  unfold ParseInt. destruct (decimal_value s) as [v|]; [|discriminate].
  destruct (Z.leb_spec (- 2 ^ (bitSize - 1)) v); [|discriminate].
  destruct (Z.ltb_spec v (2 ^ (bitSize - 1))); [|discriminate].
  intros [= <-]. lia.
Qed.

(** ** The in-memory store *)

Lemma insert_all_other (ws : list (Z * Z)) :
  forall (m : PartitionOffsets) (p : Z),
    p ∉ ws.*1 ->
    foldl (fun m e => <[e.1 := e.2]> m) m ws !! p = m !! p.
Proof.
  induction ws as [|e ws IH]; intros m p Hp; [reflexivity|].
  cbn [foldl]. rewrite fmap_cons, not_elem_of_cons in Hp. destruct Hp as [Hne Hp].
  rewrite IH by exact Hp. apply lookup_insert_ne. congruence.
Qed.

Lemma insert_all_last (before after : list (Z * Z)) (p o : Z) (m : PartitionOffsets) :
  p ∉ after.*1 ->
  foldl (fun m e => <[e.1 := e.2]> m) m (before ++ (p, o) :: after) !! p = Some o.
Proof.
  intros Hp. rewrite foldl_app. cbn [foldl fst snd].
  rewrite insert_all_other by exact Hp. apply lookup_insert_eq.
Qed.

Lemma set_offsets_offsets (ws : list (Z * Z)) :
  forall os : InMemoryOffsetStore,
    offsets (set_offsets ws os) = foldl (fun m e => <[e.1 := e.2]> m) (offsets os) ws.
Proof.
  unfold set_offsets. induction ws as [|e ws IH]; intros os; [reflexivity|].
  cbn [foldl]. rewrite IH. reflexivity.
Qed.

(** X1.  After any run of writes the in-memory store holds, for each
    partition written, the offset of the last write to it (a lower offset
    overwrites a higher one), and for every other partition what it held
    before.  [GetOffsets] never fails; it returns nil exactly when nothing
    has ever been written, and otherwise the map held, which is not empty. *)
Theorem in_memory_store_last_write (ws : list (Z * Z)) (os : InMemoryOffsetStore) :
  (forall before p o after,
     ws = before ++ (p, o) :: after -> p ∉ after.*1 ->
     offsets (set_offsets ws os) !! p = Some o) /\
  (forall p, p ∉ ws.*1 -> offsets (set_offsets ws os) !! p = offsets os !! p) /\
  ((GetOffsets (set_offsets ws os)).2 = Ok (None, None) <-> ws = [] /\ offsets os = ∅) /\
  (ws <> [] ->
   (GetOffsets (set_offsets ws os)).2 = Ok (Some (offsets (set_offsets ws os)), None) /\
   offsets (set_offsets ws os) <> ∅).
Proof.
  assert (Hne : ws <> [] -> offsets (set_offsets ws os) <> ∅).
  { intros Hws Hempty. destruct ws as [|e ws _] using rev_ind; [contradiction|].
    destruct e as [p o].
    pose proof (insert_all_last ws [] p o (offsets os)) as Hl.
    rewrite <- set_offsets_offsets, Hempty, lookup_empty in Hl.
    discriminate Hl. rewrite fmap_nil. apply not_elem_of_nil. }
  assert (Hget : forall st : InMemoryOffsetStore,
             (GetOffsets st).2 = if decide (offsets st = ∅) then Ok (None, None)
                                 else Ok (Some (offsets st), None)).
  { intros st. cbn. destruct (Nat.eqb_spec (size (offsets st)) 0) as [E|E];
      case_decide as Hd; try reflexivity.
    - apply map_size_empty_iff in E. contradiction.
    - rewrite Hd, map_size_empty in E. contradiction. }
  split; [|split; [|split]].
  - intros before p o after -> Hp. rewrite set_offsets_offsets.
    apply insert_all_last, Hp.
  - intros p Hp. rewrite set_offsets_offsets. apply insert_all_other, Hp.
  - rewrite Hget. case_decide as Hd.
    + split; [intros _|reflexivity].
      destruct ws as [|e ws]; [split; [reflexivity|exact Hd]|].
      exfalso. apply Hne; [discriminate|exact Hd].
    + split; [discriminate|]. intros [-> Hos]. contradiction.
  - intros Hws. split; [|apply Hne, Hws].
    rewrite Hget. case_decide as Hd; [|reflexivity].
    exfalso. apply Hne; assumption.
Qed.

Lemma in_memory_store_last_write_witness :
  [(0, 100); (1, 200); (0, 50)] = [(0, 100); (1, 200)] ++ (0, 50) :: [] /\
  offsets (set_offsets [(0, 100); (1, 200); (0, 50)] NewInMemoryOffsetStore) !! 0 = Some 50.
Proof.
  split; [reflexivity|].
  apply (in_memory_store_last_write [(0, 100); (1, 200); (0, 50)] NewInMemoryOffsetStore)
    with (before := [(0, 100); (1, 200)]) (after := []); [reflexivity|].
  rewrite fmap_nil. apply not_elem_of_nil.
Defined.

(** ** Reading the offsets back from Redis *)

Lemma parse_pairs_hash (entries : list (Z * Z)) :
  Forall (fun e => in_int32 e.1 /\ in_int64 e.2) entries ->
  forall m : PartitionOffsets,
    parse_pairs (flat_map (fun e => [RBulk (FormatInt e.1); RBulk (FormatInt e.2)]) entries) m
    = inr (foldl (fun m e => <[e.1 := e.2]> m) m entries).
Proof.
  induction 1 as [|[p o] entries [Hp Ho] _ IH]; intros m; [reflexivity|].
  cbn [flat_map app parse_pairs redis_Int64 fst snd foldl]. cbn [fst snd] in Hp, Ho.
  unfold in_int32, MinInt32, MaxInt32 in Hp. unfold in_int64, MinInt64, MaxInt64 in Ho.
  rewrite (ParseInt_FormatInt o 64) by (change (64 - 1) with 63; lia).
  rewrite (ParseInt_FormatInt p 32) by (change (32 - 1) with 31; lia).
  rewrite int32_id by (unfold in_int32, MinInt32, MaxInt32; lia).
  apply IH.
Qed.

Lemma hash_reply_length (entries : list (Z * Z)) :
  length (flat_map (fun e => [RBulk (FormatInt e.1); RBulk (FormatInt e.2)]) entries)
  = (2 * length entries)%nat.
Proof. induction entries as [|e entries IH]; simpl; lia. Qed.

(** X2.  Reading back what was written.  When HGETALL on the key
    [<prefix>:offsets] replies with the fields of a hash that is not empty,
    each partition (an int32) and its offset (an int64) as decimal strings,
    [RedisOffsetStore.GetOffsets] returns without an error the snapshot
    that the in-memory store holds after the same writes. *)
Theorem redis_GetOffsets_reads_back {C} `{redisDo C} (rs : RedisOffsetStore C)
    (entries : list (Z * Z)) :
  (Do (pool rs) "HGETALL" [ArgString (prefix rs +:+ ":offsets")]).2
    = (hash_reply entries, None) ->
  entries <> [] ->
  Forall (fun e => in_int32 e.1 /\ in_int64 e.2) entries ->
  (Redis_GetOffsets rs).2
  = (Some (offsets (set_offsets entries NewInMemoryOffsetStore)), None).
Proof.
  intros Hdo Hne Hty. unfold Redis_GetOffsets, getOffsetsCmd, key.
  destruct (Do (pool rs) _ _) as [c [r err]]. cbn [snd] in Hdo |- *.
  injection Hdo as -> ->.
  unfold redisToPartitionOffsets, hash_reply, redis_Values.
  rewrite hash_reply_length.
  destruct (Nat.eqb_spec (2 * length entries) 0) as [E|_].
  { destruct entries; [contradiction|simpl in E; lia]. }
  replace ((2 * length entries) mod 2)%nat with 0%nat
    by (symmetry; rewrite Nat.mul_comm; apply Nat.Div0.mod_mul).
  cbn [Nat.eqb negb]. rewrite parse_pairs_hash by exact Hty.
  rewrite set_offsets_offsets. reflexivity.
Qed.

Lemma redis_GetOffsets_reads_back_witness :
  (Do (redisDo := fixed_values (hash_reply [(0, 100); (1, 200)]))
     (pool (NewRedisOffsetStore "app" tt)) "HGETALL"
     [ArgString (prefix (NewRedisOffsetStore "app" tt) +:+ ":offsets")]).2
    = (hash_reply [(0, 100); (1, 200)], None) /\
  (Redis_GetOffsets (H := fixed_values (hash_reply [(0, 100); (1, 200)]))
     (NewRedisOffsetStore "app" tt)).2
  = (Some (offsets (set_offsets [(0, 100); (1, 200)] NewInMemoryOffsetStore)), None).
Proof.
  split; [reflexivity|].
  apply (redis_GetOffsets_reads_back (H := fixed_values (hash_reply [(0, 100); (1, 200)]))
           (NewRedisOffsetStore "app" tt) [(0, 100); (1, 200)]);
    [reflexivity|discriminate|].
  repeat constructor; vm_compute; discriminate.
Defined.

Lemma parse_pairs_keeps (n : nat) :
  forall (values : list reply) (m m' : PartitionOffsets) (i : Z),
    (length values <= n)%nat ->
    parse_pairs values m = inr m' -> is_Some (m !! i) -> is_Some (m' !! i).
Proof.
  induction n as [|n IH]; intros values m m' i Hn Hp Hi.
  - destruct values; [|simpl in Hn; lia]. injection Hp as <-. exact Hi.
  - destruct values as [|k [|v rest]]; try (injection Hp as <-; exact Hi).
    cbn [parse_pairs] in Hp. destruct k; try discriminate.
    destruct (redis_Int64 v) as [e|value]; [discriminate|].
    destruct (ParseInt s 32) as [e|partition]; [discriminate|].
    apply (IH rest _ m' i) in Hp; [exact Hp|simpl in Hn; lia|].
    rewrite lookup_insert. case_decide; eauto.
Qed.

Lemma parse_pairs_partitions (n : nat) :
  forall (values : list reply) (m m' : PartitionOffsets),
    (length values <= n)%nat ->
    parse_pairs values m = inr m' ->
    map_Forall (fun k _ => in_int32 k) m -> map_Forall (fun k _ => in_int32 k) m'.
Proof.
  induction n as [|n IH]; intros values m m' Hn Hp Hm.
  - destruct values; [|simpl in Hn; lia]. injection Hp as <-. exact Hm.
  - destruct values as [|k [|v rest]]; try (injection Hp as <-; exact Hm).
    cbn [parse_pairs] in Hp. destruct k; try discriminate.
    destruct (redis_Int64 v) as [e|value]; [discriminate|].
    destruct (ParseInt s 32) as [e|partition] eqn:Ep; [discriminate|].
    apply (IH rest _ m') in Hp; [exact Hp|simpl in Hn; lia|].
    apply ParseInt_range in Ep. change (32 - 1) with 31 in Ep.
    apply map_Forall_insert_2; [|exact Hm].
    rewrite int32_id; unfold in_int32, MinInt32, MaxInt32; lia.
Qed.

(** X3.  The three outcomes of [redisToPartitionOffsets].  An error of the
    command comes back as it is, with a nil map.  Nil with no error ("no
    data") comes back exactly when the reply is an array of no values.  A
    reply with an odd number of values is an error.  A map never comes with
    an error, and a map that comes back is not empty and holds only
    partitions that fit an int32. *)
Theorem redisToPartitionOffsets_outcomes (result : reply) (err : option error) :
  (forall e, err = Some e -> redisToPartitionOffsets result err = (None, Some e)) /\
  (redisToPartitionOffsets result err = (None, None) <->
   err = None /\ result = RArray []) /\
  (forall values, err = None -> result = RArray values ->
     (length values mod 2)%nat = 1%nat ->
     redisToPartitionOffsets result err = (None, Some ErrOddValues)) /\
  (forall m, (redisToPartitionOffsets result err).1 = Some m ->
     (redisToPartitionOffsets result err).2 = None /\ m <> ∅ /\
     map_Forall (fun k _ => in_int32 k) m).
Proof.
  unfold redisToPartitionOffsets. split; [|split; [|split]].
  - intros e ->. reflexivity.
  - destruct err as [e|]; cbn [redis_Values].
    { split; [discriminate|intros [? _]; discriminate]. }
    destruct result as [z|s| |s|msg|values]; cbn;
      try (split; [discriminate|intros [_ ?]; discriminate]).
    destruct values as [|k values]; cbn [length Nat.eqb].
    { split; auto. }
    destruct (negb _); [split; [discriminate|intros [_ ?]; discriminate]|].
    destruct (parse_pairs _ _); split; try discriminate; intros [_ ?]; discriminate.
  - intros values -> -> Hodd. cbn [redis_Values].
    destruct (Nat.eqb_spec (length values) 0) as [E|_]; [rewrite E in Hodd; discriminate|].
    rewrite Hodd. reflexivity.
  - intros m. destruct (redis_Values result err) as [e|values]; [discriminate|].
    destruct values as [|k [|v rest]]; [discriminate|discriminate|].
    cbn [length Nat.eqb]. destruct (negb _); [discriminate|].
    destruct (parse_pairs (k :: v :: rest) ∅) as [e|m'] eqn:Ep; [discriminate|].
    cbn [fst snd]. intros [= ->]. split; [reflexivity|]. split.
    + pose proof Ep as Ep'. cbn [parse_pairs] in Ep'.
      destruct k; try discriminate.
      destruct (redis_Int64 v) as [e|value]; [discriminate|].
      destruct (ParseInt s 32) as [e|partition]; [discriminate|].
      apply (parse_pairs_keeps (length rest) rest _ m (int32 partition) (le_n _)) in Ep'.
      * intros ->. rewrite lookup_empty in Ep'. destruct Ep' as [? ?]. discriminate.
      * rewrite lookup_insert_eq. eauto.
    + apply (parse_pairs_partitions _ _ ∅ m (le_n _) Ep).
      apply map_Forall_empty.
Qed.

Lemma redisToPartitionOffsets_outcomes_witness :
  (length [RBulk "0"; RBulk "100"; RBulk "1"] mod 2)%nat = 1%nat /\
  redisToPartitionOffsets odd_reply None = (None, Some ErrOddValues) /\
  redisToPartitionOffsets wide_field_reply None = (None, Some NumError).
Proof.
  split; [reflexivity|]. split; [|reflexivity].
  destruct (redisToPartitionOffsets_outcomes odd_reply None) as (_ & _ & Hodd & _).
  apply (Hodd [RBulk "0"; RBulk "100"; RBulk "1"]); reflexivity.
Defined.

(** ** The snapshot as JSON *)

(** X4.  [PartitionOffsets.MarshalJSON] marshals a map of strings that
    holds, for every partition of the snapshot, its decimal string with the
    decimal string of its offset, and nothing else: no partition is lost and
    no two are merged. *)
Theorem MarshalJSON_members (po : PartitionOffsets) :
  well_typed po ->
  PartitionOffsets_MarshalJSON po = Marshal (offsets_as_strings po) /\
  (forall k v, po !! k = Some v -> offsets_as_strings po !! Itoa k = Some (Itoa v)) /\
  (forall s t, offsets_as_strings po !! s = Some t ->
     exists k v, po !! k = Some v /\ s = Itoa k /\ t = Itoa v).
Proof.
  intros Hty. split; [reflexivity|]. revert Hty. unfold offsets_as_strings.
  apply (map_fold_weak_ind (fun (r : gmap string string) (m : PartitionOffsets) =>
    well_typed m ->
    (forall k v, m !! k = Some v -> r !! Itoa k = Some (Itoa v)) /\
    (forall s t, r !! s = Some t -> exists k v, m !! k = Some v /\ s = Itoa k /\ t = Itoa v))).
  - intros _. split.
    + intros k v Hk. rewrite lookup_empty in Hk. discriminate.
    + intros s t Hs. rewrite lookup_empty in Hs. discriminate.
  - intros i x m r Hi IH Hty.
    apply map_Forall_insert in Hty as [[Hi32 Hx64] Hty]; [|exact Hi].
    destruct (IH Hty) as [Hfw Hbw].
    assert (Hii : int i = i).
    { apply int_id. unfold in_int32, in_int64, MinInt32, MaxInt32, MinInt64, MaxInt64 in *. lia. }
    rewrite Hii, (int_id x Hx64). split.
    + intros k v Hk. destruct (decide (k = i)) as [->|Hne].
      * rewrite lookup_insert_eq in Hk. injection Hk as <-. apply lookup_insert_eq.
      * rewrite lookup_insert_ne in Hk by congruence.
        rewrite lookup_insert_ne; [apply Hfw, Hk|].
        intros Heq. apply FormatInt_inj in Heq. congruence.
    + intros s t Hs. destruct (decide (s = Itoa i)) as [->|Hne].
      * rewrite lookup_insert_eq in Hs. injection Hs as <-.
        exists i, x. rewrite lookup_insert_eq. auto.
      * rewrite lookup_insert_ne in Hs by congruence.
        destruct (Hbw s t Hs) as (k & v & Hk & -> & ->).
        exists k, v. rewrite lookup_insert_ne by congruence. auto.
Qed.

Lemma MarshalJSON_members_witness :
  well_typed (<[0 := 100]> {[ 1 := 200 ]}) /\
  offsets_as_strings (<[0 := 100]> {[ 1 := 200 ]}) !! Itoa 1 = Some (Itoa 200).
Proof.
  assert (Hty : well_typed (<[0 := 100]> {[ 1 := 200 ]})).
  { apply map_Forall_insert_2; [|apply map_Forall_singleton];
      unfold in_int32, in_int64, MinInt32, MaxInt32, MinInt64, MaxInt64; lia. }
  split; [exact Hty|].
  apply (MarshalJSON_members (<[0 := 100]> {[ 1 := 200 ]}) Hty). reflexivity.
Defined.

(** ** More on the handshake and the three states *)

Section StateMachineProperties.

Context {Sched Store Hand : Type}.
Context {offset_store : offsetStore Store}.
Context {event_handler : EventHandler Hand}.
Variable OffsetNewest : Z.
Variable write : nat -> option error.

#[local] Abbreviation Eventbus := (@Eventbus Sched Store Hand).

(** X5.  The starting offset of the client matters only when [GetOffsets]
    returns nil without an error: then, after [StartAtNewest], the state of
    the handshake is the base64 text of the d object over [OffsetNewest].
    When [GetOffsets] returns a snapshot or an error (or panics),
    [StartAtNewest] changes nothing in the handshake. *)
Theorem StartAtNewest_handshake (eb : Eventbus) (w : world) (serverID : string) :
  ((GetOffsets (store eb)).2 = Ok (None, None) ->
   exists handshake,
     (createHandshake (StartAtNewest OffsetNewest eb) w serverID).2 = Ok handshake /\
     handshake !! "state"%string
     = Some (EncodeToString
               ("{" +:+ quoted "d" +:+ ":" +:+ quoted (FormatInt OffsetNewest) +:+ "}"))) /\
  ((GetOffsets (store eb)).2 <> Ok (None, None) ->
   (createHandshake (StartAtNewest OffsetNewest eb) w serverID).2
   = (createHandshake eb w serverID).2).
Proof.
  split.
  - intros Hget.
    destruct (createHandshake_returns (StartAtNewest OffsetNewest eb) w serverID _ _ Hget)
      as (handshake & Hcreate & _ & _ & _ & _ & _ & Hstate).
    exists handshake. split; [rewrite Hcreate; reflexivity|].
    rewrite Hstate. cbn [startingOffset StartAtNewest set_startingOffset].
    rewrite encodeStarting_text. reflexivity.
  - intros Hget. unfold createHandshake. cbn [store StartAtNewest set_startingOffset config].
    destruct (GetOffsets (store eb)) as [st [[[po|] [e|]]|p]]; cbn [snd] in Hget |- *;
      try reflexivity. contradiction.
Qed.

(** X6.  A snapshot that is not nil but holds no partition is encoded as a
    p object with no member, whatever the starting offset; the d directive
    is sent for a nil snapshot only. *)
Theorem empty_snapshot_handshake (eb : Eventbus) (w : world) (serverID : string) :
  (GetOffsets (store eb)).2 = Ok (Some ∅, None) ->
  (exists handshake,
     (createHandshake eb w serverID).2 = Ok handshake /\
     handshake !! "state"%string
     = Some (EncodeToString ("{" +:+ quoted "p" +:+ ":{}}"))) /\
  EncodeToString ("{" +:+ quoted "p" +:+ ":{}}") = "eyJwIjp7fX0="%string.
Proof.
  intros Hget. split; [|reflexivity].
  destruct (createHandshake_returns eb w serverID _ _ Hget)
    as (handshake & Hcreate & _ & _ & _ & _ & _ & Hstate).
  exists handshake. split; [rewrite Hcreate; reflexivity|].
  rewrite Hstate. f_equal.
Qed.

(** X7.  In the connecting state [handleEvent] returns nil exactly when the
    trigger decodes, [GetOffsets] returns and the handshake is written to the
    socket; then the state is ready.  In every other case the state is left
    as it was, and when the trigger does not decode nothing is read from the
    store and nothing is sent.  A panic of [GetOffsets] leaves
    [handleEvent]. *)
Theorem connecting_handleEvent_outcome (eb : Eventbus) (w : world) (body : frame) :
  let decoded := Unmarshal serverHandshake_fields body
                   {| sh_ID := EmptyString; sh_Status := EmptyString |} in
  let out := connecting_handleEvent write eb w body in
  (out.2 = Ok None <->
   decoded.2 = None /\ (exists r, (GetOffsets (store eb)).2 = Ok r) /\
   write (writes w) = None) /\
  (out.2 = Ok None -> state out.1.1 = Some ready) /\
  (out.2 <> Ok None -> state out.1.1 = state eb) /\
  (forall e, decoded.2 = Some e ->
     out = (eb, w, Ok (Some (Wrap e "unmarshalling body in connecting.handleEvent")))) /\
  (forall e r, decoded.2 = None -> (GetOffsets (store eb)).2 = Ok r ->
     write (writes w) = Some e ->
     out.2 = Ok (Some (Wrap e "sending handshake in connecting.handleEvent"))) /\
  (forall p, decoded.2 = None -> (GetOffsets (store eb)).2 = Panicked p ->
     out.2 = Panicked p).
Proof.
  cbv zeta. unfold connecting_handleEvent.
  destruct (Unmarshal serverHandshake_fields body _) as [sh [e|]]; cbn [fst snd].
  { repeat split; try discriminate; try (intros [? _]; discriminate).
    - intros e' [= <-]. reflexivity. }
  unfold createHandshake.
  destruct (GetOffsets (store eb)) as [st [[[po|] [e|]]|p]]; cbn [fst snd];
    unfold sendBytes; cbn [record writes];
    try destruct (write (writes w)) as [e'|]; cbn [fst snd];
    repeat split; try discriminate; try (intros (_ & _ & ?); discriminate);
    try (intros (_ & (? & ?) & _); discriminate);
    try (intros ? ? _ _ [= <-]; reflexivity); try (intros H; contradiction);
    try (intros ? _ [= <-]; reflexivity); eauto.
Qed.

(** X8.  In the streaming state [handleEvent] returns nil exactly when the
    frame decodes, the handler returns nil and [SetOffset] returns nil.  A
    frame that does not decode reaches neither the handler nor the store;
    an error of [SetOffset] is returned, never dropped, and a panic of
    [SetOffset] leaves [handleEvent].  The state is left as it was in every
    case. *)
Theorem streaming_handleEvent_outcome (eb : Eventbus) (w : world) (body : frame) :
  let decoded := Unmarshal Message_fields body
                   {| Offset := 0; Partition := 0; Body := None |} in
  let m := decoded.1 in
  let out := streaming_handleEvent eb w body in
  (out.2 = Ok None <->
   decoded.2 = None /\ (Handle (eventHandler eb) m).2 = Ok None /\
   (SetOffset (store eb) (Partition m) (Offset m)).2 = Ok None) /\
  (forall e, decoded.2 = Some e ->
     out = (eb, w, Ok (Some (Wrap e "unmarshalling body in streaming.handleEvent")))) /\
  (forall e, decoded.2 = None -> (Handle (eventHandler eb) m).2 = Ok None ->
     (SetOffset (store eb) (Partition m) (Offset m)).2 = Ok (Some e) ->
     out.2 = Ok (Some (Wrap e "storing offset in streaming.handleEvent"))) /\
  (forall p, decoded.2 = None -> (Handle (eventHandler eb) m).2 = Ok None ->
     (SetOffset (store eb) (Partition m) (Offset m)).2 = Panicked p ->
     out.2 = Panicked p) /\
  state out.1.1 = state eb.
Proof.
  cbv zeta. unfold streaming_handleEvent.
  destruct (Unmarshal Message_fields body _) as [m [e|]]; cbn [fst snd].
  { repeat split; try discriminate; try (intros (? & _); discriminate).
    intros e' [= <-]. reflexivity. }
  destruct (Handle (eventHandler eb) m) as [h [[e|]|p]]; cbn [fst snd store set_eventHandler].
  { repeat split; try discriminate; try (intros (_ & ? & _); discriminate). }
  2: { repeat split; try discriminate; try (intros (_ & ? & _); discriminate). }
  destruct (SetOffset (store eb) (Partition m) (Offset m)) as [st [[e|]|p]]; cbn [fst snd];
    repeat split; try discriminate; try (intros (_ & _ & ?); discriminate).
  - intros e' _ _ [= <-]. reflexivity.
  - intros p' _ _ [= <-]. reflexivity.
Qed.

End StateMachineProperties.

(** ** The fields of a decoded message *)

Lemma Message_fields_keep_range (f : field Message) (v : json) (t t' : Message) :
  f ∈ Message_fields -> f_store f v t = inr t' ->
  in_int64 (Offset t) /\ in_int32 (Partition t) ->
  in_int64 (Offset t') /\ in_int32 (Partition t').
Proof.
  intros Hin Hs [Ho Hp]. apply list_elem_of_In in Hin. simpl in Hin.
  destruct Hin as [<-|[<-|[<-|[]]]]; cbn in Hs.
  - destruct v as [|b|[z|lit]|s|l|ms]; try discriminate;
      try (injection Hs as <-; split; assumption).
    destruct (_ <=? z) eqn:E1; destruct (z <? _) eqn:E2; try discriminate.
    injection Hs as <-. split; [|exact Hp].
    apply Z.leb_le in E1. apply Z.ltb_lt in E2.
    unfold in_int64, MinInt64, MaxInt64. cbn [Offset]. lia.
  - destruct v as [|b|[z|lit]|s|l|ms]; try discriminate;
      try (injection Hs as <-; split; assumption).
    destruct (_ <=? z) eqn:E1; destruct (z <? _) eqn:E2; try discriminate.
    injection Hs as <-. split; [exact Ho|].
    apply Z.leb_le in E1. apply Z.ltb_lt in E2.
    unfold in_int32, MinInt32, MaxInt32. cbn [Partition]. lia.
  - injection Hs as <-. split; assumption.
Qed.

Lemma decode_members_Message_range (members : list (string * json)) :
  forall (t : Message) (saved : option error),
    in_int64 (Offset t) /\ in_int32 (Partition t) ->
    in_int64 (Offset (decode_members Message_fields members t saved).1) /\
    in_int32 (Partition (decode_members Message_fields members t saved).1).
Proof.
  induction members as [|[k v] ms IH]; intros t saved Ht; [exact Ht|].
  cbn [decode_members].
  destruct (find_field Message_fields k) as [f|] eqn:Ef; [|apply IH, Ht].
  assert (Hin : f ∈ Message_fields).
  { unfold find_field in Ef. destruct (find _ Message_fields) as [f'|] eqn:E1.
    - injection Ef as <-. apply find_some in E1 as [E1 _]. apply list_elem_of_In, E1.
    - apply find_some in Ef as [Ef _]. apply list_elem_of_In, Ef. }
  destruct (f_store f v t) as [e|t'] eqn:Es; [apply IH, Ht|].
  apply IH. eapply Message_fields_keep_range; eassumption.
Qed.

(** X9.  Whatever the frame, the message that [json.Unmarshal] leaves in
    the streaming state has an offset within int64 and a partition within
    int32; a frame whose offset or partition is a literal with a fraction or
    an exponent, or is out of range, is refused with an error. *)
Theorem Unmarshal_Message_range (body : frame) :
  let decoded := Unmarshal Message_fields body
                   {| Offset := 0; Partition := 0; Body := None |} in
  in_int64 (Offset decoded.1) /\ in_int32 (Partition decoded.1) /\
  (forall members key lit,
     body = Valid (JObject members) ->
     (key, JNumber (Fractional lit)) ∈ members ->
     key = "offset"%string \/ key = "partition"%string ->
     decoded.2 <> None) /\
  (forall members z,
     body = Valid (JObject members) ->
     ("partition"%string, JNumber (Integral z)) ∈ members ->
     ~ in_int32 z -> decoded.2 <> None).
Proof.
  cbv zeta.
  assert (H0 : in_int64 (Offset {| Offset := 0; Partition := 0; Body := None |}) /\
               in_int32 (Partition {| Offset := 0; Partition := 0; Body := None |})).
  { unfold in_int64, in_int32, MinInt64, MaxInt64, MinInt32, MaxInt32. cbn. lia. }
  assert (Hsaved : forall members t saved,
             saved <> None -> (decode_members Message_fields members t saved).2 <> None).
  { induction members as [|[k v] ms IH]; intros t saved Hs; [exact Hs|].
    cbn [decode_members]. destruct (find_field Message_fields k); [|apply IH, Hs].
    destruct (f_store _ v t); [|apply IH, Hs].
    apply IH. destruct saved; discriminate. }
  assert (Hbad : forall members key v,
             (key, v) ∈ members ->
             (forall f t, find_field Message_fields key = Some f ->
                          exists e, f_store f v t = inl e) ->
             is_Some (find_field Message_fields key) ->
             forall t saved, (decode_members Message_fields members t saved).2 <> None).
  { induction members as [|[k v'] ms IH]; intros key v Hin Hf Hsome t saved;
      [inversion Hin|].
    cbn [decode_members]. apply elem_of_cons in Hin as [[= <- <-]|Hin].
    - destruct Hsome as [f Ef]. rewrite Ef. destruct (Hf f t Ef) as [e ->].
      apply Hsaved. destruct saved; discriminate.
    - destruct (find_field Message_fields k); [|eapply IH; eassumption].
      destruct (f_store _ v' t); eapply IH; eassumption. }
  split; [|split; [|split]].
  - destruct body as [|v]; [exact (proj1 H0)|].
    destruct v; try exact (proj1 H0). apply decode_members_Message_range, H0.
  - destruct body as [|v]; [exact (proj2 H0)|].
    destruct v; try exact (proj2 H0). apply decode_members_Message_range, H0.
  - intros members key lit -> Hin Hkey. cbn [Unmarshal].
    apply (Hbad members key (JNumber (Fractional lit)) Hin).
    + intros f t Ef. destruct Hkey as [-> | ->]; cbn in Ef; injection Ef as <-;
        cbn; eauto.
    + destruct Hkey as [-> | ->]; cbn; eexists; reflexivity.
  - intros members z -> Hin Hz. cbn [Unmarshal].
    apply (Hbad members "partition"%string (JNumber (Integral z)) Hin).
    + intros f t Ef. cbn in Ef. injection Ef as <-. cbn.
      unfold in_int32, MinInt32, MaxInt32 in Hz.
      destruct (_ <=? z) eqn:E1; destruct (z <? _) eqn:E2; cbn; eauto.
      exfalso. apply Hz. apply Z.leb_le in E1. apply Z.ltb_lt in E2. lia.
    + cbn. eexists. reflexivity.
Qed.

Lemma Unmarshal_Message_range_witness :
  ("partition"%string, JNumber (Integral 2147483648))
    ∈ [("offset"%string, JNumber (Integral 5));
       ("partition"%string, JNumber (Integral 2147483648))] /\
  ~ in_int32 2147483648 /\
  (Unmarshal Message_fields
     (Valid (JObject [("offset"%string, JNumber (Integral 5));
                      ("partition"%string, JNumber (Integral 2147483648))]))
     {| Offset := 0; Partition := 0; Body := None |}).2 <> None.
Proof.
  assert (Hin : ("partition"%string, JNumber (Integral 2147483648))
                  ∈ [("offset"%string, JNumber (Integral 5));
                     ("partition"%string, JNumber (Integral 2147483648))]).
  { apply list_elem_of_In. simpl. auto. }
  assert (Hz : ~ in_int32 2147483648).
  { unfold in_int32, MinInt32, MaxInt32. lia. }
  split; [exact Hin|]. split; [exact Hz|].
  destruct (Unmarshal_Message_range
              (Valid (JObject [("offset"%string, JNumber (Integral 5));
                               ("partition"%string, JNumber (Integral 2147483648))])))
    as (_ & _ & _ & Hwide).
  exact (Hwide _ 2147483648 eq_refl Hin Hz).
Defined.

(** ** More on the connection loop *)

Section LoopProperties.

Context {Sched Store Hand : Type}.
Context {scheduler : ReconnectionScheduler Sched}.
Context {offset_store : offsetStore Store}.
Context {event_handler : EventHandler Hand}.
Variable dial : nat -> option error.
Variable read : nat -> error + frame.
Variable write : nat -> option error.

#[local] Abbreviation Eventbus := (@Eventbus Sched Store Hand).

(** What a state adds to the trace, and what it leaves alone. *)
Lemma handleEvent_effect (s : eventbusState) (eb : Eventbus) (w : world) (body : frame) :
  let out := handleEvent write s eb w body in
  dials out.1.2 = dials w /\ reads out.1.2 = reads w /\
  socket out.1.1 = socket eb /\ Reconnection out.1.1 = Reconnection eb /\
  errorLogger out.1.1 = errorLogger eb /\
  exists new, trace out.1.2 = trace w ++ new /\
    match s with
    | connecting =>
        (new = [] /\ out.2 <> Ok None /\ state out.1.1 = state eb) \/
        (new = [EvGetOffsets] /\ out.2 <> Ok None /\ state out.1.1 = state eb) \/
        (exists data, new = [EvGetOffsets; EvSend data] /\
           (out.2 = Ok None -> state out.1.1 = Some ready) /\
           (out.2 <> Ok None -> state out.1.1 = state eb))
    | ready =>
        new = [] /\ (state out.1.1 = state eb \/ state out.1.1 = Some streaming)
    | streaming =>
        state out.1.1 = state eb /\
        (new = [] \/ exists m, new = [EvHandle m] \/
                               new = [EvHandle m; EvSetOffset (Partition m) (Offset m)])
    end.
Proof.
  cbv zeta. destruct s; cbn [handleEvent].
  - unfold connecting_handleEvent.
    destruct (Unmarshal serverHandshake_fields body _) as [sh [e|]]; cbn [fst snd].
    { repeat split. exists []. rewrite app_nil_r. split; [reflexivity|].
      left. repeat split. discriminate. }
    unfold createHandshake.
    destruct (GetOffsets (store eb)) as [st [[[po|] [e|]]|p]]; cbn [fst snd].
    5: { repeat split. exists [EvGetOffsets]. split; [reflexivity|].
         right. left. repeat split. discriminate. }
    all: unfold sendBytes; cbn [record writes dials reads trace];
      destruct (write (writes w)) as [e'|]; cbn [fst snd dials reads trace];
      (repeat split; eexists; rewrite <- app_assoc; split; [reflexivity|]);
      right; right; eexists; (split; [reflexivity|]); split; intros H;
      try reflexivity; try discriminate; try contradiction.
  - unfold ready_handleEvent.
    destruct (Unmarshal streamingEvent_fields body _) as [sm [e|]]; cbn [fst snd];
      repeat split; exists []; rewrite app_nil_r; (split; [reflexivity|]);
      split; auto.
  - unfold streaming_handleEvent.
    destruct (Unmarshal Message_fields body _) as [m [e|]]; cbn [fst snd].
    { repeat split. exists []. rewrite app_nil_r. auto. }
    destruct (Handle (eventHandler eb) m) as [h [[e|]|p]]; cbn [fst snd store set_eventHandler].
    { repeat split. exists [EvHandle m]. cbn. split; [reflexivity|]. split; eauto. }
    2: { repeat split. exists [EvHandle m]. cbn. split; [reflexivity|]. split; eauto. }
    destruct (SetOffset (store eb) (Partition m) (Offset m)) as [st [[e|]|p]]; cbn [fst snd];
      repeat split; exists [EvHandle m; EvSetOffset (Partition m) (Offset m)];
      cbn; rewrite <- app_assoc; (split; [reflexivity|]); split; eauto.
Qed.

Lemma open_sockets_app (t1 t2 : list event) :
  open_sockets dial (t1 ++ t2) = open_sockets dial t1 + open_sockets dial t2.
Proof.
  induction t1 as [|e t1 IH]; [reflexivity|].
  destruct e; cbn [app open_sockets]; rewrite IH; lia.
Qed.

Lemma sent_since_dial_app (b : bool) (t1 t2 : list event) :
  sent_since_dial b (t1 ++ t2) = sent_since_dial (sent_since_dial b t1) t2.
Proof. apply foldl_app. Qed.

Lemma handled_after_send_app (t1 t2 : list event) :
  forall b, handled_after_send b (t1 ++ t2)
            = handled_after_send b t1 && handled_after_send (sent_since_dial b t1) t2.
Proof.
  induction t1 as [|e t1 IH]; intros b; [reflexivity|].
  destruct e; cbn [app handled_after_send]; rewrite IH;
    try reflexivity.
  rewrite andb_assoc. reflexivity.
Qed.

(** The deferred function closes the one socket that is open. *)
Lemma finish_closes (eb : Eventbus) (w : world) (p : panic) :
  is_Some (socket eb) ->
  open_sockets dial (trace w) = 1 -> handled_after_send false (trace w) = true ->
  sound_outcome dial (eb, finish eb w, Some (Recovered p)).
Proof.
  intros [c Hc] Hopen Hh. unfold sound_outcome, finish. rewrite Hc.
  cbn [record trace]. rewrite open_sockets_app, handled_after_send_app, Hh, Hopen.
  repeat split; eauto.
Qed.

Lemma drop_socket_sound (err : error) (eb : Eventbus) (w : world) :
  is_Some (socket eb) ->
  open_sockets dial (trace w) = 1 -> handled_after_send false (trace w) = true ->
  sound_outcome dial (drop_socket err eb w).
Proof.
  intros Hsock Hopen Hh. unfold drop_socket.
  assert (Hopen1 : open_sockets dial (trace (record (EvLog err) w)) = 1).
  { cbn [record trace]. rewrite open_sockets_app, Hopen. reflexivity. }
  assert (Hh1 : handled_after_send false (trace (record (EvLog err) w)) = true).
  { cbn [record trace]. rewrite handled_after_send_app, Hh. reflexivity. }
  destruct (errorLogger eb err) as [u|p].
  - unfold sound_outcome, sound, live. cbn [socket set_socket].
    change (trace (record EvClose (record (EvLog err) w)))
      with (trace (record (EvLog err) w) ++ [EvClose]).
    rewrite open_sockets_app, handled_after_send_app, Hh1, Hopen1.
    split; [intros [? ?]; discriminate|]. split; [reflexivity|]. split; [reflexivity|].
    intros [? ?]; discriminate.
  - apply finish_closes; assumption.
Qed.

Lemma read_and_handle_sound (eb : Eventbus) (w : world) :
  is_Some (socket eb) -> is_Some (state eb) -> sound dial eb w ->
  sound_outcome dial (read_and_handle read write eb w).
Proof.
  intros Hsock [s Hs] (Hlive & Hopen & Hh & Hsent).
  destruct Hsock as [c Hc]. rewrite Hc in Hopen.
  specialize (Hsent (ex_intro _ c Hc)).
  unfold read_and_handle. rewrite Hs.
  set (w1 := after_read w).
  assert (Hopen1 : open_sockets dial (trace w1) = 1).
  { cbn [w1 after_read trace]. rewrite open_sockets_app, Hopen. reflexivity. }
  assert (Hh1 : handled_after_send false (trace w1) = true).
  { cbn [w1 after_read trace]. rewrite handled_after_send_app, Hh. reflexivity. }
  assert (Hs1 : sent_since_dial false (trace w1) = sent_since_dial false (trace w)).
  { cbn [w1 after_read trace]. rewrite sent_since_dial_app. reflexivity. }
  destruct (read (reads w)) as [err|msg].
  { apply (drop_socket_sound err eb w1); eauto. }
  pose proof (handleEvent_effect s eb w1 msg) as Heff. cbv zeta in Heff.
  destruct (handleEvent write s eb w1 msg) as [[eb2 w2] r] eqn:Eh.
  cbn [fst snd] in Heff. destruct Heff as (_ & _ & Hsock2 & _ & _ & new & Htr & Hnew).
  assert (Hfacts : open_sockets dial (trace w2) = 1 /\
                   handled_after_send false (trace w2) = true /\
                   is_Some (state eb2) /\
                   (r = Ok None ->
                    state eb2 = Some connecting \/ sent_since_dial false (trace w2) = true)).
  { rewrite Htr, open_sockets_app, handled_after_send_app, sent_since_dial_app,
      Hopen1, Hh1, Hs1.
    destruct s.
    - destruct Hnew as [(-> & Herr & Hst)|[(-> & Herr & Hst)|(data & -> & Hok & Hko)]].
      + cbn. rewrite Hst, Hs. repeat split; eauto.
      + cbn. rewrite Hst, Hs. repeat split; eauto.
      + cbn. assert (Hst2 : is_Some (state eb2)).
        { destruct r as [[e|]|p];
            [rewrite Hko, Hs by discriminate|rewrite Hok by reflexivity
            |rewrite Hko, Hs by discriminate]; eauto. }
        repeat split; eauto.
    - destruct Hnew as (-> & Hst). cbn.
      destruct Hsent as [Hcon|Hsent]; [congruence|].
      assert (Hst2 : is_Some (state eb2)).
      { destruct Hst as [-> | ->]; eauto. }
      repeat split; eauto.
    - destruct Hnew as (Hst & Hnew).
      destruct Hsent as [Hcon|Hsent]; [congruence|]. rewrite Hsent, Hst, Hs.
      destruct Hnew as [->|(m & [->| ->])]; cbn; repeat split; eauto. }
  destruct Hfacts as (Hopen2 & Hh2 & Hst2 & Hsent2).
  assert (Hso2 : is_Some (socket eb2)) by (rewrite Hsock2, Hc; eauto).
  destruct r as [[err|]|p].
  - apply (drop_socket_sound err eb2 w2); assumption.
  - unfold sound_outcome, sound, live. rewrite Hsock2, Hc.
    repeat split; eauto.
  - apply finish_closes; assumption.
Qed.

Lemma Run_turn_sound (eb : Eventbus) (w : world) :
  sound dial eb w -> sound_outcome dial (Run_turn dial read write eb w).
Proof.
  intros Hsound. pose proof Hsound as (Hlive & Hopen & Hh & Hsent).
  unfold Run_turn. destruct (socket eb) as [c|] eqn:Hsock.
  - assert (Hst : is_Some (state eb)) by (apply Hlive; eauto).
    apply read_and_handle_sound; eauto.
  - unfold connect.
    destruct (NextReconnectBackoff (Reconnection (set_state (Some connecting) eb)))
      as [sched [[d [exit|]]|p]]; cbn [fst snd].
    + unfold finish, sound_outcome. cbn [socket set_state set_Reconnection]. rewrite Hsock.
      repeat split; eauto; try (intros [? ?]; discriminate).
    + cbn [record dials trace]. destruct (dial (dials w)) as [err|] eqn:Ed; cbn [fst snd].
      * unfold finish, sound_outcome. cbn [socket set_state set_Reconnection trace].
        rewrite Hsock. cbn [trace].
        rewrite <- app_assoc. cbn [app].
        rewrite open_sockets_app, handled_after_send_app, Hh, Hopen.
        cbn [open_sockets handled_after_send]. rewrite Ed.
        repeat split; eauto; try (intros [? ?]; discriminate).
      * set (eb1 := set_socket (Some (dials w)) _). set (w1 := Build_world _ _ _ _).
        assert (Hs1 : sound dial eb1 w1).
        { unfold sound, live.
          cbn [eb1 w1 socket state set_socket set_state set_Reconnection trace].
          rewrite <- app_assoc. cbn [app].
          rewrite open_sockets_app, handled_after_send_app, Hh, Hopen.
          cbn [open_sockets handled_after_send]. rewrite Ed.
          repeat split; eauto. }
        apply read_and_handle_sound; [cbn; eauto..|exact Hs1].
    + unfold finish, sound_outcome. cbn [socket set_state set_Reconnection]. rewrite Hsock.
      repeat split; eauto; try (intros [? ?]; discriminate).
Qed.

Lemma Run_sound (fuel : nat) :
  forall (eb : Eventbus) (w : world),
    sound dial eb w -> sound_outcome dial (Run dial read write fuel eb w).
Proof.
  induction fuel as [|fuel IH]; intros eb w Hs; [exact Hs|].
  cbn [Run]. pose proof (Run_turn_sound eb w Hs) as Hs1.
  destruct (Run_turn dial read write eb w) as [[eb1 w1] [t|]]; [exact Hs1|].
  apply IH, Hs1.
Qed.

Variable OffsetOldest : Z.

Lemma handled_after_send_split (tr pre post : list event) (m : Message) :
  handled_after_send false tr = true -> tr = pre ++ EvHandle m :: post ->
  sent_since_dial false pre = true.
Proof.
  intros Hh ->. rewrite handled_after_send_app in Hh. cbn [handled_after_send] in Hh.
  apply andb_true_iff in Hh as [_ Hh]. apply andb_true_iff in Hh as [Hh _]. exact Hh.
Qed.

Lemma NewEventbus_sound cfg h st sched :
  sound dial (@NewEventbus Sched Store Hand OffsetOldest cfg h st sched) world0.
Proof.
  unfold sound, live. cbn. repeat split; eauto; intros [? ?]; discriminate.
Qed.

Lemma SetErrorLogger_sound (el : error -> result unit) (eb : Eventbus) (w : world) :
  sound dial eb w -> sound dial (SetErrorLogger el eb) w.
Proof. intros Hs. exact Hs. Qed.

(** X10.  A run of a new client, whatever logger has been installed,
    leaks no socket.  While [Run] goes on, the sockets opened by a
    successful Dial and not closed since are as many as the client holds,
    one or none.  When [Run] has stopped, every socket it opened has been
    closed, by the loop or by the deferred function; the client then names
    a socket (the closed one) only after a recovered panic, and none after
    a stop in [connect] on an error. *)
Theorem Run_closes_every_socket (fuel : nat) cfg h st sched (el : error -> result unit) :
  let out := Run dial read write fuel
               (SetErrorLogger el
                  (@NewEventbus Sched Store Hand OffsetOldest cfg h st sched)) world0 in
  match out.2 with
  | None =>
      open_sockets dial (trace out.1.2)
      = match socket out.1.1 with Some _ => 1 | None => 0 end
  | Some t =>
      open_sockets dial (trace out.1.2) = 0 /\
      (is_Some (socket out.1.1) -> exists p, t = Recovered p) /\
      (forall e, t = SchedulerExit e -> socket out.1.1 = None) /\
      (forall n e, t = DialFailed n e -> socket out.1.1 = None)
  end.
Proof.
  cbv zeta.
  pose proof (Run_sound fuel _ _
                (SetErrorLogger_sound el _ _ (NewEventbus_sound cfg h st sched))) as Hs.
  destruct (Run dial read write fuel _ world0) as [[eb w] [t|]]; cbn [fst snd] in *.
  - destruct Hs as (Hopen & _ & Hsock). split; [exact Hopen|]. split; [exact Hsock|].
    split.
    + intros e ->. destruct (socket eb) as [c|]; [|reflexivity].
      destruct Hsock as [p Hp]; [eauto|discriminate].
    + intros n e ->. destruct (socket eb) as [c|]; [|reflexivity].
      destruct Hsock as [p Hp]; [eauto|discriminate].
  - destruct Hs as (_ & Hopen & _). exact Hopen.
Qed.

(** X11.  In a run of a new client the handler is called only on a
    connection on which the client has sent its handshake: before every
    call of [Handle] in the trace a frame has been sent since the last
    Dial. *)
Theorem Run_handles_after_handshake (fuel : nat) cfg h st sched
    (pre post : list event) (m : Message) :
  trace (Run dial read write fuel
           (@NewEventbus Sched Store Hand OffsetOldest cfg h st sched) world0).1.2
    = pre ++ EvHandle m :: post ->
  sent_since_dial false pre = true.
Proof.
  intros Htr.
  pose proof (Run_sound fuel _ _ (NewEventbus_sound cfg h st sched)) as Hs.
  destruct (Run dial read write fuel _ world0) as [[eb w] [t|]]; cbn [fst snd] in *.
  - destruct Hs as (_ & Hh & _). exact (handled_after_send_split _ pre post m Hh Htr).
  - destruct Hs as (_ & _ & Hh & _). exact (handled_after_send_split _ pre post m Hh Htr).
Qed.

(** A turn of the loop leaves the logger in its field. *)
Lemma Run_turn_logger (eb : Eventbus) (w : world) :
  errorLogger (Run_turn dial read write eb w).1.1 = errorLogger eb.
Proof.
  assert (Hr : forall (eb : Eventbus) w,
             errorLogger (read_and_handle read write eb w).1.1 = errorLogger eb).
  { clear eb w. intros eb w. unfold read_and_handle, drop_socket.
    destruct (read (reads w)) as [err|msg].
    { destruct (errorLogger eb err); reflexivity. }
    destruct (state eb) as [s|]; [|reflexivity].
    pose proof (handleEvent_effect s eb (after_read w) msg) as Heff. cbv zeta in Heff.
    destruct (handleEvent write s eb (after_read w) msg) as [[eb2 w2] [[e|]|p]];
      cbn [fst snd] in Heff |- *; destruct Heff as (_ & _ & _ & _ & Hl & _);
      try exact Hl.
    destruct (errorLogger eb2 e); cbn [fst snd set_socket errorLogger]; exact Hl. }
  unfold Run_turn. destruct (socket eb); [apply Hr|].
  destruct (connect dial eb w) as [[eb1 w1] [t|]] eqn:Ec; cbn [fst snd].
  - apply (f_equal (fun r => errorLogger r.1.1)) in Ec. cbn [fst snd] in Ec.
    rewrite <- Ec. unfold connect.
    destruct (NextReconnectBackoff _) as [sched [[d [exit|]]|p]]; try reflexivity.
    destruct (dial _); reflexivity.
  - rewrite Hr. apply (f_equal (fun r => errorLogger r.1.1)) in Ec. cbn [fst snd] in Ec.
    rewrite <- Ec. unfold connect.
    destruct (NextReconnectBackoff _) as [sched [[d [exit|]]|p]]; try reflexivity.
    destruct (dial _); reflexivity.
Qed.

(** X12.  With a scheduler that never returns an error, and a scheduler, a
    handler, a store and a logger that never panic, [Run] stops on a
    failure of [Dial] and on nothing else. *)
Theorem Run_stops_on_dial_failure_only (fuel : nat) :
  (forall s : Sched, exists s' d, NextReconnectBackoff s = (s', Ok (d, None))) ->
  (forall (h : Hand) m p, (Handle h m).2 <> Panicked p) ->
  (forall (st : Store) partition offset p,
     (SetOffset st partition offset).2 <> Panicked p) ->
  (forall (st : Store) p, (GetOffsets st).2 <> Panicked p) ->
  forall (eb : Eventbus) (w : world) (t : termination),
    live eb -> (forall e p, errorLogger eb e <> Panicked p) ->
    (Run dial read write fuel eb w).2 = Some t ->
    exists attempt e, t = DialFailed attempt e /\ dial attempt = Some e.
Proof.
  intros Hsched Hhandle Hset Hget.
  induction fuel as [|fuel IH]; intros eb w t Hlive Hlog Hrun; [discriminate|].
  cbn [Run] in Hrun.
  destruct (Run_turn_outcome dial read write eb w Hlive) as (Hl & Hcause).
  pose proof (Run_turn_logger eb w) as Hkeep.
  destruct (Run_turn dial read write eb w) as [[eb1 w1] [t1|]]; cbn [fst snd] in *.
  - injection Hrun as <-. destruct (Hcause t1 eq_refl) as [[_ Hc]|[_ Hc]].
    + destruct (Hsched (Reconnection eb)) as (s' & d & Hs). rewrite Hs in Hc.
      cbn [snd] in Hc. destruct t1 as [e|attempt e|p].
      * destruct Hc as [d' Hc]. discriminate.
      * destruct Hc as (_ & Hd & _). eauto.
      * discriminate.
    + exfalso.
      assert (Hlog1 : forall e p, errorLogger (at_read dial eb w).1 e <> Panicked p).
      { unfold at_read. destruct (socket eb); [exact Hlog|].
        unfold connect. destruct (NextReconnectBackoff _) as [sched [[d [exit|]]|p]];
          try exact Hlog. destruct (dial _); exact Hlog. }
      set (eb2 := (at_read dial eb w).1) in *. set (w2 := (at_read dial eb w).2) in *.
      unfold panics_at_read in Hc. destruct t1 as [e|attempt e|p]; try contradiction.
      destruct (read (reads w2)) as [err|msg]; [exact (Hlog1 _ _ Hc)|].
      destruct Hc as (s & _ & Hc).
      pose proof (handleEvent_effect s eb2 (after_read w2) msg) as Heff.
      pose proof (handleEvent_panics write s eb2 (after_read w2) msg) as Hpan.
      cbv zeta in Heff.
      destruct (handleEvent write s eb2 (after_read w2) msg) as [[eb3 w3] [[e|]|q]];
        cbn [fst snd] in Heff, Hpan; [|contradiction|].
      * destruct Heff as (_ & _ & _ & _ & Hl3 & _). rewrite Hl3 in Hc.
        exact (Hlog1 _ _ Hc).
      * destruct (Hpan q eq_refl) as [(_ & _ & Hg)|(_ & m & _ & [Hh|[_ Hs]])].
        { exact (Hget _ _ Hg). }
        { exact (Hhandle _ _ _ Hh). }
        { exact (Hset _ _ _ _ Hs). }
  - apply (IH eb1 w1 t (Hl eq_refl)); [|exact Hrun].
    intros e p. rewrite Hkeep. apply Hlog.
Qed.

(** X13.  After a failed read, whatever state the client was in, the loop
    logs the error and, when the logger returns, closes the socket,
    connects again and hands the next frame to the connecting state; the
    store and the handler are those of before. *)
Theorem Run_reconnects_in_connecting_state (eb : Eventbus) (w : world) (c : nat)
    (err : error) (sched : Sched) (d : Duration) (body : frame) :
  socket eb = Some c ->
  read (reads w) = inl err ->
  errorLogger eb err = Ok tt ->
  NextReconnectBackoff (Reconnection eb) = (sched, Ok (d, None)) ->
  dial (dials w) = None ->
  read (S (reads w)) = inr body ->
  exists (eb1 : Eventbus) (w1 : world),
    state eb1 = Some connecting /\ socket eb1 = Some (dials w) /\
    store eb1 = store eb /\ eventHandler eb1 = eventHandler eb /\
    trace w1 = trace w ++ [EvRead; EvLog err; EvClose; EvSleep d; EvDial (dials w); EvRead] /\
    Run dial read write 2 eb w = settle (connecting_handleEvent write eb1 w1 body).
Proof.
  intros Hsock Hread Hlog Hsched Hdial Hread2.
  eexists (set_socket (Some (dials w))
             (set_Reconnection sched (set_state (Some connecting) (set_socket None eb)))),
          {| dials := S (dials w); reads := S (S (reads w)); writes := writes w;
             trace := trace w ++ [EvRead; EvLog err; EvClose; EvSleep d; EvDial (dials w);
                                  EvRead] |}.
  repeat split.
  cbn [Run]. unfold Run_turn at 1. rewrite Hsock. unfold read_and_handle at 1.
  rewrite Hread. unfold drop_socket at 1. rewrite Hlog. cbn [record after_read].
  unfold Run_turn. cbn [socket set_socket]. unfold connect.
  cbn [Reconnection set_state set_socket]. rewrite Hsched.
  cbn [record after_read dials trace reads writes]. rewrite Hdial.
  unfold read_and_handle.
  cbn [after_read reads state set_socket set_Reconnection set_state].
  rewrite Hread2. cbn [handleEvent].
  unfold after_read. cbn [dials reads writes trace]. rewrite <- !app_assoc. cbn [app].
  unfold settle.
  destruct (connecting_handleEvent write _ _ body) as [[eb2 w2] [[e|]|p]]; try reflexivity.
  destruct (drop_socket e eb2 w2) as [[eb3 w3] [t|]]; reflexivity.
Qed.

End LoopProperties.

(** ** The loop under the limited schedulers *)

Section LimitedLoop.

Context {Store Hand : Type}.
Context {offset_store : offsetStore Store}.
Context {event_handler : EventHandler Hand}.
Variable dial : nat -> option error.
Variable read : nat -> error + frame.
Variable write : nat -> option error.

Lemma finish_dials {Sched} (eb : @Eventbus Sched Store Hand) (w : world) :
  dials (finish eb w) = dials w.
Proof. unfold finish. destruct (socket eb); reflexivity. Qed.

Lemma drop_socket_keeps {Sched} (err : error) (eb : @Eventbus Sched Store Hand)
    (w : world) :
  dials (drop_socket err eb w).1.2 = dials w /\
  Reconnection (drop_socket err eb w).1.1 = Reconnection eb.
Proof.
  unfold drop_socket. destruct (errorLogger eb err); cbn [fst snd];
    rewrite ?finish_dials; split; reflexivity.
Qed.

Lemma read_and_handle_keeps {Sched} (eb : @Eventbus Sched Store Hand) (w : world) :
  dials (read_and_handle read write eb w).1.2 = dials w /\
  Reconnection (read_and_handle read write eb w).1.1 = Reconnection eb.
Proof.
  unfold read_and_handle.
  destruct (read (reads w)) as [err|msg];
    [destruct (drop_socket_keeps err eb (after_read w)) as [-> ->]; split; reflexivity|].
  destruct (state eb) as [s|]; [|cbn [fst snd]; rewrite finish_dials; split; reflexivity].
  pose proof (handleEvent_effect write s eb (after_read w) msg) as (Hd & _ & _ & Hr & _).
  destruct (handleEvent write s eb (after_read w) msg) as [[eb2 w2] [[e|]|p]];
    cbn [fst snd] in Hd, Hr |- *.
  - destruct (drop_socket_keeps e eb2 w2) as [-> ->]. split; assumption.
  - split; assumption.
  - rewrite finish_dials. split; assumption.
Qed.

Lemma Run_turn_limited (eb : @Eventbus limitedReconnectionScheduler Store Hand) (w : world) :
  MinInt32 < l_attempts (Reconnection eb) <= MaxInt32 ->
  let out := Run_turn dial read write eb w in
  Z.of_nat (dials out.1.2) + Z.max 0 (l_attempts (Reconnection out.1.1))
    <= Z.of_nat (dials w) + Z.max 0 (l_attempts (Reconnection eb)) /\
  (out.2 = None -> MinInt32 < l_attempts (Reconnection out.1.1) <= MaxInt32).
Proof.
  intros Ha. cbv zeta. unfold Run_turn. unfold MinInt32, MaxInt32 in *.
  destruct (socket eb) as [c|].
  { destruct (read_and_handle_keeps eb w) as [-> ->]. split; [lia|auto]. }
  unfold connect, NextReconnectBackoff, limited_scheduler.
  cbn [Reconnection set_state l_attempts l_delay].
  rewrite int32_id by (unfold in_int32, MinInt32, MaxInt32; lia).
  destruct (Z.leb_spec 0 (l_attempts (Reconnection eb) - 1)) as [Hpos|Hneg];
    cbn [fst snd].
  - cbn [record dials]. destruct (dial (dials w)) as [err|];
      cbn [fst snd set_state set_Reconnection Reconnection l_attempts dials].
    + rewrite finish_dials. cbn [dials]. split; [lia|discriminate].
    + set (eb1 := set_socket _ _). set (w1 := Build_world _ _ _ _).
      destruct (read_and_handle_keeps eb1 w1) as [-> ->].
      cbn [eb1 w1 dials Reconnection set_socket set_Reconnection l_attempts].
      split; [lia|intros _; lia].
  - cbn [set_state set_Reconnection Reconnection l_attempts].
    rewrite finish_dials. split; [lia|discriminate].
Qed.

(** X14.  With a limited scheduler that has [n] attempts left, [Run]
    calls [Dial] at most [n] times more, however long it runs. *)
Theorem Run_limited_dials (fuel : nat) :
  forall (eb : @Eventbus limitedReconnectionScheduler Store Hand) (w : world),
    0 <= l_attempts (Reconnection eb) <= MaxInt32 ->
    Z.of_nat (dials (Run dial read write fuel eb w).1.2)
    <= Z.of_nat (dials w) + l_attempts (Reconnection eb).
Proof.
  assert (Hgen : forall (fuel : nat) (eb : @Eventbus limitedReconnectionScheduler Store Hand) w,
             MinInt32 < l_attempts (Reconnection eb) <= MaxInt32 ->
             Z.of_nat (dials (Run dial read write fuel eb w).1.2)
             <= Z.of_nat (dials w) + Z.max 0 (l_attempts (Reconnection eb))).
  { clear fuel. induction fuel as [|fuel IH]; intros eb w Ha; [cbn; lia|].
    cbn [Run]. destruct (Run_turn_limited eb w Ha) as [Hle Hnext]. cbv zeta in Hle, Hnext.
    destruct (Run_turn dial read write eb w) as [[eb1 w1] [t|]]; cbn [fst snd] in *.
    - lia.
    - specialize (IH eb1 w1 (Hnext eq_refl)). lia. }
  intros eb w Ha. specialize (Hgen fuel eb w). unfold MinInt32 in Hgen. lia.
Qed.

(** X15.  With the scheduler that [NewScheduler] builds for a limited
    exponential policy with baseDelay > maxDelay, [Run] on a client without
    a socket stops in its first turn, before any sleep or Dial: the index
    out of range in the scheduler is a panic that [Run] recovers and
    reports. *)
Theorem Run_recovers_empty_sequence (base max : Duration) (fuel0 fuel : nat)
    (s : limitedExponentialReconnectionScheduler)
    (eb : @Eventbus limitedExponentialReconnectionScheduler Store Hand) (w : world) :
  max < base ->
  NewLimitedExponentialScheduler fuel0 base max = Some s ->
  Reconnection eb = s -> socket eb = None ->
  (Run dial read write (S fuel) eb w).2 = Some (Recovered (IndexOutOfRange (-1) 0)) /\
  (Run dial read write (S fuel) eb w).1.2 = w.
Proof.
  intros Hlt Hnew Hs Hsock.
  assert (Hs0 : s = {| le_attempts := 0; le_backoffs := [] |}).
  { unfold NewLimitedExponentialScheduler in Hnew.
    destruct fuel0 as [|fuel0]; [discriminate|]. cbn [backoffs_loop] in Hnew.
    destruct (Z.leb_spec base max); [lia|]. congruence. }
  cbn [Run]. unfold Run_turn. rewrite Hsock. unfold connect.
  cbn [Reconnection set_state]. rewrite Hs, Hs0.
  assert (Hn : NextReconnectBackoff {| le_attempts := 0; le_backoffs := [] |}
               = ({| le_attempts := 1; le_backoffs := [] |},
                  Panicked (IndexOutOfRange (-1) 0))) by reflexivity.
  rewrite Hn. unfold finish. cbn [socket set_Reconnection set_state]. rewrite Hsock.
  split; reflexivity.
Qed.

End LimitedLoop.

(** ** More on the schedulers *)

Lemma backoffs_loop_doublings (max : Duration) (n : nat) :
  forall (fuel : nat) (b : Duration) (acc : list Duration),
    (n < fuel)%nat -> 0 < b -> max < 2 ^ 62 -> max < b * 2 ^ Z.of_nat n ->
    exists j : nat,
      (j <= n)%nat /\
      backoffs_loop fuel b max acc = Some (acc ++ doublings b j) /\
      (forall i : nat, (i < j)%nat -> b * 2 ^ Z.of_nat i <= max) /\
      max < b * 2 ^ Z.of_nat j.
Proof.
  induction n as [|n IH]; intros fuel b acc Hf Hb Hmax Hn;
    (destruct fuel as [|fuel]; [lia|]); cbn [backoffs_loop].
  - destruct (Z.leb_spec b max) as [Hle|Hgt]; [simpl in Hn; lia|].
    exists 0%nat. rewrite app_nil_r. repeat split; [lia|lia|simpl; lia].
  - destruct (Z.leb_spec b max) as [Hle|Hgt].
    + rewrite int64_id by (unfold in_int64, MinInt64, MaxInt64; lia).
      destruct (IH fuel (b * 2) (acc ++ [b])) as (j & Hj & Hl & Hin & Hout); [lia|lia|lia| |].
      { rewrite Nat2Z.inj_succ, Z.pow_succ_r in Hn by lia. lia. }
      exists (S j). split; [lia|]. split; [|split].
      * rewrite Hl, <- app_assoc. do 2 f_equal. unfold doublings.
        cbn [seq fmap list_fmap]. rewrite <- fmap_S_seq, <- list_fmap_compose.
        change (Z.of_nat 0) with 0. rewrite Z.pow_0_r, Z.mul_1_r. f_equal.
        apply list_fmap_ext. intros _ i _. cbn.
        rewrite Nat2Z.inj_succ, Z.pow_succ_r by lia. lia.
      * intros [|i] Hi; [simpl; lia|].
        specialize (Hin i ltac:(lia)).
        rewrite Nat2Z.inj_succ, Z.pow_succ_r by lia. lia.
      * rewrite Nat2Z.inj_succ, Z.pow_succ_r by lia. lia.
    + exists 0%nat. rewrite app_nil_r. repeat split; [lia|lia|simpl; lia].
Qed.

(** X16.  For a limited exponential policy with 0 < baseDelay <= maxDelay <
    2^62, [NewScheduler] returns the doublings of baseDelay that do not
    exceed maxDelay: base, 2*base, ..., base*2^(n-1), where base*2^(n-1) <=
    maxDelay < base*2^n. *)
Theorem NewScheduler_doublings (base max : Duration) (fuel : nat) :
  0 < base -> base <= max -> max < 2 ^ 62 -> (63 <= fuel)%nat ->
  exists n : nat,
    (1 <= n <= 62)%nat /\
    NewLimitedExponentialScheduler fuel base max
      = Some {| le_attempts := 0; le_backoffs := doublings base n |} /\
    base * 2 ^ (Z.of_nat n - 1) <= max < base * 2 ^ Z.of_nat n /\
    Forall (fun d => d <= max) (doublings base n).
Proof.
  intros Hb Hle Hmax Hf.
  destruct (backoffs_loop_doublings max 62 fuel base []) as (n & Hn & Hl & Hin & Hout);
    [lia|lia|lia| |].
  { change (2 ^ Z.of_nat 62) with (2 ^ 62). nia. }
  assert (Hn1 : (1 <= n)%nat).
  { destruct n; [simpl in Hout; lia|lia]. }
  exists n. split; [lia|]. split; [|split].
  - unfold NewLimitedExponentialScheduler. rewrite Hl. reflexivity.
  - split; [|exact Hout]. specialize (Hin (n - 1)%nat ltac:(lia)).
    replace (Z.of_nat n - 1) with (Z.of_nat (n - 1)) by lia. exact Hin.
  - unfold doublings. apply Forall_fmap, Forall_forall. intros i Hi.
    apply elem_of_seq in Hi. cbn. apply Hin. lia.
Qed.

Lemma NewScheduler_doublings_witness :
  0 < Second /\ Second <= 8 * Second /\ 8 * Second < 2 ^ 62 /\
  exists n : nat,
    (1 <= n <= 62)%nat /\
    NewLimitedExponentialScheduler 63 Second (8 * Second)
      = Some {| le_attempts := 0; le_backoffs := doublings Second n |} /\
    Second * 2 ^ (Z.of_nat n - 1) <= 8 * Second < Second * 2 ^ Z.of_nat n /\
    Forall (fun d => d <= 8 * Second) (doublings Second n).
Proof.
  assert (H1 : 0 < Second) by (unfold Second; lia).
  assert (H2 : Second <= 8 * Second) by (unfold Second; lia).
  assert (H3 : 8 * Second < 2 ^ 62) by (unfold Second; lia).
  repeat (split; [assumption|]).
  apply (NewScheduler_doublings Second (8 * Second) 63); [assumption..|lia].
Defined.

(** X17.  A limited exponential scheduler over a sequence that is not
    empty returns, at call k within the sequence, its k-th backoff with a
    nil error, and at every later call (as far as the int counter counts)
    its last backoff with [ErrReconnectsExhausted]; it never panics there. *)
Theorem limited_exponential_calls (l : list Duration) (k : N) (d : Duration) :
  Z.of_nat (length l) < 2 ^ 63 -> (1 <= k)%N ->
  (l !! (N.to_nat k - 1)%nat = Some d ->
   nth_call k {| le_attempts := 0; le_backoffs := l |} = Ok (d, None)) /\
  ((N.of_nat (length l) < k < 2 ^ 63)%N -> last l = Some d ->
   nth_call k {| le_attempts := 0; le_backoffs := l |}
   = Ok (d, Some ErrReconnectsExhausted)).
Proof.
  intros Hlen Hk. rewrite limited_exponential_nth_call by exact Hk. cbv zeta.
  assert (Hp : (2 ^ 63)%N = 9223372036854775808%N) by reflexivity.
  split.
  - intros Hd. pose proof (lookup_lt_Some _ _ _ Hd) as Hlt.
    rewrite int_id by (unfold in_int64, MinInt64, MaxInt64; lia).
    destruct (Z.ltb_spec (Z.of_nat (length l)) (Z.of_N k)); [lia|].
    rewrite int_id by (unfold in_int64, MinInt64, MaxInt64; lia).
    destruct (index_in_range l (Z.of_N k - 1)) as (d' & -> & Hd'); [lia|].
    replace (Z.to_nat (Z.of_N k - 1)) with (N.to_nat k - 1)%nat in Hd' by lia.
    congruence.
  - intros Hlate Hlast.
    rewrite int_id by (unfold in_int64, MinInt64, MaxInt64; lia).
    destruct (Z.ltb_spec (Z.of_nat (length l)) (Z.of_N k)); [|lia].
    assert (Hne : (0 < length l)%nat).
    { destruct l; [discriminate|simpl; lia]. }
    rewrite int_id by (unfold in_int64, MinInt64, MaxInt64; lia).
    destruct (index_in_range l (Z.of_nat (length l) - 1)) as (d' & -> & Hd'); [lia|].
    rewrite last_lookup in Hlast.
    replace (Z.to_nat (Z.of_nat (length l) - 1)) with (pred (length l)) in Hd' by lia.
    congruence.
Qed.

Lemma limited_exponential_calls_witness :
  Z.of_nat (length [Second; 2 * Second]) < 2 ^ 63 /\ (1 <= 2)%N /\
  nth_call 2 {| le_attempts := 0; le_backoffs := [Second; 2 * Second] |}
  = Ok (2 * Second, None).
Proof.
  split; [simpl; lia|]. split; [lia|].
  apply (limited_exponential_calls [Second; 2 * Second] 2 (2 * Second));
    [simpl; lia|lia|reflexivity].
Defined.

Section ExponentialGeneral.

Variable float_overflow : Z.

Lemma float64_of_int_large (z : Z) : 2 ^ 53 <= z -> 2 ^ 53 <= float64_of_int z.
Proof.
  intros Hz. unfold float64_of_int. cbv zeta.
  destruct (Z.ltb_spec (Z.abs z) (2 ^ 53)) as [Hs|_]; [lia|].
  rewrite Z.abs_eq by lia. set (L := Z.log2 z).
  assert (Hpos : 0 < z) by lia.
  destruct (Z.log2_spec z Hpos) as [Hlo _]. fold L in Hlo.
  assert (HL53 : 53 <= L).
  { unfold L. rewrite <- (Z.log2_pow2 53) by lia. apply Z.log2_le_mono. lia. }
  set (e := L - 52). set (q := z / 2 ^ e). set (r := z mod 2 ^ e).
  assert (He : 0 < 2 ^ e) by (apply Z.pow_pos_nonneg; lia).
  assert (Hdiv : z = 2 ^ e * q + r) by (apply Z.div_mod; lia).
  assert (Hr : 0 <= r < 2 ^ e) by (apply Z.mod_pos_bound; lia).
  assert (Hpow : 2 ^ L = 2 ^ 52 * 2 ^ e).
  { rewrite <- Z.pow_add_r by lia. f_equal. lia. }
  assert (Hq : 2 ^ 52 <= q) by nia.
  assert (He2 : 2 <= 2 ^ e).
  { change 2 with (2 ^ 1) at 1. apply Z.pow_le_mono_r; lia. }
  set (q' := if r <? 2 ^ (e - 1) then q
             else if 2 ^ (e - 1) <? r then q + 1
             else if Z.even q then q else q + 1).
  assert (Hq' : q <= q').
  { unfold q'. destruct (r <? _); [lia|]. destruct (_ <? r); [lia|].
    destruct (Z.even q); lia. }
  rewrite Z.sgn_pos by lia. nia.
Qed.

Lemma exponential_after_calls_attempts (k : N) (s : exponentialReconnectionScheduler) :
  e_attempts (after_calls (H := exponential_scheduler float_overflow) k s)
  = if (k =? 0)%N then e_attempts s else int32 (e_attempts s + Z.of_N k).
Proof.
  unfold after_calls. induction k as [|k IH] using N.peano_ind; [reflexivity|].
  rewrite N.iter_succ. destruct (N.eqb_spec (N.succ k) 0) as [E|_]; [lia|].
  set (s' := N.iter k _ s) in *.
  change (e_attempts (NextReconnectBackoff (ReconnectionScheduler :=
            exponential_scheduler float_overflow) s').1)
    with (int32 (e_attempts s' + 1)).
  rewrite IH. destruct (N.eqb_spec k 0) as [->|_]; [f_equal|].
  unfold int32. rewrite wrap_add_l by lia. f_equal. lia.
Qed.

(** X18.  As long as the product fits an int64, the exponential scheduler
    does what its name says: with a base that is not negative and a max that
    a float64 holds exactly, call k (up to call 63) returns
    min(base * 2^(k-1), max) with a nil error. *)
Theorem exponential_calls_before_overflow (base max : Duration) (k : N) :
  0 <= base -> - 2 ^ 53 < max < 2 ^ 53 -> (1 <= k <= 63)%N ->
  base * 2 ^ (Z.of_N k - 1) <= MaxInt64 ->
  nth_call (H := exponential_scheduler float_overflow) k (NewExponentialScheduler base max)
  = Ok (Z.min (base * 2 ^ (Z.of_N k - 1)) max, None).
Proof.
  intros Hb Hmax Hk Hfit. unfold nth_call, MaxInt64 in *.
  destruct (exponential_after_calls float_overflow (k - 1) (NewExponentialScheduler base max))
    as [Hbase Hmaxd].
  pose proof (exponential_after_calls_attempts (k - 1) (NewExponentialScheduler base max))
    as Hatt.
  set (s := after_calls (H := exponential_scheduler float_overflow) (k - 1)
              (NewExponentialScheduler base max)) in *.
  cbn [NewExponentialScheduler e_attempts e_baseDelay e_maxDelay] in Hbase, Hmaxd, Hatt.
  assert (Hatt' : e_attempts s = Z.of_N k - 1).
  { rewrite Hatt. destruct (N.eqb_spec (k - 1) 0); [lia|].
    rewrite int32_id; unfold in_int32, MinInt32, MaxInt32; lia. }
  unfold NextReconnectBackoff, exponential_scheduler. cbn [snd].
  rewrite Hbase, Hmaxd, Hatt'. unfold calculateDelay.
  replace (Z.of_N k - 1 + 1) with (Z.of_N k) by lia.
  rewrite (int32_id (Z.of_N k)) by (unfold in_int32, MinInt32, MaxInt32; lia).
  rewrite (int32_id (Z.of_N k - 1)) by (unfold in_int32, MinInt32, MaxInt32; lia).
  unfold pow2_duration.
  destruct (Z.ltb_spec (Z.of_N k - 1) 0); [lia|].
  destruct (Z.leb_spec (Z.of_N k - 1) 62); [|lia].
  assert (Hp : 0 < 2 ^ (Z.of_N k - 1)) by (apply Z.pow_pos_nonneg; lia).
  rewrite (Z.mul_comm (2 ^ (Z.of_N k - 1)) base).
  set (d := base * 2 ^ (Z.of_N k - 1)) in *.
  assert (Hd0 : 0 <= d) by (unfold d; nia).
  rewrite int64_id by (unfold in_int64, MinInt64, MaxInt64; lia).
  assert (Hfm : float64_of_int max = max).
  { unfold float64_of_int. destruct (Z.ltb_spec (Z.abs max) (2 ^ 53)); lia. }
  rewrite Hfm. do 2 f_equal.
  destruct (Z.lt_ge_cases d (2 ^ 53)) as [Hsmall|Hlarge].
  - assert (Hfd : float64_of_int d = d).
    { unfold float64_of_int. destruct (Z.ltb_spec (Z.abs d) (2 ^ 53)); lia. }
    rewrite Hfd. unfold int64_of_float, MinInt64, MaxInt64.
    destruct (Z.leb_spec (- 2 ^ 63) (Z.min d max)); [|lia].
    destruct (Z.leb_spec (Z.min d max) (2 ^ 63 - 1)); [reflexivity|lia].
  - pose proof (float64_of_int_large d Hlarge) as Hfd.
    rewrite (Z.min_r (float64_of_int d) max) by lia. rewrite (Z.min_r d max) by lia.
    unfold int64_of_float, MinInt64, MaxInt64.
    destruct (Z.leb_spec (- 2 ^ 63) max); [|lia].
    destruct (Z.leb_spec max (2 ^ 63 - 1)); [reflexivity|lia].
Qed.

(** X19.  Whatever the base and however many calls have been made, the
    exponential scheduler returns a nil error and a duration of at most
    maxDelay, for a maxDelay that a float64 holds exactly; it never signals
    exhaustion. *)
Theorem exponential_never_exceeds_max (base max : Duration) (k : N) :
  - 2 ^ 53 < max < 2 ^ 53 ->
  exists d,
    nth_call (H := exponential_scheduler float_overflow) k (NewExponentialScheduler base max)
    = Ok (d, None) /\
    d <= max.
Proof.
  intros Hmax. unfold nth_call.
  destruct (exponential_after_calls float_overflow (k - 1) (NewExponentialScheduler base max))
    as [_ Hmaxd].
  destruct (exponential_bounded float_overflow
              (after_calls (H := exponential_scheduler float_overflow) (k - 1)
                 (NewExponentialScheduler base max))) as (d & Hd & Hle).
  { rewrite Hmaxd. exact Hmax. }
  exists d. split; [exact Hd|]. rewrite Hmaxd in Hle. exact Hle.
Qed.

End ExponentialGeneral.

(** ** The further properties at work *)

Lemma empty_snapshot_handshake_witness :
  (GetOffsets (offsetStore := empty_map_store) (store sample_eventbus_unreadable)).2
    = Ok (Some ∅, None) /\
  exists handshake,
    (createHandshake (offset_store := empty_map_store)
       sample_eventbus_unreadable world0 "abc").2 = Ok handshake /\
    handshake !! "state"%string
    = Some (EncodeToString ("{" +:+ quoted "p" +:+ ":{}}")).
Proof.
  split; [reflexivity|].
  apply (empty_snapshot_handshake (offset_store := empty_map_store)
           sample_eventbus_unreadable world0 "abc").
  reflexivity.
Defined.

Lemma Run_handles_after_handshake_witness :
  trace (Run (event_handler := accepting_handler) dial_once read_session write_ok 3
           (NewEventbus sample_OffsetOldest sample_config tt NewInMemoryOffsetStore
              (NewLimitedScheduler 3 Second)) world0).1.2
    = [EvSleep Second; EvDial 0; EvRead; EvGetOffsets;
       EvSend (Marshal (<["state"%string := "eyJkIjoiLTIifQ=="%string]>
                        (<["version"%string := "1"%string]>
                        (<["client"%string := "worker"%string]>
                        (<["stream"%string := "orders"%string]>
                        (<["authentication"%string := "token"%string]>
                        ({[ "id"%string := "abc"%string ]})))))));
       EvRead; EvRead] ++ EvHandle sample_message :: [EvSetOffset 0 5] /\
  sent_since_dial false
    [EvSleep Second; EvDial 0; EvRead; EvGetOffsets;
     EvSend (Marshal (<["state"%string := "eyJkIjoiLTIifQ=="%string]>
                      (<["version"%string := "1"%string]>
                      (<["client"%string := "worker"%string]>
                      (<["stream"%string := "orders"%string]>
                      (<["authentication"%string := "token"%string]>
                      ({[ "id"%string := "abc"%string ]})))))));
     EvRead; EvRead] = true.
Proof.
  assert (Htr : trace (Run (event_handler := accepting_handler) dial_once read_session
                         write_ok 3
                         (NewEventbus sample_OffsetOldest sample_config tt
                            NewInMemoryOffsetStore (NewLimitedScheduler 3 Second))
                         world0).1.2
                = [EvSleep Second; EvDial 0; EvRead; EvGetOffsets;
                   EvSend (Marshal (<["state"%string := "eyJkIjoiLTIifQ=="%string]>
                                    (<["version"%string := "1"%string]>
                                    (<["client"%string := "worker"%string]>
                                    (<["stream"%string := "orders"%string]>
                                    (<["authentication"%string := "token"%string]>
                                    ({[ "id"%string := "abc"%string ]})))))));
                   EvRead; EvRead] ++ EvHandle sample_message :: [EvSetOffset 0 5])
    by (vm_compute; reflexivity).
  split; [exact Htr|].
  exact (Run_handles_after_handshake (event_handler := accepting_handler)
           dial_once read_session write_ok sample_OffsetOldest 3 sample_config tt
           NewInMemoryOffsetStore (NewLimitedScheduler 3 Second) _ _ _ Htr).
Defined.

Lemma Run_stops_on_dial_failure_only_witness :
  (forall s : constantReconnectionScheduler,
     exists s' d, NextReconnectBackoff s = (s', Ok (d, None))) /\
  (forall (h : unit) m p, (Handle (EventHandler := accepting_handler) h m).2 <> Panicked p) /\
  (forall (st : InMemoryOffsetStore) partition offset p,
     (SetOffset st partition offset).2 <> Panicked p) /\
  (forall (st : InMemoryOffsetStore) p, (GetOffsets st).2 <> Panicked p) /\
  live sample_eventbus_constant /\
  (forall e p, errorLogger sample_eventbus_constant e <> Panicked p) /\
  exists attempt e,
    DialFailed 1 (External "connection refused") = DialFailed attempt e /\
    dial_once attempt = Some e.
Proof.
  assert (Hsched : forall s : constantReconnectionScheduler,
             exists s' d, NextReconnectBackoff s = (s', Ok (d, None))).
  { intros s. eexists _, _. reflexivity. }
  assert (Hhandle : forall (h : unit) m p,
             (Handle (EventHandler := accepting_handler) h m).2 <> Panicked p).
  { intros h m p. discriminate. }
  assert (Hset : forall (st : InMemoryOffsetStore) partition offset p,
             (SetOffset st partition offset).2 <> Panicked p).
  { intros st partition offset p. discriminate. }
  assert (Hget : forall (st : InMemoryOffsetStore) p, (GetOffsets st).2 <> Panicked p).
  { intros st p. cbn. destruct (size (offsets st) =? 0)%nat; discriminate. }
  assert (Hlive : live sample_eventbus_constant).
  { intros [c Hc]. discriminate Hc. }
  assert (Hlog : forall e p, errorLogger sample_eventbus_constant e <> Panicked p).
  { intros e p. discriminate. }
  do 6 (split; [assumption|]).
  apply (Run_stops_on_dial_failure_only (event_handler := accepting_handler)
           dial_once read_fails write_ok 2 Hsched Hhandle Hset Hget
           sample_eventbus_constant world0 _ Hlive Hlog).
  reflexivity.
Defined.

Lemma Run_reconnects_in_connecting_state_witness :
  socket sample_eventbus_streaming = Some 0%nat /\
  errorLogger sample_eventbus_streaming (External "unexpected EOF") = Ok tt /\
  exists eb1 w1,
    state eb1 = Some connecting /\ socket eb1 = Some 0%nat /\
    store eb1 = store sample_eventbus_streaming /\
    eventHandler eb1 = eventHandler sample_eventbus_streaming /\
    trace w1 = trace world0 ++ [EvRead; EvLog (External "unexpected EOF"); EvClose;
                                EvSleep Second; EvDial 0; EvRead] /\
    Run (event_handler := accepting_handler) dial_ok read_after_drop write_ok 2
      sample_eventbus_streaming world0
    = settle (connecting_handleEvent write_ok eb1 w1 sample_trigger).
Proof.
  split; [reflexivity|]. split; [reflexivity|].
  apply (Run_reconnects_in_connecting_state (event_handler := accepting_handler)
           dial_ok read_after_drop write_ok sample_eventbus_streaming world0 0%nat
           (External "unexpected EOF") {| c_duration := Second |} Second sample_trigger);
    reflexivity.
Defined.

Lemma Run_limited_dials_witness :
  0 <= l_attempts (Reconnection sample_eventbus) <= MaxInt32 /\
  Z.of_nat (dials (Run (event_handler := accepting_handler) dial_ok read_fails write_ok 10
                     sample_eventbus world0).1.2)
  <= Z.of_nat (dials world0) + l_attempts (Reconnection sample_eventbus).
Proof.
  assert (Ha : 0 <= l_attempts (Reconnection sample_eventbus) <= MaxInt32).
  { unfold MaxInt32. cbn. lia. }
  split; [exact Ha|].
  exact (Run_limited_dials (event_handler := accepting_handler) dial_ok read_fails write_ok
           10 sample_eventbus world0 Ha).
Defined.

Lemma Run_recovers_empty_sequence_witness :
  Second < 8 * Second /\
  NewLimitedExponentialScheduler 1 (8 * Second) Second
    = Some {| le_attempts := 0; le_backoffs := [] |} /\
  (Run (event_handler := accepting_handler) dial_ok read_session write_ok 5
     sample_eventbus_empty_sequence world0).2
  = Some (Recovered (IndexOutOfRange (-1) 0)).
Proof.
  assert (Hlt : Second < 8 * Second) by (unfold Second; lia).
  split; [exact Hlt|]. split; [reflexivity|].
  apply (Run_recovers_empty_sequence (event_handler := accepting_handler)
           dial_ok read_session write_ok (8 * Second) Second 1 4
           {| le_attempts := 0; le_backoffs := [] |} sample_eventbus_empty_sequence world0
           Hlt); reflexivity.
Defined.

Lemma exponential_calls_before_overflow_witness :
  0 <= Second /\ - 2 ^ 53 < 32 * Second < 2 ^ 53 /\ (1 <= 3 <= 63)%N /\
  Second * 2 ^ (Z.of_N 3 - 1) <= MaxInt64 /\
  nth_call (H := exponential_scheduler MinInt64) 3
    (NewExponentialScheduler Second (32 * Second))
  = Ok (Z.min (Second * 2 ^ (Z.of_N 3 - 1)) (32 * Second), None).
Proof.
  assert (H1 : 0 <= Second) by (unfold Second; lia).
  assert (H2 : - 2 ^ 53 < 32 * Second < 2 ^ 53) by (unfold Second; lia).
  assert (H3 : (1 <= 3 <= 63)%N) by lia.
  assert (H4 : Second * 2 ^ (Z.of_N 3 - 1) <= MaxInt64)
    by (unfold Second, MaxInt64; simpl; lia).
  repeat (split; [assumption|]).
  exact (exponential_calls_before_overflow MinInt64 Second (32 * Second) 3 H1 H2 H3 H4).
Defined.

Lemma exponential_never_exceeds_max_witness :
  - 2 ^ 53 < 32 * Second < 2 ^ 53 /\
  exists d,
    nth_call (H := exponential_scheduler MinInt64) 1000
      (NewExponentialScheduler Second (32 * Second)) = Ok (d, None) /\
    d <= 32 * Second.
Proof.
  assert (H2 : - 2 ^ 53 < 32 * Second < 2 ^ 53) by (unfold Second; lia).
  split; [exact H2|].
  exact (exponential_never_exceeds_max MinInt64 Second (32 * Second) 1000 H2).
Defined.
